(** * Cross field computation of the quad meshing tools (qmt_cross_field.cpp)

    A shallow embedding of [contrib/QuadMeshingTools/qmt_cross_field.cpp]:
    the adjacency builder, the Crouzeix-Raviart stiffness assembler, the
    system compactor, the heat diffusion driver and the field extractor.

    Conventions.
    - Vertex and edge identifiers ([id]) are unsigned 32 bit integers, modelled
      as [N]; a conversion into [id] is written [to_id] and wraps around.
      Signed identifiers ([sid]) are modelled as [Z].  Vector subscripts
      ([size_t]) are [nat].
    - [double] is idealised as the real numbers [R].
    - A [std::vector] is a [list]; [v[i]] is a lookup, [v[i] = x] an insert,
      [v.push_back(x)] appends.  A subscript out of range is undefined
      behaviour in the source; here a read yields the default value of the
      type and a write does nothing. *)

From Stdlib Require Import ZArith NArith Reals Lra Lia ClassicalDescription Sorted.
From stdpp Require Import base list numbers gmap.

(** ** Types of qmt_types.hpp *)

(** Modelled from the spec: qmt_types.hpp is not part of the sources.  [id] is
    the unsigned type of vertex ids; [id2Hash] packs two of them in one 64 bit
    word by a shift of 32, so [id] has 32 bits.  [NO_ID] is the sentinel
    ("invalid") id, the largest value of the type.  [sid] is the signed type
    of the adjacency slots, taken wide enough to hold every [id]. *)
Abbreviation id := N (only parsing).
Abbreviation sid := Z (only parsing).
Abbreviation id2 := (N * N)%type (only parsing).
Abbreviation id3 := (N * N * N)%type (only parsing).
Abbreviation sid3 := (Z * Z * Z)%type (only parsing).
Abbreviation vec3 := (R * R * R)%type (only parsing).

Definition id_modulus : N := 2 ^ 32.

Definition to_id (n : N) : id := (n mod id_modulus)%N.

Definition NO_ID : id := 4294967295%N.

Definition sid_of_id (v : id) : sid := Z.of_N v.

(** [a[k]] and [a[k] = x] on a [std::array] of three components. *)
Definition at3 {A} (t : A * A * A) (k : nat) : A :=
  match k with O => t.1.1 | 1 => t.1.2 | _ => t.2 end.

Definition set3 {A} (k : nat) (x : A) (t : A * A * A) : A * A * A :=
  match k with
  | O => (x, t.1.2, t.2)
  | 1 => (t.1.1, x, t.2)
  | _ => (t.1.1, t.1.2, x)
  end.

(** [v[i].push_back(x)] on a vector of vectors. *)
Definition push_at {A} (i : nat) (x : A) (v : list (list A)) : list (list A) :=
  alter (λ l, l ++ [x]) i v.

(** [v.resize(n)] on a vector of vectors: truncates, or pads with empty
    vectors; the entries already there are kept. *)
Definition resize_vv {A} (n : nat) (v : list (list A)) : list (list A) :=
  take n v ++ replicate (n - length v) [].

(** ** Failures *)

(** A function that reports an error and returns false yields [Err]. *)
Inductive result (E A : Type) : Type :=
  | Ok (a : A)
  | Err (e : E).
Arguments Ok {E A} a.
Arguments Err {E A} e.

#[global] Instance result_ret {E} : MRet (result E) := λ A a, Ok a.
#[global] Instance result_bind {E} : MBind (result E) := λ A B f m,
  match m with Ok a => f a | Err e => Err e end.

(** ** Constants and functions of the C library *)

#[global] Instance R_inhabited : Inhabited R := populate 0%R.

Definition DBL_MAX : R := IZR (2 ^ 1024 - 2 ^ 971).

(** [constexpr double EPS = 1.e-14], to detect 0. *)
Definition EPS : R := 1e-14%R.

(** [atan2(y,x)], the angle of the point [(x,y)] in (-PI, PI].  The reals
    have one zero: for [y = -0.0] and [x < 0] the C library gives -PI, where
    this function gives PI; the range of the C function is [-PI, PI]. *)
Definition atan2 (y x : R) : R :=
  if Rlt_dec 0 x then atan (y / x)
  else if Rlt_dec x 0 then
    (if Rle_dec 0 y then atan (y / x) + PI else atan (y / x) - PI)%R
  else if Rlt_dec 0 y then (PI / 2)%R
  else if Rlt_dec y 0 then (- PI / 2)%R
  else 0%R.

Module QMT_CF_Utils.

(** [sorted(v1,v2)] *)
Definition sorted (v1 v2 : id) : id2 :=
  if (v1 <? v2)%N then (v1, v2) else (v2, v1).

(** [std::sort(face.begin(),face.end())] on a pair. *)
Definition sort_face (face : id2) : id2 :=
  if (face.2 <? face.1)%N then (face.2, face.1) else face.

(** [operator<] and [operator==] of [std::array<id,2>]. *)
Definition id2_ltb (a b : id2) : bool :=
  (a.1 <? b.1)%N || ((a.1 =? b.1)%N && (a.2 <? b.2)%N).

Definition id2_eqb (a b : id2) : bool :=
  (a.1 =? b.1)%N && (a.2 =? b.2)%N.

(** [id2Hash::operator()]: [size_t(p[0]) << 32 | p[1]], with a [size_t] of
    64 bits. *)
Definition id2Hash (p : id2) : N :=
  N.lor (N.shiftl p.1 32 mod 2 ^ 64) p.2.

End QMT_CF_Utils.

Module QMT_Utils.
Import QMT_CF_Utils.

(** Modelled from the spec: sort_unique_with_perm of qmt_utils.hpp is not
    part of the sources.  It sorts and deduplicates its input ("sort-and-
    deduplicate to obtain unique edges"), and keeps for every input position
    the position of its value among the unique ones ("a mapping from every
    (triangle, local-edge) occurrence to its unique edge index is
    retained"); it returns the number of unique values.  [insert_unique]
    inserts a value in a strictly increasing list. *)
Fixpoint insert_unique (x : id2) (l : list id2) : list id2 :=
  match l with
  | [] => [x]
  | y :: l' =>
      if id2_ltb x y then x :: l
      else if id2_eqb x y then l
      else y :: insert_unique x l'
  end.

Definition sort_unique (l : list id2) : list id2 :=
  foldr insert_unique [] l.

Fixpoint index_of (x : id2) (l : list id2) : nat :=
  match l with
  | [] => 0
  | y :: l' => if id2_eqb x y then 0 else S (index_of x l')
  end.

Definition sort_unique_with_perm (input : list id2)
  : nat * list id2 * list id :=
  let uniques := sort_unique input in
  let old2new := (λ x, to_id (N.of_nat (index_of x uniques))) <$> input in
  (length uniques, uniques, old2new).

(** Modelled from the spec: the 3D vector algebra of qmt_utils.hpp
    (cross/dot/length/normalize and the operators on [vec3]) is not part of
    the sources; [angle_nvectors] is the unsigned angle between two unit
    vectors. *)
Section geometry.
Local Open Scope R_scope.

Definition vsub (a b : vec3) : vec3 :=
  (a.1.1 - b.1.1, a.1.2 - b.1.2, a.2 - b.2).

Definition vadd (a b : vec3) : vec3 :=
  (a.1.1 + b.1.1, a.1.2 + b.1.2, a.2 + b.2).

Definition vscale (c : R) (a : vec3) : vec3 :=
  (c * a.1.1, c * a.1.2, c * a.2).

Definition dot (a b : vec3) : R :=
  a.1.1 * b.1.1 + a.1.2 * b.1.2 + a.2 * b.2.

Definition cross (a b : vec3) : vec3 :=
  (a.1.2 * b.2 - a.2 * b.1.2,
   a.2 * b.1.1 - a.1.1 * b.2,
   a.1.1 * b.1.2 - a.1.2 * b.1.1).

Definition length3 (a : vec3) : R := sqrt (dot a a).

Definition normalize (a : vec3) : vec3 := vscale (1 / length3 a) a.

Definition clamp (x lower upper : R) : R := Rmin upper (Rmax x lower).

Definition angle_nvectors (a b : vec3) : R := acos (clamp (dot a b) (-1) 1).

End geometry.

End QMT_Utils.

Module QMT.
Import QMT_CF_Utils QMT_Utils.

Definition NBF : nat := 3.

Definition NO_FACE : id2 := (NO_ID, NO_ID).

(** The faces of all triangles, in the order of their face position
    [NBF*i+lf]. *)
Definition triangle_faces (t : id3) : list id2 :=
  (λ lf, sort_face (at3 t lf, at3 t ((lf + 1) mod NBF))) <$> seq 0 NBF.

Definition all_faces (triangles : list id3) : list id2 :=
  triangles ≫= triangle_faces.

(** The 'unique face to elements' mapping: the loop over [i] and [lf]
    pushes the face position [facePos = NBF*i+lf] (an [id]) on
    [uIEdgeToOld[old2IEdge[facePos]]]. *)
Definition face_positions (nbTriangles : nat) : list id :=
  (λ k, to_id (N.of_nat k)) <$> seq 0 (NBF * nbTriangles).

Definition build_uIEdgeToOld (old2IEdge : list id) (nbTriangles : nat)
    (uIEdgeToOld : list (list id)) : list (list id) :=
  foldl (λ acc facePos,
           push_at (N.to_nat (old2IEdge !!! N.to_nat facePos)) facePos acc)
        uIEdgeToOld (face_positions nbTriangles).

(** [triangle_neighbors[e][lf]] and [triangle_neighbors[e][lf] = v]. *)
Definition get_neighbor (tn : list sid3) (e lf : id) : option sid :=
  (λ t, at3 t (N.to_nat lf)) <$> tn !! N.to_nat e.

Definition set_neighbor (e lf : id) (v : sid) (tn : list sid3) : list sid3 :=
  alter (set3 (N.to_nat lf) v) (N.to_nat e) tn.

(** The body of the loop over [j] for a non manifold face. *)
Definition nm_step (occ : list id) (st : list sid3 * list (list id)) (oj : id)
  : list sid3 * list (list id) :=
  let e := (oj / 3)%N in
  let lf := (oj mod 3)%N in
  let neighs := filter (λ ok, ok ≠ oj) occ in
  let pos := to_id (N.of_nat (length st.2)) in
  (set_neighbor e lf (- (sid_of_id pos + 1))%Z st.1, st.2 ++ [neighs]).

(** The body of the loop over the unique faces; [None] is [return false]. *)
Definition adjacency_step (uIEdges : list id2) (uIEdgeToOld : list (list id))
    (st : list sid3 * list (list id)) (i : nat)
  : option (list sid3 * list (list id)) :=
  let edge : id2 := uIEdges !!! i in
  let occ : list id := uIEdgeToOld !!! i in
  if decide (edge = NO_FACE) then Some st
  else if decide (edge.1 = NO_ID) then None
  else if decide (edge.2 = NO_ID) then None
  else if decide (length occ = 1) then
    let eltId := (occ !!! 0%nat / 3)%N in
    let lf := (occ !!! 0%nat mod 3)%N in
    Some (set_neighbor eltId lf (sid_of_id NO_ID) st.1, st.2)
  else if decide (length occ = 2) then
    let e1 := (occ !!! 0%nat / 3)%N in
    let lf1 := (occ !!! 0%nat mod 3)%N in
    let e2 := (occ !!! 1%nat / 3)%N in
    let lf2 := (occ !!! 1%nat mod 3)%N in
    Some (set_neighbor e2 lf2 (sid_of_id (3 * e1 + lf1))
            (set_neighbor e1 lf1 (sid_of_id (3 * e2 + lf2)) st.1),
          st.2)
  else if decide (2 < length occ) then
    Some (foldl (nm_step occ) st occ)
  else Some st.

Fixpoint adjacency_loop (uIEdges : list id2) (uIEdgeToOld : list (list id))
    (idx : list nat) (st : list sid3 * list (list id))
  : option (list sid3 * list (list id)) :=
  match idx with
  | [] => Some st
  | i :: idx' =>
      match adjacency_step uIEdges uIEdgeToOld st i with
      | None => None
      | Some st' => adjacency_loop uIEdges uIEdgeToOld idx' st'
      end
  end.

(** The outputs of [compute_triangle_adjacencies] when it returns true. *)
Record adjacencies := {
  triangle_neighbors : list sid3;
  nm_triangle_neighbors : list (list id);
  uIEdges : list id2;
  old2IEdge : list id;
  uIEdgeToOld : list (list id)
}.

(** [compute_triangle_adjacencies]: [None] when it returns false.  The
    vector [uIEdgeToOld] is resized, not cleared, so its initial value
    [uIEdgeToOld0] is an input. *)
Definition compute_triangle_adjacencies (triangles : list id3)
    (uIEdgeToOld0 : list (list id)) : option adjacencies :=
  let tn0 := replicate (length triangles)
               (sid_of_id NO_ID, sid_of_id NO_ID, sid_of_id NO_ID) in
  let faces := all_faces triangles in
  let '(nbUniques, uIEdges, old2IEdge) := sort_unique_with_perm faces in
  let uIEdgeToOld :=
    build_uIEdgeToOld old2IEdge (length triangles)
      (resize_vv nbUniques uIEdgeToOld0) in
  match adjacency_loop uIEdges uIEdgeToOld (seq 0 nbUniques) (tn0, []) with
  | None => None
  | Some st =>
      Some {| triangle_neighbors := st.1;
              nm_triangle_neighbors := st.2;
              uIEdges := uIEdges;
              old2IEdge := old2IEdge;
              uIEdgeToOld := uIEdgeToOld |}
  end.

(** ** The mesh *)

(** Modelled from the spec: [TMesh] is declared in qmt_types.hpp, which is not
    part of the sources: points indexed by vertex id, line elements and
    triangles.  (Its two adjacency members are the outputs
    [triangle_neighbors] and [nm_triangle_neighbors] above.) *)
Record TMesh := {
  points : list vec3;
  lines : list id2;
  triangles : list id3
}.

(** ** Reading the mesh *)

(** What [gmsh::model::mesh::getNodes] and [gmsh::model::mesh::getElements]
    answer: the tags (of type [size_t]) and the coordinates of the nodes, and
    for each block of elements its type, the tags of its elements and the
    tags of their nodes. *)
Record gmsh_mesh := {
  nodeTags : list N;
  coord : list R;
  elementTypes : list Z;
  elementTags : list (list N);
  elementNodeTags : list (list N)
}.

(** The body of the loop over the nodes: [id v = nodeTags[i]] keeps 32 bits,
    and [v+1] is computed on 32 bits. *)
Definition import_node (G : gmsh_mesh) (pts : list vec3) (i : nat)
  : list vec3 :=
  let v := to_id (nodeTags G !!! i) in
  let pts := if decide (length pts ≤ N.to_nat v)
             then resize (N.to_nat (to_id (v + 1))) (0, 0, 0)%R pts
             else pts in
  <[N.to_nat v := (coord G !!! (3 * i + 0), coord G !!! (3 * i + 1),
                   coord G !!! (3 * i + 2))]> pts.

(** The body of the loop over the blocks of elements. *)
Definition import_block (G : gmsh_mesh) (M : TMesh) (i : nat) : TMesh :=
  let nodes : list N := elementNodeTags G !!! i in
  let nb := length (elementTags G !!! i) in
  if decide (elementTypes G !!! i = 1%Z) then (* lines *)
    {| points := points M;
       lines := lines M ++
         ((λ j, (to_id (nodes !!! (2 * j + 0)), to_id (nodes !!! (2 * j + 1))))
            <$> seq 0 nb);
       triangles := triangles M |}
  else if decide (elementTypes G !!! i = 2%Z) then (* triangles *)
    {| points := points M;
       lines := lines M;
       triangles := triangles M ++
         ((λ j, (to_id (nodes !!! (3 * j + 0)), to_id (nodes !!! (3 * j + 1)),
                 to_id (nodes !!! (3 * j + 2))))
            <$> seq 0 nb) |}
  else M.

(** [import_TMesh_from_gmsh]; it always returns true, and does not use
    [meshName].  The mesh [M] is an input as well: its points are resized and
    its elements are pushed behind the ones it holds. *)
Definition import_TMesh_from_gmsh (G : gmsh_mesh) (M : TMesh) : TMesh :=
  let pts :=
    foldl (import_node G)
      (resize (length (nodeTags G)) (0, 0, 0)%R (points M))
      (seq 0 (length (nodeTags G))) in
  foldl (import_block G)
    {| points := pts; lines := lines M; triangles := triangles M |}
    (seq 0 (length (elementTypes G))).

Section assembler.
Local Open Scope R_scope.

(** [M.points[v]] *)
Definition point (M : TMesh) (v : id) : vec3 := points M !!! N.to_nat v.

Definition triangle_cross (M : TMesh) (t : id) : vec3 :=
  let tri : id3 := triangles M !!! N.to_nat t in
  cross (vsub (point M (at3 tri 2)) (point M (at3 tri 0)))
        (vsub (point M (at3 tri 1)) (point M (at3 tri 0))).

Definition triangle_area (M : TMesh) (t : id) : R :=
  length3 (triangle_cross M t) / 2.

Definition triangle_normal (M : TMesh) (t : id) : vec3 :=
  let N := triangle_cross M t in
  if Rlt_dec (length3 N) EPS then (DBL_MAX, DBL_MAX, DBL_MAX)
  else normalize N.

Record IJV := mkIJV { ij : id2; ijv_val : R }.

Record IV := mkIV { iv_i : id; iv_val : R }.

(** The error messages of [stiffness_coefficient], in the order of the
    source. *)
Inductive stiffness_error :=
  | occurrence_count    (* "assembly, edge {}: uIEdgeToOld[e] = {}" *)
  | edge_too_small      (* "edge too small: v1={}, v2={}, length = {}" *)
  | frame_too_small     (* "length(e_y) = {}" *)
  | neighbor_too_small  (* "edge too small: t={}, k = {}, length = {}" *)
  | should_not_happen.  (* "should not happen" *)

(** The three local arrays [bvars], [alpha] and [CR_weight]. *)
Record weights := {
  bvars : list id;
  alpha : list R;
  CR_weight : list R
}.

(** The body of the loop over [k], the two other edges in triangle [t]. *)
Definition neighbor_edge (M : TMesh) (uIEdges : list id2) (old2IEdge : list id)
    (v1 v2 : id) (e_x e_y : vec3) (t le : id) (s k : nat) (w : weights)
  : result stiffness_error weights :=
  let aoe := to_id (3 * t + (le + 1 + N.of_nat k) mod 3)%N in
  let ae : id := old2IEdge !!! N.to_nat aoe in
  let aedge : id2 := uIEdges !!! N.to_nat ae in
  let edg := vsub (point M aedge.2) (point M aedge.1) in
  let len := length3 edg in
  if Rlt_dec len EPS then Err neighbor_too_small
  else
    let edg := vscale (1 / len) edg in
    (* 360deg angle (used for the angle rotation) *)
    let cx := dot edg e_x in
    let cy := dot edg e_y in
    let a := atan2 cy cx in
    let a := if Rlt_dec a 0 then a + 2 * PI else a in
    (* 180deg edge-edge angle (used for the Crouzeix Raviart) *)
    agl ← (if decide (aedge.1 = v1) then
             Ok (angle_nvectors edg e_x)
           else if decide (aedge.2 = v1) then
             Ok (angle_nvectors edg (vscale (-1) e_x))
           else if decide (aedge.1 = v2) then
             Ok (angle_nvectors (vscale (-1) edg) e_x)
           else if decide (aedge.2 = v2) then
             Ok (angle_nvectors (vscale (-1) edg) (vscale (-1) e_x))
           else Err should_not_happen);
    Ok {| bvars := <[(2 * s + k)%nat := ae]> (bvars w);
          alpha := <[(2 * s + k)%nat := a]> (alpha w);
          CR_weight := <[(2 * s + k)%nat := -2 / tan agl]> (CR_weight w) |}.

(** The body of the loop over [s], the two triangles of the edge; the state
    is [prevN] and the three arrays. *)
Definition triangle_side (M : TMesh) (uIEdges : list id2) (old2IEdge : list id)
    (uIEdgeToOld : list (list id)) (e v1 v2 : id) (e_x : vec3) (s : nat)
    (st : vec3 * weights) : result stiffness_error (vec3 * weights) :=
  let oe : id := (uIEdgeToOld !!! N.to_nat e) !!! s in
  let t := (oe / 3)%N in
  let le := (oe mod 3)%N in
  let N := triangle_normal M t in
  let N := if decide (s = 1%nat) then
             (if Rlt_dec (dot st.1 N) 0 then vscale (-1) N else N)
           else N in
  let e_y := cross N e_x in
  if Rlt_dec (length3 e_y) EPS then Err frame_too_small
  else
    let e_y := normalize e_y in
    w ← neighbor_edge M uIEdges old2IEdge v1 v2 e_x e_y t le s 0 st.2;
    w ← neighbor_edge M uIEdges old2IEdge v1 v2 e_x e_y t le s 1 w;
    Ok (N, w).

(** The first part of [stiffness_coefficient]: the checks and the two loops,
    up to the raw Crouzeix-Raviart weights. *)
Definition stiffness_weights (M : TMesh) (e : id) (uIEdges : list id2)
    (old2IEdge : list id) (uIEdgeToOld : list (list id))
  : result stiffness_error weights :=
  if decide (length (uIEdgeToOld !!! N.to_nat e) ≠ 2%nat) then
    Err occurrence_count
  else
    (* edge vertices *)
    let v1 := (uIEdges !!! N.to_nat e).1 in
    let v2 := (uIEdges !!! N.to_nat e).2 in
    let e_x := vsub (point M v2) (point M v1) in
    let lenr := length3 e_x in
    if Rlt_dec lenr EPS then Err edge_too_small
    else
      let e_x := vscale (1 / lenr) e_x in
      (* four neighbor edges *)
      let w0 := {| bvars := replicate 4 NO_ID;
                   alpha := replicate 4 0;
                   CR_weight := replicate 4 (-1 / 4) |} in
      st ← triangle_side M uIEdges old2IEdge uIEdgeToOld e v1 v2 e_x 0
             ((0, 0, 0), w0);
      st ← triangle_side M uIEdges old2IEdge uIEdgeToOld e v1 v2 e_x 1 st;
      Ok st.2.

(** "compute coefficients": [isum] and the division of the four weights. *)
Definition normalize_weights (CR_weight : list R) : list R :=
  let isum := -1 * (CR_weight !!! 0%nat + CR_weight !!! 1%nat
                    + CR_weight !!! 2%nat + CR_weight !!! 3%nat) in
  (λ w, w / isum) <$> CR_weight.

(** The entries pushed on [iv] and [ijv]. *)
Definition stiffness_entries (e : id) (bvars : list id) (alpha CR_weight : list R)
  : list IV * list IJV :=
  let x_i := to_id (2 * e) in
  let y_i := to_id (2 * e + 1) in
  ([mkIV x_i 1; mkIV y_i 1],
   seq 0 4 ≫= λ j,
     let x_j := to_id (2 * bvars !!! j) in
     let y_j := to_id (2 * bvars !!! j + 1) in
     let w : R := CR_weight !!! j in
     let a : R := alpha !!! j in
     [mkIJV (x_i, x_j) (w * cos (4 * a));
      mkIJV (x_i, y_j) (w * -1 * sin (4 * a));
      mkIJV (y_i, x_j) (w * sin (4 * a));
      mkIJV (y_i, y_j) (w * cos (4 * a))]).

(** [stiffness_coefficient]: two unknowns (x_2i, x_2i+1) for each edge. *)
Definition stiffness_coefficient (M : TMesh) (e : id) (uIEdges : list id2)
    (old2IEdge : list id) (uIEdgeToOld : list (list id))
  : result stiffness_error (list IV * list IJV) :=
  w ← stiffness_weights M e uIEdges old2IEdge uIEdgeToOld;
  Ok (stiffness_entries e (bvars w) (alpha w)
        (normalize_weights (CR_weight w))).

End assembler.

(** ** The system compactor *)

Section compactor.
Local Open Scope R_scope.

(** [IJV::operator<] *)
Definition IJV_ltb (a b : IJV) : bool := id2_ltb (ij a) (ij b).

(** [std::sort(coefs.begin(),coefs.end())], as a sort by insertion.  The
    order in which [std::sort] leaves entries with the same [ij] is not
    specified; such entries are added up. *)
Fixpoint insert_IJV (c : IJV) (l : list IJV) : list IJV :=
  match l with
  | [] => [c]
  | d :: l' => if IJV_ltb c d then c :: l else d :: insert_IJV c l'
  end.

Definition sort_IJV (l : list IJV) : list IJV := foldr insert_IJV [] l.

(** The state of the merge loop of [prepare_system]. *)
Record merge_state := {
  cur_i : nat;
  cur_j : nat;
  acc_val : R;
  columns : list (list nat);
  values : list (list R)
}.

(** [if (std::abs(acc_val) > EPS) { columns[cur_i].push_back(cur_j);
    values[cur_i].push_back(acc_val); }] *)
Definition flush (st : merge_state) : list (list nat) * list (list R) :=
  if Rgt_dec (Rabs (acc_val st)) EPS then
    (push_at (cur_i st) (cur_j st) (columns st),
     push_at (cur_i st) (acc_val st) (values st))
  else (columns st, values st).

Definition merge_step (st : merge_state) (c : IJV) : merge_state :=
  let i := N.to_nat (ij c).1 in
  let j := N.to_nat (ij c).2 in
  let v := ijv_val c in
  if decide (i ≠ cur_i st) then
    {| cur_i := i; cur_j := j; acc_val := v;
       columns := (flush st).1; values := (flush st).2 |}
  else if decide (j ≠ cur_j st) then
    {| cur_i := i; cur_j := j; acc_val := v;
       columns := (flush st).1; values := (flush st).2 |}
  else
    {| cur_i := cur_i st; cur_j := cur_j st; acc_val := acc_val st + v;
       columns := columns st; values := values st |}.

(** [{{id(K_diag[i].i),id(K_diag[i].i)},K_diag[i].val}] *)
Definition diag_entry (d : IV) : IJV := mkIJV (iv_i d, iv_i d) (iv_val d).

(** [prepare_system]; it always returns true, so only its two outputs are
    kept.  It reads [coefs[0]], which is out of range when both inputs are
    empty; [compute_cross_field_with_heat] calls it with at least two
    diagonal entries. *)
Definition prepare_system (K_diag : list IV) (K_coefs : list IJV)
    (columns0 : list (list nat)) (values0 : list (list R))
  : list (list nat) * list (list R) :=
  let coefs :=
    K_coefs ++ (diag_entry <$> K_diag) in
  match sort_IJV coefs with
  | [] => (columns0, values0)
  | c0 :: rest =>
      flush (foldl merge_step
               {| cur_i := N.to_nat (ij c0).1; cur_j := N.to_nat (ij c0).2;
                  acc_val := ijv_val c0;
                  columns := columns0; values := values0 |}
               rest)
  end.

End compactor.

(** ** The diffusion driver and the field extractor *)

(** The error messages of [compute_cross_field_with_heat]. *)
Inductive cf_error :=
  | failed_adjacencies  (* "failed to compute mesh adjacencies" *)
  | no_internal_edges   (* "no internal edges" *)
  | failed_stiffness (e : nat) (err : stiffness_error)
      (* "failed to compute stiffness matrix coefficients for e = {}" *)
  | failed_solve.       (* "failed to solve linear system" *)

(** A loop that returns false from the function at the first error. *)
Fixpoint for_each {E A B} (body : A → B → result E A) (l : list B) (a : A)
  : result E A :=
  match l with
  | [] => Ok a
  | b :: l' =>
      match body a b with
      | Ok a' => for_each body l' a'
      | Err e => Err e
      end
  end.

(** [std::find(uIEdges.begin(),uIEdges.end(),edge)]: the position of the
    first match, [None] for [uIEdges.end()]. *)
Fixpoint find_edge (edge : id2) (l : list id2) : option nat :=
  match l with
  | [] => None
  | y :: l' => if decide (y = edge) then Some 0%nat else S <$> find_edge edge l'
  end.

Section driver.
Local Open Scope R_scope.

(** Modelled from the spec: [solve_sparse_linear_system] of
    qmt_linalg_solver.h is an external collaborator: "given row-compressed
    coefficients and a right-hand-side vector, return a solution vector of
    the same dimension, or signal failure".  [None] is a failure. *)
Variable solve_sparse_linear_system :
  list (list nat) → list (list R) → list R → option (list R).

(** [FC(e,uIEdges.size(),uIEdgeToOld[e].size() != 2) dirichletEdge[e] = true] *)
Definition mark_occurrences (uIEdgeToOld : list (list id)) (n : nat)
  : list bool :=
  foldl (λ d e, if decide (length (uIEdgeToOld !!! e) ≠ 2%nat)
                then <[e := true]> d else d)
        (replicate n false) (seq 0 n).

(** "mark the lines as boundary conditions" *)
Definition mark_lines (M : TMesh) (uIEdges : list id2) (d : list bool)
  : list bool :=
  foldl (λ d (line : id2),
           let edge := sorted line.1 line.2 in
           match find_edge edge uIEdges with
           | Some k => <[N.to_nat (to_id (N.of_nat k)) := true]> d
           | None => d
           end)
        d (lines M).

(** The vectors filled by the assembly loop. *)
Record assembly := {
  K_diag : list IV;
  K_coefs : list IJV;
  rhs : list R;
  Mass : list R
}.

(** The body of the assembly loop over the unique edges. *)
Definition assemble_edge (M : TMesh) (adj : adjacencies)
    (dirichletEdge : list bool) (a : assembly) (e : nat)
  : result cf_error assembly :=
  if negb (dirichletEdge !!! e) then
    match stiffness_coefficient M (to_id (N.of_nat e)) (uIEdges adj)
            (old2IEdge adj) (uIEdgeToOld adj) with
    | Err err => Err (failed_stiffness e err)
    | Ok (iv, ijv) =>
        let area1 :=
          triangle_area M (((uIEdgeToOld adj !!! e) !!! 0%nat) / 3)%N in
        let area2 :=
          triangle_area M (((uIEdgeToOld adj !!! e) !!! 1%nat) / 3)%N in
        Ok {| K_diag := K_diag a ++ iv;
              K_coefs := K_coefs a ++ ijv;
              rhs := rhs a;
              Mass := <[(2 * e + 1)%nat := 1 / 3 * (area1 + area2)]>
                        (<[(2 * e + 0)%nat := 1 / 3 * (area1 + area2)]>
                           (Mass a)) |}
    end
  else (* Dirichlet BC: theta_e = 0 => (cos4t/sin4t) = (1,0) *)
    Ok {| K_diag := K_diag a ++ [mkIV (to_id (N.of_nat (2 * e + 0))) 1;
                                 mkIV (to_id (N.of_nat (2 * e + 1))) 1];
          K_coefs := K_coefs a;
          rhs := <[(2 * e + 1)%nat := 0]> (<[(2 * e + 0)%nat := 1]> (rhs a));
          Mass := Mass a |}.

Definition assemble (M : TMesh) (adj : adjacencies) (dirichletEdge : list bool)
  : result cf_error assembly :=
  let n := length (uIEdges adj) in
  for_each (assemble_edge M adj dirichletEdge) (seq 0 n)
    {| K_diag := []; K_coefs := [];
       rhs := replicate (2 * n) 0; Mass := replicate (2 * n) 1 |}.

(** [eavg], [emin] and [emax] over the unique edges. *)
Definition edge_sizes (M : TMesh) (uIEdges : list id2) : R * R * R :=
  let r :=
    foldl (λ (acc : R * R * R) (e : nat),
             let edge : id2 := uIEdges !!! e in
             let len := length3 (vsub (point M edge.2) (point M edge.1)) in
             (acc.1.1 + len, Rmin len acc.1.2, Rmax len acc.2))
          (0, DBL_MAX, - DBL_MAX) (seq 0 (length uIEdges)) in
  (r.1.1 / INR (length uIEdges), r.1.2, r.2).

(** [dt] at iteration [iter]: [iter] is a [size_t] and [nbIter] an [int], so
    [iter/(nbIter-1)] is a division of unsigned 64 bit integers. *)
Definition timestep (dtInitial dtFinal : R) (nbIter : Z) (iter : nat) : R :=
  dtInitial + (dtFinal - dtInitial)
              * IZR (Z.of_nat iter / ((nbIter - 1) mod 2 ^ 64)).

(** Row [i] of [Aval]. *)
Definition operator_row (dirichletEdge : list bool) (Mass : list R) (dt : R)
    (i : nat) (cols : list nat) (vals : list R) : list R :=
  if negb (dirichletEdge !!! (i / 2)%nat) then
    imap (λ j v,
            if decide (j < length cols)%nat then
              if decide (cols !!! j = i) then 1 + dt / Mass !!! i * v
              else dt / Mass !!! i * v
            else v)
         vals
  else [1].

Definition operator_matrix (dirichletEdge : list bool) (Mass : list R)
    (K_columns : list (list nat)) (K_values : list (list R)) (dt : R)
  : list (list R) :=
  imap (λ i vals,
          operator_row dirichletEdge Mass dt i (K_columns !!! i) vals)
       K_values.

(** The norm of the pair of edge [e], and "normalize crosses". *)
Definition pair_norm (x : list R) (e : nat) : R :=
  sqrt (x !!! (2 * e)%nat * x !!! (2 * e)%nat
        + x !!! (2 * e + 1)%nat * x !!! (2 * e + 1)%nat).

Definition renormalize (dirichletEdge : list bool) (n : nat) (x : list R)
  : list R :=
  foldl (λ x e,
           let norm := pair_norm x e in
           if negb (dirichletEdge !!! e) then
             if Rgt_dec norm EPS then
               <[(2 * e + 1)%nat := x !!! (2 * e + 1)%nat / norm]>
                 (<[(2 * e + 0)%nat := x !!! (2 * e + 0)%nat / norm]> x)
             else x
           else x)
        x (seq 0 n).

(** The heat diffusion and projection loop.  The first component lists the
    iterations that were started, each with its [iter] and [dt] (the message
    "iter {}/{} | dt = {}, solving linear system ..."). *)
Fixpoint heat_loop (dirichletEdge : list bool) (Mass : list R)
    (K_columns : list (list nat)) (K_values : list (list R))
    (n : nat) (dtInitial dtFinal : R) (nbIter : Z)
    (iters : list nat) (x : list R)
  : list (nat * R) * result cf_error (list R) :=
  match iters with
  | [] => ([], Ok x)
  | iter :: iters' =>
      let dt := timestep dtInitial dtFinal nbIter iter in
      let Aval := operator_matrix dirichletEdge Mass K_columns K_values dt in
      let B := x in
      match solve_sparse_linear_system K_columns Aval B with
      | None => ([(iter, dt)], Err failed_solve)
      | Some x' =>
          let r := heat_loop dirichletEdge Mass K_columns K_values n
                     dtInitial dtFinal nbIter iters'
                     (renormalize dirichletEdge n x') in
          ((iter, dt) :: r.1, r.2)
      end
  end.

(** The angle of edge [e] in "fill the map edge_to_angle". *)
Definition edge_angle (x : list R) (e : nat) : R :=
  let len := pair_norm x e in
  if Rgt_dec len EPS then
    1 / 4 * atan2 (x !!! (2 * e + 1)%nat / len) (x !!! (2 * e)%nat / len)
  else 0.

Definition fill_edge_to_angle (uIEdges : list id2) (x : list R)
    (edge_to_angle : gmap (N * N) R) : gmap (N * N) R :=
  foldl (λ m e,
           let edge : id2 := uIEdges !!! e in
           <[(edge.1, edge.2) := edge_angle x e]> m)
        edge_to_angle (seq 0 (length uIEdges)).

(** What [compute_cross_field_with_heat] has built when it enters the heat
    diffusion and projection loop. *)
Record heat_system := {
  adj : adjacencies;
  dirichletEdge : list bool;
  system : assembly;
  K_columns : list (list nat);
  K_values : list (list R);
  dtInitial : R;
  dtFinal : R
}.

(** [compute_cross_field_with_heat] up to the loop.  The mesh [M] is the one
    read by [import_TMesh_from_gmsh], which always returns true. *)
Definition setup (M : TMesh) : result cf_error heat_system :=
  match compute_triangle_adjacencies (triangles M) [] with
  | None => Err failed_adjacencies
  | Some adj =>
      let n := length (uIEdges adj) in
      if decide (n = 0%nat) then Err no_internal_edges
      else
        let dirichletEdge :=
          mark_lines M (uIEdges adj) (mark_occurrences (uIEdgeToOld adj) n) in
        a ← assemble M adj dirichletEdge;
        let sizes := edge_sizes M (uIEdges adj) in
        let emin := sizes.1.2 in
        let emax := sizes.2 in
        (* prepare system *)
        let K := prepare_system (K_diag a) (K_coefs a)
                   (replicate (2 * n) []) (replicate (2 * n) []) in
        Ok {| adj := adj; dirichletEdge := dirichletEdge; system := a;
              K_columns := K.1; K_values := K.2;
              dtInitial := emax * emax; dtFinal := emin * emin |}
  end.

(** The loop on the system [sys], over the iterations [iters]. *)
Definition diffusion (sys : heat_system) (nbIter : Z) (iters : list nat)
    (x : list R) : list (nat * R) * result cf_error (list R) :=
  heat_loop (dirichletEdge sys) (Mass (system sys)) (K_columns sys)
    (K_values sys) (length (uIEdges (adj sys))) (dtInitial sys) (dtFinal sys)
    nbIter iters x.

(** [compute_cross_field_with_heat].  [edge_to_angle] is [None] for a null
    pointer.  The views built by [create_view_with_crosses] go to the
    visualization sink and are left out.  The result is the list of the
    iterations started and either an error or the final vector [x] with the
    map. *)
Definition compute_cross_field_with_heat (M : TMesh) (nbIter : Z)
    (edge_to_angle : option (gmap (N * N) R))
  : list (nat * R) * result cf_error (list R * option (gmap (N * N) R)) :=
  match setup M with
  | Err err => ([], Err err)
  | Ok sys =>
      let x := rhs (system sys) in
      let nbIter := 10%Z in
      let r := diffusion sys nbIter (seq 0 (Z.to_nat (nbIter mod 2 ^ 64))) x in
      match r.2 with
      | Err err => (r.1, Err err)
      | Ok x =>
          (r.1,
           Ok (x, fill_edge_to_angle (uIEdges (adj sys)) x <$> edge_to_angle))
      end
  end.

End driver.

(** ** The view with the crosses *)

Section view.
Local Open Scope R_scope.

(** [F(d,3) data.push_back(p[d])] *)
Definition coords (p : vec3) : list R := [p.1.1; p.1.2; p.2].

(** The state of the loop over the unique edges of
    [create_view_with_crosses]. *)
Record view_state := {
  data_VP : list R;
  vsum : list R;
  vertAvg : list vec3
}.

(** The body of the loop over the unique edges. *)
Definition cross_of_edge (M : TMesh) (uIEdges : list id2)
    (uIEdgeToOld : list (list id)) (x : list R) (st : view_state) (e : nat)
  : view_state :=
  let occ : list id := uIEdgeToOld !!! e in
  let edge : id2 := uIEdges !!! e in
  let rep_ex : vec3 := (1, 0, 0) in
  let rep_ey : vec3 := (0, 1, 0) in
  (* Average normal *)
  let N := triangle_normal M (occ !!! 0%nat / 3)%N in
  let N := if decide (length occ = 2%nat)
           then vscale 0.5 (vadd N (triangle_normal M (occ !!! 1%nat / 3)%N))
           else N in
  let edg := normalize (vsub (point M edge.2) (point M edge.1)) in
  let edgo := normalize (cross N edg) in
  let p := vscale 0.5 (vadd (point M edge.1) (point M edge.2)) in
  let len := pair_norm x e in
  if Rgt_dec len EPS then
    let theta :=
      1 / 4 * atan2 (x !!! (2 * e + 1)%nat / len) (x !!! (2 * e)%nat / len) in
    let cross1 := vadd (vscale (cos theta) edg) (vscale (sin theta) edgo) in
    let cross1 := vscale len cross1 in
    let cross2 := cross N cross1 in
    (* representation vector averaging (code only in planar case) *)
    let cr1 := vadd (vscale (cos theta) edg) (vscale (sin theta) edgo) in
    let rep_theta := atan2 (dot cr1 rep_ey) (dot cr1 rep_ex) in
    let vrep := vadd (vscale (cos (4 * rep_theta)) rep_ex)
                     (vscale (sin (4 * rep_theta)) rep_ey) in
    let bump := λ (s : list R * list vec3) (v : id),
      (alter (λ c, c + 1) (N.to_nat v) s.1,
       alter (λ a, vadd a vrep) (N.to_nat v) s.2) in
    let s := bump (bump (vsum st, vertAvg st) edge.1) edge.2 in
    {| data_VP := data_VP st ++ coords p ++ coords cross1
                    ++ coords p ++ coords cross2;
       vsum := s.1;
       vertAvg := s.2 |}
  else st.

(** The loop over the vertices with [vsum[v] > 0]. *)
Definition rep_of_vertex (M : TMesh) (st : view_state) (data : list R)
    (v : nat) : list R :=
  if Rgt_dec (vsum st !!! v) 0 then
    data ++ coords (points M !!! v)
         ++ coords (vscale (1 / vsum st !!! v) (vertAvg st !!! v))
  else data.

(** [create_view_with_crosses]; it always returns true.  The result is what
    the two calls of [gmsh::view::addListData] get: the number of elements
    and the data of the view [name], and those of the view
    [name+"_rep_planar"]. *)
Definition create_view_with_crosses (M : TMesh) (uIEdges : list id2)
    (uIEdgeToOld : list (list id)) (x : list R)
  : (nat * list R) * (nat * list R) :=
  let st :=
    foldl (cross_of_edge M uIEdges uIEdgeToOld x)
      {| data_VP := [];
         vsum := replicate (length (points M)) 0;
         vertAvg := replicate (length (points M)) (0, 0, 0) |}
      (seq 0 (length uIEdges)) in
  let data_VP_rep :=
    foldl (rep_of_vertex M st) [] (seq 0 (length (points M))) in
  ((length (data_VP st) / 6, data_VP st)%nat,
   (length data_VP_rep / 6, data_VP_rep)%nat).

End view.


End QMT.

(** * Predicates used in the statements *)

Import QMT_CF_Utils QMT_Utils QMT.

(** The adjacency slot of a face position [p = NBF*e+lf]. *)
Definition slot (tn : list sid3) (p : id) : option sid :=
  get_neighbor tn (p / 3) (p mod 3).

(** The occurrence lists hold distinct face positions below [bound], each
    listed under the unique face it maps to. *)
Definition occ_inv (old2IEdge : list id) (bound : N) (U : list (list id)) : Prop :=
  ∀ u occ, U !! u = Some occ →
    NoDup occ ∧
    ∀ p, p ∈ occ → (p < bound)%N ∧ N.to_nat (old2IEdge !!! N.to_nat p) = u.

(** The three occurrences [a], [b], [c] of a face are resolved at position
    [pos] of the non manifold neighbor list. *)
Definition nm_resolved (st : list sid3 * list (list id)) (a b c : id)
    (pos : nat) : Prop :=
  st.2 !! pos = Some [b; c] ∧
  st.2 !! (pos + 1) = Some [a; c] ∧
  st.2 !! (pos + 2) = Some [a; b] ∧
  slot st.1 a = Some (- (Z.of_nat pos + 1))%Z ∧
  slot st.1 b = Some (- (Z.of_nat pos + 2))%Z ∧
  slot st.1 c = Some (- (Z.of_nat pos + 3))%Z.

(** The rows of [l] that belong to row [r] of the matrix. *)
Definition row_entries (r : nat) (l : list IJV) : list IJV :=
  filter (λ c, N.to_nat (ij c).1 = r) l.

(** The state of the assembly loop after the edges below [k]: the rows of a
    Dirichlet edge hold nothing but their unit diagonal, and its right-hand
    side is (1, 0). *)
Definition assembled (n : nat) (d : list bool) (k : nat) (a : assembly) : Prop :=
  length (rhs a) = 2 * n ∧
  ∀ e, d !! e = Some true →
    (∀ r, r = 2 * e ∨ r = 2 * e + 1 →
       row_entries r (K_coefs a) = [] ∧
       row_entries r (diag_entry <$> K_diag a) =
         if decide (e < k) then [mkIJV (N.of_nat r, N.of_nat r) 1%R] else []) ∧
    (e < k → rhs a !! (2 * e) = Some 1%R ∧ rhs a !! (2 * e + 1) = Some 0%R).

(** The pairs of the Dirichlet edges are (1, 0). *)
Definition pinned (d : list bool) (x : list R) : Prop :=
  ∀ e, d !! e = Some true →
       x !! (2 * e) = Some 1%R ∧ x !! (2 * e + 1) = Some 0%R.

(** The product of row [(cols, vals)] of a row-compressed matrix with [x]. *)
Definition row_product (cols : list nat) (vals : list R) (x : list R) : R :=
  foldr Rplus 0%R (zip_with (λ c v, (v * x !!! c)%R) cols vals).

(** [x] is a solution of the system [(Acol, Aval)] with right-hand side [B]. *)
Definition solves (Acol : list (list nat)) (Aval : list (list R))
    (B x : list R) : Prop :=
  length x = length B ∧
  ∀ i b, B !! i = Some b → row_product (Acol !!! i) (Aval !!! i) x = b.

(** The solver returns the exact solution of the system it is given. *)
Definition exact_solver
    (solver : list (list nat) → list (list R) → list R → option (list R))
  : Prop :=
  ∀ Acol Aval B x, solver Acol Aval B = Some x → solves Acol Aval B x.

(** A value of an adjacency slot: the sentinel, a face position, or the
    negative encoding [-(pos+1)] of a position of the non manifold neighbor
    list of length [nmlen]. *)
Definition slot_ok (nbTriangles nmlen : nat) (v : sid) : Prop :=
  v = sid_of_id NO_ID ∨
  (0 ≤ v < Z.of_nat (3 * nbTriangles))%Z ∨
  ((v < 0)%Z ∧ Z.to_nat (- v - 1) < nmlen).

(** The three node tags of each triangle, one triangle after the other. *)
Definition flat_triangles (tris : list id3) : list N :=
  tris ≫= λ t, [t.1.1; t.1.2; t.2].

(** The row and the column of a coefficient, as indices. *)
Definition key (c : IJV) : nat * nat :=
  (N.to_nat (ij c).1, N.to_nat (ij c).2).

(** The sum of the values that the coefficients of [l] give for row [r] and
    column [c]. *)
Definition entry_sum (r c : nat) (l : list IJV) : R :=
  foldr Rplus 0%R (ijv_val <$> filter (λ x, key x = (r, c)) l).

(** The unique edges below [n] whose pair in [x] has a norm above [EPS], the
    ones that [create_view_with_crosses] draws. *)
Definition drawn_edges (x : list R) (n : nat) : list nat :=
  omap (λ e, if Rgt_dec (pair_norm x e) EPS then Some e else None) (seq 0 n).

(** ** The invariant of the merge loop of the compactor *)

(** The order of [IJV::operator<] on the keys. *)
Definition klt (a b : nat * nat) : Prop :=
  a.1 < b.1 ∨ (a.1 = b.1 ∧ a.2 < b.2).

Definition kle (a b : nat * nat) : Prop := a = b ∨ klt a b.

(** The value [v] is what the compactor stores for row [r] and column [c],
    for the coefficients [P], once the keys in [fl] are flushed. *)
Definition described (P : list IJV) (fl : nat * nat → Prop) (r c : nat) (v : R)
  : Prop :=
  fl (r, c) ∧ (∃ x, x ∈ P ∧ key x = (r, c)) ∧ v = entry_sum r c P ∧
  (Rabs v > EPS)%R.

Definition rows_ok (m : nat) (P : list IJV) (fl : nat * nat → Prop)
    (cols : list (list nat)) (vals : list (list R)) : Prop :=
  length cols = m ∧ length vals = m ∧
  ∀ r, r < m →
    length (cols !!! r) = length (vals !!! r) ∧
    StronglySorted lt (cols !!! r) ∧
    ∀ c v, (c, v) ∈ zip (cols !!! r) (vals !!! r) ↔ described P fl r c v.

(** The state of the merge loop after the coefficients [P]. *)
Definition merge_inv (m : nat) (P : list IJV) (st : merge_state) : Prop :=
  (∃ x, x ∈ P ∧ key x = (cur_i st, cur_j st)) ∧
  (∀ x, x ∈ P → kle (key x) (cur_i st, cur_j st)) ∧
  acc_val st = entry_sum (cur_i st) (cur_j st) P ∧
  rows_ok m P (λ k, klt k (cur_i st, cur_j st)) (columns st) (values st).

(** ** Example inputs *)

(** A solver for the systems with a unit diagonal matrix; it fails on all
    others. *)
Definition unit_diagonal (Acol : list (list nat)) (Aval : list (list R))
    (n : nat) : Prop :=
  ∀ i, i < n → Acol !! i = Some [i] ∧ Aval !! i = Some [1%R].

Definition solve_unit_diagonal (Acol : list (list nat))
    (Aval : list (list R)) (B : list R) : option (list R) :=
  if excluded_middle_informative (unit_diagonal Acol Aval (length B))
  then Some B else None.

(** One triangle with sides 3, 4 and 5, and no line element. *)
Definition one_triangle : TMesh :=
  {| points := [(0, 0, 0); (3, 0, 0); (0, 4, 0)]%R;
     lines := [];
     triangles := [(0, 1, 2)%N] |}.

(** What [compute_triangle_adjacencies] returns for [one_triangle]. *)
Definition one_triangle_adj : adjacencies :=
  {| triangle_neighbors := [(4294967295, 4294967295, 4294967295)%Z];
     nm_triangle_neighbors := [];
     uIEdges := [(0, 1); (0, 2); (1, 2)]%N;
     old2IEdge := [0; 2; 1]%N;
     uIEdgeToOld := [[0]; [2]; [1]]%N |}.

(** Two triangles on both sides of the edge (0,1): right isosceles triangles
    with the edge (0,1), of length 2, as their hypotenuse. *)
Definition kite : TMesh :=
  {| points := [(0, 0, 0); (2, 0, 0); (1, 1, 0); (1, -1, 0)]%R;
     lines := [];
     triangles := [(0, 1, 2); (0, 1, 3)]%N |}.

(** What [compute_triangle_adjacencies] returns for [kite]. *)
Definition kite_adj : adjacencies :=
  {| triangle_neighbors :=
       [(3, 4294967295, 4294967295); (0, 4294967295, 4294967295)]%Z;
     nm_triangle_neighbors := [];
     uIEdges := [(0, 1); (0, 2); (0, 3); (1, 2); (1, 3)]%N;
     old2IEdge := [0; 3; 1; 0; 4; 2]%N;
     uIEdgeToOld := [[0; 3]; [2]; [5]; [1]; [4]]%N |}.

(** The mesh without any element. *)
Definition empty_mesh : TMesh :=
  {| points := []; lines := []; triangles := [] |}.

(** Three triangles around the edge (0,1), and what
    [compute_triangle_adjacencies] returns for them. *)
Definition fan : list id3 := [(0, 1, 2); (0, 1, 3); (0, 1, 4)]%N.

Definition fan_adj : adjacencies :=
  {| triangle_neighbors :=
       [(-1, 4294967295, 4294967295); (-2, 4294967295, 4294967295);
        (-3, 4294967295, 4294967295)]%Z;
     nm_triangle_neighbors := [[3; 6]; [0; 6]; [0; 3]]%N;
     uIEdges := [(0, 1); (0, 2); (0, 3); (0, 4); (1, 2); (1, 3); (1, 4)]%N;
     old2IEdge := [0; 4; 1; 0; 5; 2; 0; 6; 3]%N;
     uIEdgeToOld := [[0; 3; 6]; [2]; [5]; [8]; [1]; [4]; [7]]%N |}.

(** The mesh [kite] with a line element on its inner edge, given from
    vertex 1 to vertex 0. *)
Definition lined_kite : TMesh :=
  {| points := points kite; lines := [(1, 0)%N]; triangles := triangles kite |}.

(** An answer of the gmsh API: three nodes, a block with one point element
    and a block with two triangles. *)
Definition small_answer : gmsh_mesh :=
  {| nodeTags := [1; 2; 5]%N;
     coord := [0; 0; 0; 1; 0; 0; 0; 1; 0]%R;
     elementTypes := [15; 2]%Z;
     elementTags := [[7]; [8; 9]]%N;
     elementNodeTags := [[1]; [1; 2; 5; 2; 5; 1]]%N |}.

(** A diagonal entry and two coefficients at the same row and column. *)
Definition dup_diag : list IV := [mkIV 0 1%R].

Definition dup_coefs : list IJV := [mkIJV (0, 1)%N 2%R; mkIJV (0, 1)%N 3%R].

(** A solver that returns the right-hand side; its answers have the right
    dimension. *)
Definition solve_by_rhs (Acol : list (list nat)) (Aval : list (list R))
    (B : list R) : option (list R) := Some B.

(** * Properties *)

(** ** The sentinel check of the adjacency builder *)

Lemma adjacency_step_sentinel uIEdges uIEdgeToOld st i (e : id2) :
  uIEdges !! i = Some e → e ≠ NO_FACE → e.1 = NO_ID ∨ e.2 = NO_ID →
  adjacency_step uIEdges uIEdgeToOld st i = None.
Proof.
  intros Hi Hne Hs. unfold adjacency_step.
  rewrite (list_lookup_total_correct _ _ _ Hi).
  destruct (decide (e = NO_FACE)) as [|_]; [done|].
  destruct (decide (e.1 = NO_ID)) as [|Hn1]; [done|].
  destruct (decide (e.2 = NO_ID)) as [|Hn2]; [done|].
  by destruct Hs.
Qed.

Lemma adjacency_loop_sentinel uIEdges uIEdgeToOld idx i (e : id2) :
  i ∈ idx → uIEdges !! i = Some e → e ≠ NO_FACE →
  e.1 = NO_ID ∨ e.2 = NO_ID →
  ∀ st, adjacency_loop uIEdges uIEdgeToOld idx st = None.
Proof.
  intros Hin Hi Hne Hs. induction idx as [|k idx IH]; intros st.
  - by apply elem_of_nil in Hin.
  - simpl. apply elem_of_cons in Hin as [<-|Hin].
    + by rewrite (adjacency_step_sentinel _ _ _ _ _ Hi Hne Hs).
    + destruct (adjacency_step uIEdges uIEdgeToOld st k); [by apply IH|done].
Qed.

(** C4, as amended: a unique edge with the sentinel in exactly one of its
    two components makes [compute_triangle_adjacencies] return false. *)
Theorem adjacencies_fail_on_sentinel (triangles : list id3)
    (uIEdgeToOld0 : list (list id)) (i : nat) (e : id2) :
  sort_unique (all_faces triangles) !! i = Some e →
  e ≠ NO_FACE →
  e.1 = NO_ID ∨ e.2 = NO_ID →
  compute_triangle_adjacencies triangles uIEdgeToOld0 = None.
Proof.
  intros Hi Hne Hs. unfold compute_triangle_adjacencies, sort_unique_with_perm.
  rewrite (adjacency_loop_sentinel _ _ _ i e); [done| |done..].
  apply elem_of_seq. apply lookup_lt_Some in Hi. lia.
Qed.

Lemma adjacencies_fail_on_sentinel_witness :
  compute_triangle_adjacencies [(NO_ID, NO_ID, 5%N)] [] = None.
Proof.
  apply (adjacencies_fail_on_sentinel _ _ 0 (5%N, NO_ID)).
  - reflexivity.
  - discriminate.
  - right. reflexivity.
Defined.

(** C4, as stated, fails: the pair with the sentinel in both components is
    skipped, and the triangle whose three vertices are the sentinel is
    accepted. *)
Lemma sentinel_pair_accepted :
  ¬ (∀ (triangles : list id3) (uIEdgeToOld0 : list (list id)) i (e : id2),
       sort_unique (all_faces triangles) !! i = Some e →
       e.1 = NO_ID ∨ e.2 = NO_ID →
       compute_triangle_adjacencies triangles uIEdgeToOld0 = None).
Proof.
  intros H.
  specialize (H [(NO_ID, NO_ID, NO_ID)] [] 0 (NO_ID, NO_ID) eq_refl
                (or_introl eq_refl)).
  vm_compute in H. discriminate H.
Qed.

(** ** Vectors of triples addressed by a face position *)

Lemma to_id_small n : (n < id_modulus)%N → to_id n = n.
Proof. intros. unfold to_id. by apply N.mod_small. Qed.

Lemma length_set_neighbor e lf v tn :
  length (set_neighbor e lf v tn) = length tn.
Proof. apply length_alter. Qed.

Lemma get_set_neighbor_eq tn e lf v :
  N.to_nat e < length tn →
  get_neighbor (set_neighbor e lf v tn) e lf = Some v.
Proof.
  intros H. unfold get_neighbor, set_neighbor. rewrite list_lookup_alter_eq.
  destruct (lookup_lt_is_Some_2 tn _ H) as [[[x y] z] Ht]. rewrite Ht. simpl.
  f_equal. unfold at3, set3. by destruct (N.to_nat lf) as [|[|?]].
Qed.

Lemma get_set_neighbor_ne tn e lf e' lf' v :
  (lf < 3)%N → (lf' < 3)%N → (e, lf) ≠ (e', lf') →
  get_neighbor (set_neighbor e lf v tn) e' lf' = get_neighbor tn e' lf'.
Proof.
  intros Hl Hl' Hne. unfold get_neighbor, set_neighbor.
  destruct (decide (e = e')) as [->|He].
  - rewrite list_lookup_alter_eq.
    destruct (tn !! N.to_nat e') as [[[x y] z]|]; simpl; [|done].
    f_equal. assert (lf ≠ lf') as Hlf by congruence.
    assert (lf = 0 ∨ lf = 1 ∨ lf = 2)%N as [-> | [-> | ->]] by lia;
      assert (lf' = 0 ∨ lf' = 1 ∨ lf' = 2)%N as [-> | [-> | ->]] by lia;
      done.
  - rewrite list_lookup_alter_ne; [done|lia].
Qed.

Lemma slot_set_eq tn p v :
  (p < 3 * N.of_nat (length tn))%N →
  slot (set_neighbor (p / 3) (p mod 3) v tn) p = Some v.
Proof.
  intros H. apply get_set_neighbor_eq.
  assert (p / 3 < N.of_nat (length tn))%N; [|lia].
  apply N.Div0.div_lt_upper_bound; lia.
Qed.

Lemma slot_set_ne tn p q v :
  p ≠ q → slot (set_neighbor (p / 3) (p mod 3) v tn) q = slot tn q.
Proof.
  intros H. apply get_set_neighbor_ne.
  - apply N.mod_lt; lia.
  - apply N.mod_lt; lia.
  - intros [= H1 H2]. apply H.
    rewrite (N.div_mod p 3), (N.div_mod q 3); [|lia..]. by rewrite H1, H2.
Qed.

(** ** The 'unique face to elements' mapping *)

Lemma length_push_at {A} i (x : A) v : length (push_at i x v) = length v.
Proof. apply length_alter. Qed.

Lemma length_concat_push_at {A} i (x : A) v :
  length (concat (push_at i x v)) ≤ S (length (concat v)).
Proof.
  unfold push_at. revert i.
  induction v as [|l v IH]; intros [|i]; simpl; try lia.
  - rewrite !length_app. simpl. lia.
  - rewrite !length_app. specialize (IH i). unfold alter in IH. lia.
Qed.

Lemma push_at_occ_inv old k U :
  (N.of_nat k < id_modulus)%N →
  occ_inv old (N.of_nat k) U →
  occ_inv old (N.of_nat (S k))
    (push_at (N.to_nat (old !!! N.to_nat (N.of_nat k))) (N.of_nat k) U).
Proof.
  intros Hk Hinv u occ Hu. unfold push_at in Hu.
  destruct (decide (N.to_nat (old !!! N.to_nat (N.of_nat k)) = u)) as [Heq|Hne].
  - rewrite Heq, list_lookup_alter_eq in Hu.
    destruct (U !! u) as [occ0|] eqn:Hocc0; [|done].
    simpl in Hu. injection Hu as <-.
    destruct (Hinv u occ0 Hocc0) as [Hnd Hel]. split.
    + apply NoDup_app. split_and!; [done| |apply NoDup_singleton].
      intros p Hp Hp'. apply list_elem_of_singleton in Hp'.
      apply Hel in Hp as [Hp _]. lia.
    + intros p Hp. apply elem_of_app in Hp as [Hp|Hp].
      * apply Hel in Hp as [Hp Hp']. split; [lia|done].
      * apply list_elem_of_singleton in Hp as ->. split; [lia|done].
  - rewrite list_lookup_alter_ne in Hu by done.
    destruct (Hinv u occ Hu) as [Hnd Hel]. split; [done|].
    intros p Hp. apply Hel in Hp as [Hp Hp']. split; [lia|done].
Qed.

Lemma build_prefix_spec old U0 m :
  (N.of_nat m ≤ id_modulus)%N →
  occ_inv old 0 U0 →
  let U := foldl (λ acc facePos,
                    push_at (N.to_nat (old !!! N.to_nat facePos)) facePos acc)
                 U0 ((λ k, to_id (N.of_nat k)) <$> seq 0 m) in
  occ_inv old (N.of_nat m) U ∧ length U = length U0 ∧
  length (concat U) ≤ length (concat U0) + m.
Proof.
  intros Hm H0. induction m as [|m IH].
  - simpl. split_and!; [done..|lia].
  - destruct IH as (IH1 & IH2 & IH3); [lia|].
    cbv zeta. rewrite seq_S, fmap_app, foldl_app. simpl.
    rewrite to_id_small by lia.
    split_and!.
    + apply push_at_occ_inv; [lia|done].
    + by rewrite length_push_at.
    + etrans; [apply length_concat_push_at|]. lia.
Qed.

Lemma occ_inv_replicate old n : occ_inv old 0 (replicate n []).
Proof.
  intros u occ Hu. apply lookup_replicate in Hu as [-> _].
  split; [apply NoDup_nil_2|]. intros p Hp. by apply elem_of_nil in Hp.
Qed.

Lemma build_uIEdgeToOld_spec old nbTriangles n :
  (N.of_nat (3 * nbTriangles) ≤ id_modulus)%N →
  let U := build_uIEdgeToOld old nbTriangles (resize_vv n []) in
  occ_inv old (N.of_nat (3 * nbTriangles)) U ∧ length U = n ∧
  length (concat U) ≤ 3 * nbTriangles.
Proof.
  intros Hb. unfold build_uIEdgeToOld, face_positions, resize_vv, NBF.
  rewrite take_nil, app_nil_l.
  change (n - length (@nil (list N))) with (n - 0). rewrite Nat.sub_0_r.
  pose proof (build_prefix_spec old (replicate n []) (3 * nbTriangles) Hb
                (occ_inv_replicate old n)) as H.
  cbv zeta in H. destruct H as (H1 & H2 & H3).
  split_and!; [done| |].
  - by rewrite H2, length_replicate.
  - etrans; [exact H3|].
    assert (concat (replicate n (@nil id)) = []) as ->; [|simpl; lia].
    clear. induction n as [|n IHn]; [done|]. simpl. apply IHn.
Qed.

(** ** The loop over the unique faces *)

Lemma lookup_total_nonempty {A} (v : list (list A)) k :
  0 < length (v !!! k) → v !! k = Some (v !!! k).
Proof.
  intros H. destruct (v !! k) as [l|] eqn:Hk.
  - by rewrite (list_lookup_total_correct _ _ _ Hk).
  - rewrite list_lookup_total_alt, Hk in H. simpl in H. lia.
Qed.

Lemma length_concat_drop {A} (v : list (list A)) k :
  length (concat (drop k v)) =
  length (v !!! k) + length (concat (drop (S k) v)).
Proof.
  destruct (v !! k) as [l|] eqn:Hk.
  - rewrite (drop_S _ _ _ Hk), (list_lookup_total_correct _ _ _ Hk). simpl.
    by rewrite length_app.
  - rewrite list_lookup_total_alt, Hk. apply lookup_ge_None in Hk.
    rewrite !drop_ge by lia. done.
Qed.

Lemma nm_fold_spec occ os st :
  let st' := foldl (nm_step occ) st os in
  length st'.1 = length st.1 ∧
  st'.2 = st.2 ++ ((λ oj, filter (λ ok, ok ≠ oj) occ) <$> os) ∧
  ∀ q, q ∉ os → slot st'.1 q = slot st.1 q.
Proof.
  revert st. induction os as [|o os IH]; intros st; simpl.
  - by rewrite app_nil_r.
  - destruct (IH (nm_step occ st o)) as (IH1 & IH2 & IH3). split_and!.
    + rewrite IH1. simpl. apply length_set_neighbor.
    + rewrite IH2. simpl. by rewrite <-app_assoc.
    + intros q Hq. apply not_elem_of_cons in Hq as [Hq1 Hq2].
      rewrite IH3 by done. simpl. by apply slot_set_ne.
Qed.

Section nonmanifold.
Variables (E : list id2) (U : list (list id)) (T i : nat) (a b c : id).
Hypothesis HU : U !! i = Some [a; b; c].
Hypothesis HE : E !!! i ≠ NO_FACE.
Hypothesis Hnd : NoDup [a; b; c].
Hypothesis Hlt : ∀ p, p ∈ [a; b; c] → (p < 3 * N.of_nat T)%N.
Hypothesis Hdisj :
  ∀ k occ o, k ≠ i → U !! k = Some occ → o ∈ occ → o ∉ [a; b; c].

Lemma nm_resolved_frame tn tn' nm ext pos :
  (∀ q, q ∈ [a; b; c] → slot tn' q = slot tn q) →
  nm_resolved (tn, nm) a b c pos → nm_resolved (tn', nm ++ ext) a b c pos.
Proof.
  intros Hs (H1 & H2 & H3 & H4 & H5 & H6). unfold nm_resolved. simpl in *.
  rewrite !Hs by set_solver.
  split_and!; try done; by apply lookup_app_l_Some.
Qed.

Lemma adjacency_step_frame k st st' :
  k ≠ i → adjacency_step E U st k = Some st' →
  length st'.1 = length st.1 ∧
  length st'.2 ≤ length st.2 + length (U !!! k) ∧
  ∀ pos, nm_resolved st a b c pos → nm_resolved st' a b c pos.
Proof.
  intros Hk Hstep. unfold adjacency_step in Hstep. destruct st as [tn nm].
  assert (∀ o, 0 < length (U !!! k) → o ∈ U !!! k → ∀ q v, q ∈ [a; b; c] →
            slot (set_neighbor (o / 3) (o mod 3) v tn) q = slot tn q) as Hfr.
  { intros o Hlen Ho q v Hq. apply slot_set_ne. intros ->.
    by eapply (Hdisj k _ q Hk (lookup_total_nonempty U k Hlen)). }
  repeat case_decide; simplify_eq; simpl.
  - split; [done|]. split; [lia|done].
  - split; [apply length_set_neighbor|]. split; [lia|]. intros pos HP.
    rewrite <-(app_nil_r nm). apply (nm_resolved_frame tn); [|done].
    intros q Hq. apply Hfr; [lia| |done].
    apply list_elem_of_lookup_total. exists 0. split; [lia|done].
  - split; [by rewrite !length_set_neighbor|]. split; [lia|]. intros pos HP.
    rewrite <-(app_nil_r nm). apply (nm_resolved_frame tn); [|done].
    intros q Hq.
    assert (∀ j, j < 2 → (U !!! k) !!! j ∈ U !!! k) as Hin.
    { intros j Hj. apply list_elem_of_lookup_total. exists j. split; [lia|done]. }
    rewrite slot_set_ne.
    + apply Hfr; [lia|by apply Hin; lia|done].
    + intros Heq. subst q.
      eapply (Hdisj k _ _ Hk (lookup_total_nonempty U k ltac:(lia)));
        [|exact Hq]. apply Hin. lia.
  - destruct (nm_fold_spec (U !!! k) (U !!! k) (tn, nm)) as (F1 & F2 & F3).
    destruct (foldl (nm_step (U !!! k)) (tn, nm) (U !!! k)) as [tn' nm'].
    simpl in *. subst nm'. split; [done|]. split.
    + rewrite length_app, length_fmap. lia.
    + intros pos HP. apply (nm_resolved_frame tn); [|done].
      intros q Hq. apply F3. intros Hq'.
      by eapply (Hdisj k _ q Hk (lookup_total_nonempty U k ltac:(lia))).
  - split; [done|]. split; [lia|done].
Qed.

Lemma adjacency_step_target st st' :
  adjacency_step E U st i = Some st' →
  length st.1 = T →
  (N.of_nat (length st.2) + 3 ≤ id_modulus)%N →
  nm_resolved st' a b c (length st.2) ∧ length st'.1 = T ∧
  length st'.2 = length st.2 + 3.
Proof.
  intros Hstep HT Hb. unfold adjacency_step in Hstep. destruct st as [tn nm].
  rewrite (list_lookup_total_correct _ _ _ HU) in Hstep.
  apply NoDup_cons in Hnd as [Hab Hnd']. apply NoDup_cons in Hnd' as [Hbc _].
  apply not_elem_of_cons in Hab as [Hab Hac].
  apply not_elem_of_cons in Hac as [Hac _].
  apply not_elem_of_cons in Hbc as [Hbc _].
  repeat case_decide; simplify_eq; simpl in *; try lia.
  unfold nm_step. simpl.
  rewrite !length_app. simpl.
  rewrite !to_id_small by (unfold id_modulus in *; lia).
  assert (filter (λ ok, ok ≠ a) [a; b; c] = [b; c]) as ->.
  { rewrite filter_cons_False by naive_solver.
    rewrite filter_cons_True by naive_solver.
    rewrite filter_cons_True by naive_solver. done. }
  assert (filter (λ ok, ok ≠ b) [a; b; c] = [a; c]) as ->.
  { rewrite filter_cons_True by naive_solver.
    rewrite filter_cons_False by naive_solver.
    rewrite filter_cons_True by naive_solver. done. }
  assert (filter (λ ok, ok ≠ c) [a; b; c] = [a; b]) as ->.
  { rewrite filter_cons_True by naive_solver.
    rewrite filter_cons_True by naive_solver.
    rewrite filter_cons_False by naive_solver. done. }
  unfold nm_resolved. simpl.
  assert (∀ p, p ∈ [a; b; c] → (p < 3 * N.of_nat (length tn))%N) as Hlt'
    by done.
  split_and!.
  - rewrite <-!app_assoc. by rewrite lookup_app_r, Nat.sub_diag.
  - rewrite <-!app_assoc. rewrite lookup_app_r by lia.
    by replace (length nm + 1 - length nm) with 1 by lia.
  - rewrite <-!app_assoc. rewrite lookup_app_r by lia.
    by replace (length nm + 2 - length nm) with 2 by lia.
  - rewrite !slot_set_ne by done. rewrite slot_set_eq by (apply Hlt'; set_solver).
    f_equal. unfold sid_of_id. lia.
  - rewrite !slot_set_ne by done.
    rewrite slot_set_eq
      by (rewrite length_set_neighbor; apply Hlt'; set_solver).
    f_equal. unfold sid_of_id. lia.
  - rewrite slot_set_eq
      by (rewrite !length_set_neighbor; apply Hlt'; set_solver).
    f_equal. unfold sid_of_id. lia.
  - by rewrite !length_set_neighbor.
  - lia.
Qed.

Lemma adjacency_loop_resolved m :
  ∀ k st st',
    adjacency_loop E U (seq k m) st = Some st' →
    length st.1 = T →
    (N.of_nat (length st.2 + length (concat (drop k U))) ≤ id_modulus)%N →
    (k ≤ i < k + m) ∨ (∃ pos, nm_resolved st a b c pos) →
    ∃ pos, nm_resolved st' a b c pos.
Proof.
  induction m as [|m IH]; intros k st st' Hloop HT Hb Hor.
  - simpl in Hloop. injection Hloop as <-. destruct Hor as [?|?]; [lia|done].
  - simpl in Hloop.
    destruct (adjacency_step E U st k) as [st1|] eqn:Hstep; [|done].
    rewrite length_concat_drop in Hb.
    destruct (decide (k = i)) as [->|Hne].
    + rewrite (list_lookup_total_correct _ _ _ HU) in Hb. simpl in Hb.
      destruct (adjacency_step_target st st1 Hstep HT) as (HP & HT1 & Hl1);
        [lia|].
      apply (IH _ _ _ Hloop HT1); [rewrite Hl1; lia|]. right. eauto.
    + destruct (adjacency_step_frame k st st1 Hne Hstep) as (HT1 & Hl1 & Hfr).
      apply (IH _ _ _ Hloop); [congruence|lia|].
      destruct Hor as [Hor|[pos HP]]; [left; lia|right; eauto].
Qed.

End nonmanifold.

(** C7, as amended: a face with exactly three occurrences [a], [b], [c] is
    resolved to three consecutive entries of the non manifold neighbor list,
    one for each occurrence and each holding the two other occurrences, and
    the adjacency slot of each occurrence holds the negative encoded position
    [-(pos+1)] of its own entry, three distinct negative values. *)
Theorem nonmanifold_face_resolved (triangles : list id3) (adj : adjacencies)
    (i : nat) (a b c : id) :
  (N.of_nat (3 * length triangles) ≤ id_modulus)%N →
  compute_triangle_adjacencies triangles [] = Some adj →
  uIEdgeToOld adj !! i = Some [a; b; c] →
  uIEdges adj !!! i ≠ NO_FACE →
  ∃ pos : nat,
    nm_triangle_neighbors adj !! pos = Some [b; c] ∧
    nm_triangle_neighbors adj !! (pos + 1) = Some [a; c] ∧
    nm_triangle_neighbors adj !! (pos + 2) = Some [a; b] ∧
    get_neighbor (triangle_neighbors adj) (a / 3) (a mod 3)
      = Some (- (Z.of_nat pos + 1))%Z ∧
    get_neighbor (triangle_neighbors adj) (b / 3) (b mod 3)
      = Some (- (Z.of_nat pos + 2))%Z ∧
    get_neighbor (triangle_neighbors adj) (c / 3) (c mod 3)
      = Some (- (Z.of_nat pos + 3))%Z.
Proof.
  intros Hb Hadj HU HE.
  unfold compute_triangle_adjacencies, sort_unique_with_perm in Hadj.
  set (E := sort_unique (all_faces triangles)) in *.
  set (old := (λ x, to_id (N.of_nat (index_of x E))) <$> all_faces triangles)
    in *.
  set (U := build_uIEdgeToOld old (length triangles) (resize_vv (length E) []))
    in *.
  destruct (adjacency_loop E U (seq 0 (length E)) _) as [st|] eqn:Hloop;
    [|done].
  injection Hadj as <-. simpl in *.
  destruct (build_uIEdgeToOld_spec old (length triangles) (length E) Hb)
    as (Hinv & HlenU & Hcat). fold U in Hinv, HlenU, Hcat.
  destruct (Hinv i _ HU) as [Hnd Hel].
  apply (adjacency_loop_resolved E U (length triangles) i a b c HU HE Hnd)
    in Hloop; [exact Hloop| | | | |].
  - intros p Hp. apply Hel in Hp as [Hp _]. lia.
  - intros k occ o Hk Hocc Ho Ho'.
    apply (Hinv k) in Ho as [_ Ho]; [|done]. apply Hel in Ho' as [_ Ho']. lia.
  - simpl. apply length_replicate.
  - simpl. rewrite drop_0. unfold id_modulus in *. lia.
  - left. apply lookup_lt_Some in HU. lia.
Qed.

Lemma nonmanifold_face_resolved_witness :
  ∃ pos : nat,
    [[3; 6]; [0; 6]; [0; 3]]%N !! pos = Some [3; 6]%N ∧
    [[3; 6]; [0; 6]; [0; 3]]%N !! (pos + 1) = Some [0; 6]%N ∧
    [[3; 6]; [0; 6]; [0; 3]]%N !! (pos + 2) = Some [0; 3]%N ∧
    Some (-1)%Z = Some (- (Z.of_nat pos + 1))%Z ∧
    Some (-2)%Z = Some (- (Z.of_nat pos + 2))%Z ∧
    Some (-3)%Z = Some (- (Z.of_nat pos + 3))%Z.
Proof.
  pose (adj := {| triangle_neighbors :=
                    [((-1)%Z, 4294967295%Z, 4294967295%Z);
                     ((-2)%Z, 4294967295%Z, 4294967295%Z);
                     ((-3)%Z, 4294967295%Z, 4294967295%Z)];
                  nm_triangle_neighbors := [[3; 6]; [0; 6]; [0; 3]]%N;
                  uIEdges := [(0, 1); (0, 2); (0, 3); (0, 4);
                              (1, 2); (1, 3); (1, 4)]%N;
                  old2IEdge := [0; 4; 1; 0; 5; 2; 0; 6; 3]%N;
                  uIEdgeToOld := [[0; 3; 6]; [2]; [5]; [8]; [1]; [4]; [7]]%N |}).
  apply (nonmanifold_face_resolved [(0, 1, 2); (0, 1, 3); (0, 1, 4)]%N
           adj 0 0%N 3%N 6%N).
  - vm_compute. discriminate.
  - reflexivity.
  - reflexivity.
  - vm_compute. discriminate.
Defined.

(** C7, as stated, fails: for three triangles around the edge (0,1) the face
    has the three occurrences 0, 3 and 6, and the non manifold neighbor list
    gets three entries of size 2, none of size 3. *)
Lemma nonmanifold_entries_have_size_two :
  ∃ adj,
    compute_triangle_adjacencies [(0, 1, 2); (0, 1, 3); (0, 1, 4)]%N []
      = Some adj ∧
    uIEdgeToOld adj !! 0 = Some [0; 3; 6]%N ∧
    nm_triangle_neighbors adj = [[3; 6]; [0; 6]; [0; 3]]%N ∧
    ¬ ∃ entry, entry ∈ nm_triangle_neighbors adj ∧ length entry = 3.
Proof.
  eexists. split; [reflexivity|]. split; [reflexivity|]. split; [reflexivity|].
  intros (entry & Hin & Hlen). simpl in Hin.
  repeat (apply elem_of_cons in Hin as [->|Hin]; [discriminate Hlen|]).
  by apply elem_of_nil in Hin.
Qed.

(** ** The entries of the stiffness matrix *)

Lemma for_each_seq_inv {E A} (body : A → nat → result E A) (Inv : nat → A → Prop)
    m :
  ∀ k a a',
    for_each body (seq k m) a = Ok a' →
    Inv k a →
    (∀ j a0 a1, k ≤ j < k + m → Inv j a0 → body a0 j = Ok a1 → Inv (S j) a1) →
    Inv (k + m) a'.
Proof.
  induction m as [|m IH]; intros k a a' Hrun Hinv Hstep; simpl in Hrun.
  - injection Hrun as <-. by rewrite Nat.add_0_r.
  - destruct (body a k) as [a1|err] eqn:Hb; [|done].
    replace (k + S m) with (S k + m) by lia.
    apply (IH (S k) a1 a' Hrun).
    + apply (Hstep k a a1); [lia|done..].
    + intros j a0 a2 Hj. apply Hstep. lia.
Qed.

Lemma for_each_err {E A B} (body : A → B → result E A) l :
  ∀ a err, for_each body l a = Err err →
           ∃ a0 b, b ∈ l ∧ body a0 b = Err err.
Proof.
  induction l as [|b l IH]; intros a err Hrun; simpl in Hrun; [done|].
  destruct (body a b) as [a1|err'] eqn:Hb.
  - destruct (IH a1 err Hrun) as (a0 & b' & Hin & Hb').
    exists a0, b'. split; [apply elem_of_cons; by right|done].
  - injection Hrun as ->. exists a, b. split; [apply elem_of_cons; by left|done].
Qed.

Lemma row_entries_app r l1 l2 :
  row_entries r (l1 ++ l2) = row_entries r l1 ++ row_entries r l2.
Proof. apply filter_app. Qed.

Lemma row_entries_nil_iff r l :
  row_entries r l = [] ↔ ∀ c, c ∈ l → N.to_nat (ij c).1 ≠ r.
Proof.
  unfold row_entries. split.
  - intros H c Hc Hr. by eapply (filter_nil_not_elem_of _ _ c H).
  - intros H. destruct (filter _ l) as [|c l'] eqn:Hf; [done|].
    assert (c ∈ filter (λ c, N.to_nat (ij c).1 = r) l) as Hc
      by (rewrite Hf; apply elem_of_cons; by left).
    apply list_elem_of_filter in Hc as [Hr Hc]. by destruct (H c Hc).
Qed.

Lemma stiffness_entries_rows e bv al cr :
  (∀ d, d ∈ (stiffness_entries e bv al cr).1 →
        iv_i d = to_id (2 * e) ∨ iv_i d = to_id (2 * e + 1)) ∧
  (∀ c, c ∈ (stiffness_entries e bv al cr).2 →
        (ij c).1 = to_id (2 * e) ∨ (ij c).1 = to_id (2 * e + 1)).
Proof.
  split; intros c Hc; unfold stiffness_entries in Hc; simpl in Hc;
    repeat (apply elem_of_cons in Hc as [->|Hc]; [simpl; by auto|]);
    by apply elem_of_nil in Hc.
Qed.

Lemma stiffness_coefficient_rows M e uE o2 U iv ijv :
  stiffness_coefficient M e uE o2 U = Ok (iv, ijv) →
  (∀ d, d ∈ iv → iv_i d = to_id (2 * e) ∨ iv_i d = to_id (2 * e + 1)) ∧
  (∀ c, c ∈ ijv → (ij c).1 = to_id (2 * e) ∨ (ij c).1 = to_id (2 * e + 1)).
Proof.
  unfold stiffness_coefficient. intros H.
  destruct (stiffness_weights M e uE o2 U) as [w|err]; [|done].
  simpl in H. injection H as <- <-. apply stiffness_entries_rows.
Qed.

(** ** The assembly loop *)

Lemma row_entries_dirichlet_pair r j a0 a1 :
  a0 = N.of_nat (2 * j) → a1 = N.of_nat (2 * j + 1) →
  row_entries r [mkIJV (a0, a0) 1%R; mkIJV (a1, a1) 1%R] =
  if decide (r = 2 * j ∨ r = 2 * j + 1)
  then [mkIJV (N.of_nat r, N.of_nat r) 1%R] else [].
Proof.
  intros -> ->. unfold row_entries.
  destruct (decide (r = 2 * j)) as [->|H0].
  - rewrite filter_cons_True by (simpl; lia).
    rewrite filter_cons_False by (simpl; lia).
    by rewrite decide_True by lia.
  - rewrite filter_cons_False by (simpl; lia).
    destruct (decide (r = 2 * j + 1)) as [->|H1].
    + rewrite filter_cons_True by (simpl; lia). by rewrite decide_True by lia.
    + rewrite filter_cons_False by (simpl; lia). by rewrite decide_False by lia.
Qed.

Section assembly_loop.
Variables (M : TMesh) (adj : adjacencies) (d : list bool) (n : nat).
Hypothesis Hn : n = length (uIEdges adj).
Hypothesis Hbound : (N.of_nat (2 * n) ≤ id_modulus)%N.
Hypothesis Hd : length d = n.

Lemma assemble_edge_assembled j a0 a1 :
  j < n → assembled n d j a0 →
  assemble_edge M adj d a0 j = Ok a1 → assembled n d (S j) a1.
Proof.
  intros Hj [Hlen Hinv] Hstep. unfold assemble_edge in Hstep.
  destruct (lookup_lt_is_Some_2 d j ltac:(lia)) as [dj Hdj].
  rewrite (list_lookup_total_correct _ _ _ Hdj) in Hstep.
  destruct dj; cbn [negb] in Hstep.
  - (* Dirichlet edge *)
    injection Hstep as <-. rewrite !to_id_small by lia.
    split; [cbn [rhs]; by rewrite !length_insert|].
    intros e He. destruct (Hinv e He) as [Hrows Hrhs]. split.
    + intros r Hr. destruct (Hrows r Hr) as [Hc Hdg]. cbn [K_coefs K_diag].
      split; [done|].
      rewrite fmap_app, row_entries_app, Hdg.
      cbn [fmap list_fmap]. unfold diag_entry. cbn [iv_i iv_val].
      rewrite (row_entries_dirichlet_pair r j) by (f_equal; lia).
      repeat case_decide; try done; lia.
    + intros Hlt. cbn [rhs].
      destruct (decide (e = j)) as [->|Hne].
      * split.
        -- rewrite list_lookup_insert_ne by lia.
           rewrite Nat.add_0_r. apply list_lookup_insert_eq. lia.
        -- apply list_lookup_insert_eq. rewrite length_insert. lia.
      * rewrite !list_lookup_insert_ne by lia. apply Hrhs. lia.
  - (* interior edge *)
    destruct (stiffness_coefficient M _ _ _ _) as [[iv ijv]|err] eqn:Hs; [|done].
    injection Hstep as <-.
    apply stiffness_coefficient_rows in Hs as [Hiv Hijv].
    rewrite (to_id_small (N.of_nat j)) in Hiv, Hijv by lia.
    rewrite !to_id_small in Hiv, Hijv by lia.
    split; [done|]. intros e He. destruct (Hinv e He) as [Hrows Hrhs].
    assert (e ≠ j) as Hne by (intros ->; congruence).
    split.
    + intros r Hr. destruct (Hrows r Hr) as [Hc Hdg]. cbn [K_coefs K_diag].
      rewrite fmap_app, !row_entries_app, Hc, Hdg.
      assert (row_entries r ijv = []) as ->.
      { apply row_entries_nil_iff. intros c Hc'. destruct (Hijv c Hc'); lia. }
      assert (row_entries r (diag_entry <$> iv) = []) as ->.
      { apply row_entries_nil_iff. intros c Hc'.
        apply list_elem_of_fmap in Hc' as (d0 & -> & Hd0). simpl.
        destruct (Hiv d0 Hd0); lia. }
      rewrite !app_nil_r. split; [done|].
      repeat case_decide; try done; lia.
    + intros Hlt. cbn [rhs]. apply Hrhs. lia.
Qed.

Lemma assemble_assembled a :
  assemble M adj d = Ok a → assembled n d n a.
Proof.
  unfold assemble. rewrite <-Hn. intros Hrun.
  apply (for_each_seq_inv _ (assembled n d) n 0 _ _ Hrun).
  - split; [simpl; by rewrite length_replicate|].
    intros e He. split; [|lia]. intros r Hr. cbn [K_coefs K_diag].
    split; [done|]. by rewrite decide_False by lia.
  - intros j a0 a1 Hj. apply assemble_edge_assembled. lia.
Qed.

End assembly_loop.

(** ** The system compactor *)

Lemma insert_IJV_perm c l : insert_IJV c l ≡ₚ c :: l.
Proof.
  induction l as [|d l IH]; simpl; [done|].
  destruct (IJV_ltb c d); [done|]. rewrite IH. apply Permutation_swap.
Qed.

Lemma sort_IJV_perm l : sort_IJV l ≡ₚ l.
Proof.
  induction l as [|c l IH]; simpl; [done|].
  rewrite insert_IJV_perm. by rewrite IH.
Qed.

Lemma row_entries_sort r l c :
  row_entries r l = [c] → row_entries r (sort_IJV l) = [c].
Proof.
  intros H. apply Permutation_singleton_r. rewrite <-H. unfold row_entries.
  by rewrite sort_IJV_perm.
Qed.

Lemma row_entries_cons r c l :
  row_entries r (c :: l) =
  if decide (N.to_nat (ij c).1 = r) then c :: row_entries r l
  else row_entries r l.
Proof. unfold row_entries. by rewrite filter_cons. Qed.

Lemma flush_length st :
  length (flush st).1 = length (columns st) ∧
  length (flush st).2 = length (values st).
Proof.
  unfold flush. destruct (Rgt_dec _ _); simpl; [|done].
  by rewrite !length_push_at.
Qed.

Lemma flush_other r st :
  cur_i st ≠ r →
  (flush st).1 !! r = columns st !! r ∧ (flush st).2 !! r = values st !! r.
Proof.
  intros H. unfold flush, push_at. destruct (Rgt_dec _ _); simpl; [|done].
  by rewrite !list_lookup_alter_ne.
Qed.

Lemma flush_pending st :
  (Rabs (acc_val st) > EPS)%R →
  columns st !! cur_i st = Some [] → values st !! cur_i st = Some [] →
  (flush st).1 !! cur_i st = Some [cur_j st] ∧
  (flush st).2 !! cur_i st = Some [acc_val st].
Proof.
  intros H Hc Hv. unfold flush, push_at. destruct (Rgt_dec _ _); [|done].
  simpl. by rewrite !list_lookup_alter_eq, Hc, Hv.
Qed.

Lemma merge_step_length st c :
  length (columns (merge_step st c)) = length (columns st) ∧
  length (values (merge_step st c)) = length (values st).
Proof.
  unfold merge_step. repeat case_decide; simpl; try done; apply flush_length.
Qed.

Lemma merge_step_other r st c :
  cur_i st ≠ r → N.to_nat (ij c).1 ≠ r →
  cur_i (merge_step st c) ≠ r ∧
  columns (merge_step st c) !! r = columns st !! r ∧
  values (merge_step st c) !! r = values st !! r.
Proof.
  intros Hst Hc. destruct (flush_other r st Hst) as [F1 F2].
  unfold merge_step. repeat case_decide; simpl; done.
Qed.

Lemma merge_done r rest :
  ∀ st, cur_i st ≠ r → row_entries r rest = [] →
        (flush (foldl merge_step st rest)).1 !! r = columns st !! r ∧
        (flush (foldl merge_step st rest)).2 !! r = values st !! r.
Proof.
  induction rest as [|c rest IH]; intros st Hst Hrows; simpl.
  - by apply flush_other.
  - rewrite row_entries_cons in Hrows. case_decide; [done|].
    destruct (merge_step_other r st c Hst) as (H1 & H2 & H3); [done|].
    rewrite <-H2, <-H3. by apply IH.
Qed.

Lemma merge_pending r rest st :
  cur_i st = r → (Rabs (acc_val st) > EPS)%R → row_entries r rest = [] →
  columns st !! r = Some [] → values st !! r = Some [] →
  (flush (foldl merge_step st rest)).1 !! r = Some [cur_j st] ∧
  (flush (foldl merge_step st rest)).2 !! r = Some [acc_val st].
Proof.
  intros <- Hacc Hrows Hc Hv. destruct rest as [|c rest]; simpl.
  - by apply flush_pending.
  - rewrite row_entries_cons in Hrows. case_decide as Hne; [done|].
    destruct (flush_pending st Hacc Hc Hv) as [F1 F2].
    assert (cur_i (merge_step st c) ≠ cur_i st ∧
            columns (merge_step st c) = (flush st).1 ∧
            values (merge_step st c) = (flush st).2) as (M1 & M2 & M3).
    { unfold merge_step. rewrite decide_True by done. done. }
    destruct (merge_done (cur_i st) rest (merge_step st c) M1 Hrows) as [D1 D2].
    by rewrite D1, D2, M2, M3.
Qed.

Lemma merge_before r c rest :
  ∀ st, cur_i st ≠ r → row_entries r rest = [c] →
        (Rabs (ijv_val c) > EPS)%R →
        columns st !! r = Some [] → values st !! r = Some [] →
        (flush (foldl merge_step st rest)).1 !! r = Some [N.to_nat (ij c).2] ∧
        (flush (foldl merge_step st rest)).2 !! r = Some [ijv_val c].
Proof.
  induction rest as [|h rest IH]; intros st Hst Hrows Hacc Hc Hv; [done|].
  simpl. rewrite row_entries_cons in Hrows. case_decide as Hh.
  - injection Hrows as -> Hrows.
    destruct (flush_other r st Hst) as [F1 F2].
    assert (merge_step st c =
            {| cur_i := N.to_nat (ij c).1; cur_j := N.to_nat (ij c).2;
               acc_val := ijv_val c;
               columns := (flush st).1; values := (flush st).2 |}) as ->.
    { unfold merge_step. rewrite decide_True by congruence. done. }
    apply (merge_pending r rest); simpl; try done; congruence.
  - destruct (merge_step_other r st h Hst Hh) as (H1 & H2 & H3).
    apply IH; try done; congruence.
Qed.

Lemma prepare_system_length Kd Kc cols vals :
  length (prepare_system Kd Kc cols vals).1 = length cols ∧
  length (prepare_system Kd Kc cols vals).2 = length vals.
Proof.
  unfold prepare_system. destruct (sort_IJV _) as [|c0 rest]; [done|].
  set (st0 := {| cur_i := _ |}).
  assert (∀ l st, length (columns (foldl merge_step st l)) = length (columns st)
                  ∧ length (values (foldl merge_step st l)) = length (values st))
    as Hfold.
  { induction l as [|c l IH]; intros st; simpl; [done|].
    destruct (IH (merge_step st c)) as [-> ->]. apply merge_step_length. }
  destruct (flush_length (foldl merge_step st0 rest)) as [-> ->].
  apply Hfold.
Qed.

Lemma prepare_system_row Kd Kc m r c :
  r < m → row_entries r (Kc ++ (diag_entry <$> Kd)) = [c] →
  (Rabs (ijv_val c) > EPS)%R →
  (prepare_system Kd Kc (replicate m []) (replicate m [])).1 !! r
    = Some [N.to_nat (ij c).2] ∧
  (prepare_system Kd Kc (replicate m []) (replicate m [])).2 !! r
    = Some [ijv_val c].
Proof.
  intros Hr Hrows Hacc. apply row_entries_sort in Hrows.
  unfold prepare_system. destruct (sort_IJV _) as [|c0 rest]; [done|].
  rewrite row_entries_cons in Hrows. case_decide as Hc0.
  - injection Hrows as -> Hrows.
    apply (merge_pending r rest); simpl; try done;
      by apply lookup_replicate_2.
  - apply (merge_before r c rest); simpl; try done;
      by apply lookup_replicate_2.
Qed.

(** ** The Dirichlet edges *)

Lemma EPS_lt_1 : (Rabs 1 > EPS)%R.
Proof. rewrite Rabs_R1. unfold EPS. lra. Qed.

Lemma mark_occurrences_prefix (U : list (list N)) n k :
  k ≤ n →
  let d := foldl (λ d e, if decide (length (U !!! e) ≠ 2)
                         then <[e := true]> d else d)
                 (replicate n false) (seq 0 k) in
  length d = n ∧
  ∀ e, e < n →
       d !! e = Some (if decide (e < k)
                      then bool_decide (length (U !!! e) ≠ 2) else false).
Proof.
  intros Hk. induction k as [|k IH]; cbv zeta.
  - simpl. split; [apply length_replicate|].
    intros e He. by apply lookup_replicate_2.
  - destruct IH as [IH1 IH2]; [lia|].
    rewrite seq_S, foldl_app. simpl. case_decide as Hocc.
    + split; [by rewrite length_insert|]. intros e He.
      destruct (decide (e = k)) as [->|Hne].
      * rewrite list_lookup_insert_eq by lia.
        rewrite decide_True by lia. by rewrite bool_decide_eq_true_2.
      * rewrite list_lookup_insert_ne by done. rewrite IH2 by done.
        repeat case_decide; try done; lia.
    + split; [done|]. intros e He. rewrite IH2 by done.
      destruct (decide (e = k)) as [->|Hne].
      * rewrite decide_False by lia. rewrite decide_True by lia.
        rewrite bool_decide_eq_false_2; [done|]. intros H. by apply H.
      * repeat case_decide; try done; lia.
Qed.

Lemma mark_occurrences_spec (U : list (list N)) n :
  length (mark_occurrences U n) = n ∧
  ∀ e, e < n →
       mark_occurrences U n !! e = Some (bool_decide (length (U !!! e) ≠ 2)).
Proof.
  destruct (mark_occurrences_prefix U n n (le_n n)) as [H1 H2].
  split; [done|]. intros e He.
  unfold mark_occurrences. rewrite H2 by done. by rewrite decide_True.
Qed.

Lemma mark_lines_spec M uE d :
  length (mark_lines M uE d) = length d ∧
  ∀ e, d !! e = Some true → mark_lines M uE d !! e = Some true.
Proof.
  unfold mark_lines. revert d.
  induction (lines M) as [|line ls IH]; intros d; simpl; [done|].
  destruct (find_edge _ uE) as [k|]; [|apply IH].
  destruct (IH (<[N.to_nat (to_id (N.of_nat k)) := true]> d)) as [IH1 IH2].
  split; [by rewrite IH1, length_insert|].
  intros e He. apply IH2.
  destruct (decide (N.to_nat (to_id (N.of_nat k)) = e)) as [<-|Hne].
  - apply list_lookup_insert_eq. by apply lookup_lt_Some in He.
  - by rewrite list_lookup_insert_ne.
Qed.

Lemma operator_matrix_dirichlet d Mass Kc Kv dt r :
  d !! (r / 2) = Some true → r < length Kv →
  operator_matrix d Mass Kc Kv dt !! r = Some [1%R].
Proof.
  intros Hd Hr. unfold operator_matrix. rewrite list_lookup_imap.
  destruct (lookup_lt_is_Some_2 Kv r Hr) as [vals ->]. simpl.
  unfold operator_row. by rewrite (list_lookup_total_correct _ _ _ Hd).
Qed.

Lemma renormalize_spec d n x :
  length (renormalize d n x) = length x ∧
  ∀ e, d !! e = Some true →
       renormalize d n x !! (2 * e) = x !! (2 * e) ∧
       renormalize d n x !! (2 * e + 1) = x !! (2 * e + 1).
Proof.
  unfold renormalize. revert x.
  induction (seq 0 n) as [|e' l IH]; intros x; [done|].
  cbn [foldl]. destruct (d !!! e') eqn:Hde'; cbn [negb]; [apply IH|].
  destruct (Rgt_dec _ _); [|apply IH].
  match goal with |- context [foldl _ ?y l] => destruct (IH y) as [IH1 IH2] end.
  split; [by rewrite IH1, !length_insert|].
  intros e He. destruct (IH2 e He) as [-> ->].
  assert (e ≠ e') as Hne.
  { intros ->. rewrite (list_lookup_total_correct _ _ _ He) in Hde'. done. }
  by rewrite !list_lookup_insert_ne by lia.
Qed.

Lemma row_product_unit r (x : list R) :
  row_product [r] [1%R] x = x !!! r.
Proof. unfold row_product. simpl. lra. Qed.

Section pinning.
Variable solver : list (list nat) → list (list R) → list R → option (list R).
Variables (d : list bool) (Mass : list R) (Kc : list (list nat))
          (Kv : list (list R)) (n : nat) (dtI dtF : R) (nbIter : Z).
Hypothesis Hexact : exact_solver solver.
Hypothesis Hrows :
  ∀ e, d !! e = Some true →
       ∀ r, r = 2 * e ∨ r = 2 * e + 1 → Kc !! r = Some [r] ∧ r < length Kv.

Lemma heat_step_pinned dt x x' :
  solver Kc (operator_matrix d Mass Kc Kv dt) x = Some x' →
  pinned d x → pinned d (renormalize d n x').
Proof.
  intros Hs Hp e He. destruct (Hexact _ _ _ _ Hs) as [Hlen Hsol].
  destruct (renormalize_spec d n x') as [_ Hre].
  destruct (Hre e He) as [-> ->]. destruct (Hp e He) as [H0 H1].
  assert (∀ r b, r = 2 * e ∨ r = 2 * e + 1 → x !! r = Some b →
                 x' !! r = Some b) as Hrow.
  { intros r b Hr Hb. destruct (Hrows e He r Hr) as [Hc Hlt].
    specialize (Hsol r b Hb).
    rewrite (list_lookup_total_correct _ _ _ Hc) in Hsol.
    assert (r / 2 = e) as Hdiv.
    { destruct Hr; subst r; symmetry;
        [apply (Nat.div_unique _ _ _ 0)|apply (Nat.div_unique _ _ _ 1)]; lia. }
    assert (operator_matrix d Mass Kc Kv dt !! r = Some [1%R]) as Hop
      by (apply operator_matrix_dirichlet; [by rewrite Hdiv|done]).
    rewrite (list_lookup_total_correct _ _ _ Hop) in Hsol.
    rewrite row_product_unit in Hsol. rewrite <-Hsol.
    apply list_lookup_lookup_total_lt. rewrite Hlen.
    by apply lookup_lt_Some in Hb. }
  split; apply Hrow; auto.
Qed.

Lemma heat_loop_pinned iters :
  ∀ x x',
    (heat_loop solver d Mass Kc Kv n dtI dtF nbIter iters x).2 = Ok x' →
    pinned d x → pinned d x'.
Proof.
  induction iters as [|iter iters IH]; intros x x' Hrun Hp; simpl in Hrun.
  - by injection Hrun as <-.
  - destruct (solver _ _ _) as [x1|] eqn:Hs; simpl in Hrun; [|done].
    apply (IH _ _ Hrun). by eapply heat_step_pinned.
Qed.

End pinning.

(** ** The system entering the loop *)

Lemma setup_inv M sys :
  setup M = Ok sys →
  let n := length (uIEdges (adj sys)) in
  compute_triangle_adjacencies (triangles M) [] = Some (adj sys) ∧
  n ≠ 0 ∧
  dirichletEdge sys =
    mark_lines M (uIEdges (adj sys))
      (mark_occurrences (uIEdgeToOld (adj sys)) n) ∧
  assemble M (adj sys) (dirichletEdge sys) = Ok (system sys) ∧
  K_columns sys =
    (prepare_system (K_diag (system sys)) (K_coefs (system sys))
       (replicate (2 * n) []) (replicate (2 * n) [])).1 ∧
  K_values sys =
    (prepare_system (K_diag (system sys)) (K_coefs (system sys))
       (replicate (2 * n) []) (replicate (2 * n) [])).2.
Proof.
  unfold setup. intros H.
  destruct (compute_triangle_adjacencies _ _) as [adj0|]; [|done].
  case_decide as Hn; [done|].
  destruct (assemble M adj0 _) as [a|err] eqn:Ha; [|done].
  cbn [mbind result_bind] in H. injection H as <-. cbn.
  split_and!; done.
Qed.

Lemma length_dirichletEdge M sys :
  setup M = Ok sys →
  length (dirichletEdge sys) = length (uIEdges (adj sys)).
Proof.
  intros H. destruct (setup_inv M sys H) as (_ & _ & -> & _).
  destruct (mark_lines_spec M (uIEdges (adj sys))
              (mark_occurrences (uIEdgeToOld (adj sys))
                 (length (uIEdges (adj sys))))) as [-> _].
  apply mark_occurrences_spec.
Qed.

Lemma system_dirichlet_rows M sys e r :
  setup M = Ok sys →
  (N.of_nat (2 * length (uIEdges (adj sys))) ≤ id_modulus)%N →
  dirichletEdge sys !! e = Some true →
  r = 2 * e ∨ r = 2 * e + 1 →
  K_columns sys !! r = Some [r] ∧ K_values sys !! r = Some [1%R] ∧
  r < length (K_values sys).
Proof.
  intros Hsetup Hb He Hr.
  pose proof (length_dirichletEdge M sys Hsetup) as Hlen.
  destruct (setup_inv M sys Hsetup) as (_ & _ & _ & Ha & -> & ->).
  destruct (assemble_assembled M (adj sys) (dirichletEdge sys) _ eq_refl Hb
              Hlen _ Ha) as [_ Hinv].
  destruct (Hinv e He) as [Hrows _]. destruct (Hrows r Hr) as [Hc Hd].
  assert (e < length (uIEdges (adj sys))) as Hlt
    by (rewrite <-Hlen; by apply lookup_lt_Some in He).
  rewrite decide_True in Hd by done.
  destruct (prepare_system_row (K_diag (system sys)) (K_coefs (system sys))
              (2 * length (uIEdges (adj sys))) r
              (mkIJV (N.of_nat r, N.of_nat r) 1%R)) as [P1 P2].
  - lia.
  - by rewrite row_entries_app, Hc, Hd.
  - apply EPS_lt_1.
  - simpl in P1, P2. rewrite Nat2N.id in P1. split_and!; [done..|].
    by apply lookup_lt_Some in P2.
Qed.

Lemma system_rhs_pinned M sys :
  setup M = Ok sys →
  (N.of_nat (2 * length (uIEdges (adj sys))) ≤ id_modulus)%N →
  pinned (dirichletEdge sys) (rhs (system sys)).
Proof.
  intros Hsetup Hb e He.
  pose proof (length_dirichletEdge M sys Hsetup) as Hlen.
  destruct (setup_inv M sys Hsetup) as (_ & _ & _ & Ha & _).
  destruct (assemble_assembled M (adj sys) (dirichletEdge sys) _ eq_refl Hb
              Hlen _ Ha) as [_ Hinv].
  destruct (Hinv e He) as [_ Hrhs]. apply Hrhs.
  rewrite <-Hlen. by apply lookup_lt_Some in He.
Qed.

(** C3: with a solver that returns an exact solution, the pair of every
    Dirichlet edge is exactly (1, 0) after each of the iterations of the
    diffusion loop ([k] is the number of iterations done). *)
Theorem dirichlet_pinning
    (solver : list (list nat) → list (list R) → list R → option (list R))
    (M : TMesh) (sys : heat_system) (nbIter : Z) (k e : nat) (x : list R) :
  exact_solver solver →
  setup M = Ok sys →
  (N.of_nat (2 * length (uIEdges (adj sys))) ≤ id_modulus)%N →
  dirichletEdge sys !! e = Some true →
  (diffusion solver sys nbIter (seq 0 k) (rhs (system sys))).2 = Ok x →
  x !! (2 * e) = Some 1%R ∧ x !! (2 * e + 1) = Some 0%R.
Proof.
  intros Hexact Hsetup Hb He Hrun. unfold diffusion in Hrun.
  apply (heat_loop_pinned solver (dirichletEdge sys) _ _ _ _ _ _ _ Hexact)
    in Hrun; [by apply Hrun| |by eapply system_rhs_pinned].
  intros e' He' r Hr.
  destruct (system_dirichlet_rows M sys e' r Hsetup Hb He' Hr) as (H1 & _ & H3).
  done.
Qed.

(** ** The loop as a whole *)

Lemma heat_loop_log solver d Mass Kc Kv n dtI dtF nbIter iters :
  ∀ x x',
    (heat_loop solver d Mass Kc Kv n dtI dtF nbIter iters x).2 = Ok x' →
    (heat_loop solver d Mass Kc Kv n dtI dtF nbIter iters x).1 =
    (λ iter, (iter, timestep dtI dtF nbIter iter)) <$> iters.
Proof.
  induction iters as [|iter iters IH]; intros x x' Hrun; simpl in *; [done|].
  destruct (solver _ _ _) as [x1|]; simpl in *; [|done].
  f_equal. by eapply IH.
Qed.

Lemma heat_loop_err solver d Mass Kc Kv n dtI dtF nbIter iters :
  ∀ x err,
    (heat_loop solver d Mass Kc Kv n dtI dtF nbIter iters x).2 = Err err →
    err = failed_solve.
Proof.
  induction iters as [|iter iters IH]; intros x err Hrun; simpl in *; [done|].
  destruct (solver _ _ _) as [x1|]; simpl in *; [by eapply IH|].
  by injection Hrun.
Qed.

Lemma heat_loop_fixed solver d Mass Kc Kv n dtI dtF nbIter x iters :
  (∀ dt, solver Kc (operator_matrix d Mass Kc Kv dt) x = Some x) →
  renormalize d n x = x →
  heat_loop solver d Mass Kc Kv n dtI dtF nbIter iters x =
  ((λ iter, (iter, timestep dtI dtF nbIter iter)) <$> iters, Ok x).
Proof.
  intros Hs Hr. induction iters as [|iter iters IH]; simpl; [done|].
  by rewrite Hs, Hr, IH.
Qed.

Lemma timestep_before_last dtI dtF iter :
  iter < 9 → timestep dtI dtF 10 iter = dtI.
Proof.
  intros H. unfold timestep.
  change ((10 - 1) mod 2 ^ 64)%Z with 9%Z.
  rewrite Z.div_small by lia. lra.
Qed.

Lemma timestep_last dtI dtF : timestep dtI dtF 10 9 = dtF.
Proof.
  unfold timestep. change (Z.of_nat 9 / ((10 - 1) mod 2 ^ 64))%Z with 1%Z. lra.
Qed.

Lemma timestep_schedule dtI dtF :
  (λ iter, (iter, timestep dtI dtF 10 iter)) <$> seq 0 10 =
  ((λ iter, (iter, dtI)) <$> seq 0 9) ++ [(9, dtF)].
Proof.
  change (seq 0 10) with (seq 0 9 ++ [9]). rewrite fmap_app. f_equal.
  - apply list_fmap_ext. intros i iter Hi. f_equal.
    apply timestep_before_last. apply lookup_seq in Hi. lia.
  - simpl. by rewrite timestep_last.
Qed.

(** ** The solver of unit diagonal systems *)

Lemma solve_unit_diagonal_exact : exact_solver solve_unit_diagonal.
Proof.
  intros Acol Aval B x H. unfold solve_unit_diagonal in H.
  destruct (excluded_middle_informative _) as [Hu|]; [|done].
  injection H as <-. split; [done|]. intros i b Hb.
  destruct (Hu i) as [Hc Hv]; [by apply lookup_lt_Some in Hb|].
  rewrite (list_lookup_total_correct _ _ _ Hc).
  rewrite (list_lookup_total_correct _ _ _ Hv).
  rewrite row_product_unit. by apply list_lookup_total_correct.
Qed.

Lemma renormalize_all_dirichlet d n x :
  (∀ e, e < n → d !! e = Some true) → renormalize d n x = x.
Proof.
  intros H. unfold renormalize.
  assert (∀ e, e ∈ seq 0 n → d !! e = Some true) as H'
    by (intros e He; apply H; apply elem_of_seq in He; lia).
  clear H. induction (seq 0 n) as [|e l IH]; [done|]. cbn [foldl].
  assert (d !! e = Some true) as He by (apply H'; by left).
  rewrite (list_lookup_total_correct _ _ _ He). cbn [negb].
  apply IH. intros e' He'. apply H'. by right.
Qed.

(** ** The mesh of one triangle *)

Lemma one_triangle_adjacencies :
  compute_triangle_adjacencies (triangles one_triangle) [] = Some one_triangle_adj.
Proof. reflexivity. Qed.

Lemma one_triangle_dirichlet :
  mark_lines one_triangle (uIEdges one_triangle_adj)
    (mark_occurrences (uIEdgeToOld one_triangle_adj) 3) = [true; true; true].
Proof. reflexivity. Qed.

Lemma one_triangle_assembly :
  assemble one_triangle one_triangle_adj [true; true; true] =
  Ok {| K_diag := [mkIV 0 1; mkIV 1 1; mkIV 2 1; mkIV 3 1; mkIV 4 1; mkIV 5 1];
        K_coefs := [];
        rhs := [1; 0; 1; 0; 1; 0]%R;
        Mass := [1; 1; 1; 1; 1; 1]%R |}.
Proof. reflexivity. Qed.

Lemma DBL_MAX_large : (5 < DBL_MAX)%R.
Proof. unfold DBL_MAX. apply IZR_lt. reflexivity. Qed.

Lemma one_triangle_lengths :
  length3 (vsub (point one_triangle 1) (point one_triangle 0)) = 3%R ∧
  length3 (vsub (point one_triangle 2) (point one_triangle 0)) = 4%R ∧
  length3 (vsub (point one_triangle 2) (point one_triangle 1)) = 5%R.
Proof.
  unfold length3, dot, vsub, point.
  change (N.to_nat 0) with 0; change (N.to_nat 1) with 1;
    change (N.to_nat 2) with 2. simpl.
  split_and!.
  - replace (_ + _)%R with (3 * 3)%R by lra. apply sqrt_square. lra.
  - replace (_ + _)%R with (4 * 4)%R by lra. apply sqrt_square. lra.
  - replace (_ + _)%R with (5 * 5)%R by lra. apply sqrt_square. lra.
Qed.

Lemma one_triangle_sizes :
  (edge_sizes one_triangle (uIEdges one_triangle_adj)).1.2 = 3%R ∧
  (edge_sizes one_triangle (uIEdges one_triangle_adj)).2 = 5%R.
Proof.
  unfold edge_sizes. cbn -[Rmin Rmax length3 INR Rdiv].
  destruct one_triangle_lengths as (-> & -> & ->).
  pose proof DBL_MAX_large.
  unfold Rmin, Rmax. repeat destruct (Rle_dec _ _); lra.
Qed.

Lemma one_triangle_setup :
  ∃ sys,
    setup one_triangle = Ok sys ∧
    adj sys = one_triangle_adj ∧
    dirichletEdge sys = [true; true; true] ∧
    rhs (system sys) = [1; 0; 1; 0; 1; 0]%R ∧
    dtInitial sys = 25%R ∧ dtFinal sys = 9%R.
Proof.
  unfold setup. rewrite one_triangle_adjacencies.
  change (length (uIEdges one_triangle_adj)) with 3.
  rewrite decide_False by lia.
  rewrite one_triangle_dirichlet, one_triangle_assembly.
  cbn [mbind result_bind].
  eexists. split; [reflexivity|]. cbn [adj dirichletEdge system rhs dtInitial dtFinal].
  destruct one_triangle_sizes as [-> ->].
  split_and!; try done; lra.
Qed.

Lemma one_triangle_solve sys x dt :
  setup one_triangle = Ok sys → adj sys = one_triangle_adj →
  dirichletEdge sys = [true; true; true] → length x = 6 →
  solve_unit_diagonal (K_columns sys)
    (operator_matrix [true; true; true] (Mass (system sys)) (K_columns sys)
       (K_values sys) dt) x = Some x.
Proof.
  intros Hs Hadj Hd Hx. unfold solve_unit_diagonal.
  destruct (excluded_middle_informative _) as [|Hn]; [done|].
  destruct Hn. intros i Hi. rewrite Hx in Hi.
  assert (dirichletEdge sys !! (i / 2) = Some true) as He.
  { rewrite Hd.
    assert (i / 2 < 3) as H3 by (apply Nat.Div0.div_lt_upper_bound; lia).
    by destruct (i / 2) as [|[|[|?]]]; [..|lia]. }
  destruct (system_dirichlet_rows one_triangle sys (i / 2) i Hs) as (H1 & H2 & H3).
  - rewrite Hadj. by vm_compute.
  - done.
  - pose proof (Nat.div_mod_eq i 2) as Hdm.
    pose proof (Nat.mod_upper_bound i 2 ltac:(lia)). lia.
  - split; [done|]. apply operator_matrix_dirichlet; [by rewrite <-Hd|done].
Qed.

Lemma one_triangle_run nbIter edge_to_angle :
  compute_cross_field_with_heat solve_unit_diagonal one_triangle nbIter
    edge_to_angle =
  (((λ iter, (iter, 25%R)) <$> seq 0 9) ++ [(9, 9%R)],
   Ok ([1; 0; 1; 0; 1; 0]%R,
       fill_edge_to_angle [(0, 1); (0, 2); (1, 2)]%N [1; 0; 1; 0; 1; 0]%R
         <$> edge_to_angle)).
Proof.
  destruct one_triangle_setup as (sys & Hs & Hadj & Hd & Hrhs & HI & HF).
  unfold compute_cross_field_with_heat. rewrite Hs. cbv zeta.
  unfold diffusion. rewrite Hd, Hrhs, HI, HF, Hadj.
  change (Z.to_nat (10 mod 2 ^ 64)) with 10.
  rewrite heat_loop_fixed.
  - cbn [fst snd]. by rewrite timestep_schedule.
  - intros dt. by apply one_triangle_solve.
  - apply renormalize_all_dirichlet. intros e He.
    change (length (uIEdges one_triangle_adj)) with 3 in He.
    by destruct e as [|[|[|?]]]; [..|lia].
Qed.

(** ** The timestep and the number of iterations *)

(** C1 fails on the code: on the triangle with sides 3, 4 and 5 the timestep
    is 25, the square of the longest edge, in the iterations 0 to 8, and 9,
    the square of the shortest edge, in iteration 9 only, because
    [iter/(nbIter-1)] is a division of integers.  The interpolation of the
    claim gives 25 - 16/9 in iteration 1. *)
Theorem timestep_is_not_interpolated :
  (compute_cross_field_with_heat solve_unit_diagonal one_triangle 10 None).1 =
    [(0, 25%R); (1, 25%R); (2, 25%R); (3, 25%R); (4, 25%R); (5, 25%R);
     (6, 25%R); (7, 25%R); (8, 25%R); (9, 9%R)] ∧
  timestep 25 9 10 1 = 25%R ∧
  (25 + (9 - 25) * (INR 1 / INR (10 - 1)))%R ≠ 25%R.
Proof.
  split_and!.
  - by rewrite one_triangle_run.
  - by apply timestep_before_last; lia.
  - simpl. lra.
Qed.

(** C2: whatever the caller passes for [nbIter], a run that succeeds has done
    the iterations 0 to 9, and the result does not depend on [nbIter]. *)
Theorem ten_iterations
    (solver : list (list nat) → list (list R) → list R → option (list R))
    (M : TMesh) (nbIter : Z) (edge_to_angle : option (gmap (N * N) R))
    (out : list R * option (gmap (N * N) R)) :
  (compute_cross_field_with_heat solver M nbIter edge_to_angle).2 = Ok out →
  (compute_cross_field_with_heat solver M nbIter edge_to_angle).1.*1
    = seq 0 10 ∧
  ∀ nbIter',
    compute_cross_field_with_heat solver M nbIter' edge_to_angle =
    compute_cross_field_with_heat solver M nbIter edge_to_angle.
Proof.
  intros H. split; [|done]. unfold compute_cross_field_with_heat in *.
  destruct (setup M) as [sys|err]; [|done]. cbv zeta in *.
  change (Z.to_nat (10 mod 2 ^ 64)) with 10 in *. unfold diffusion in *.
  destruct (heat_loop _ _ _ _ _ _ _ _ _ _ _).2 as [x|err] eqn:Hrun; [|done].
  cbn [fst]. rewrite (heat_loop_log _ _ _ _ _ _ _ _ _ _ _ _ Hrun).
  rewrite <-list_fmap_compose. apply list_fmap_id.
Qed.

Lemma ten_iterations_witness :
  (compute_cross_field_with_heat solve_unit_diagonal one_triangle 3 None).1.*1
    = seq 0 10 ∧
  ∀ nbIter',
    compute_cross_field_with_heat solve_unit_diagonal one_triangle nbIter' None
    = compute_cross_field_with_heat solve_unit_diagonal one_triangle 3 None.
Proof.
  apply (ten_iterations _ _ _ _ ([1; 0; 1; 0; 1; 0]%R, None)).
  by rewrite one_triangle_run.
Defined.

Lemma dirichlet_pinning_witness :
  [1; 0; 1; 0; 1; 0]%R !! (2 * 1) = Some 1%R ∧
  [1; 0; 1; 0; 1; 0]%R !! (2 * 1 + 1) = Some 0%R.
Proof.
  destruct one_triangle_setup as (sys & Hs & Hadj & Hd & Hrhs & HI & HF).
  apply (dirichlet_pinning solve_unit_diagonal one_triangle sys 10 3 1).
  - apply solve_unit_diagonal_exact.
  - exact Hs.
  - rewrite Hadj. by vm_compute.
  - by rewrite Hd.
  - unfold diffusion. rewrite Hd, Hrhs. rewrite heat_loop_fixed; [done| |].
    + intros dt. by apply one_triangle_solve.
    + apply renormalize_all_dirichlet. intros e He. rewrite Hadj in He.
      change (length (uIEdges one_triangle_adj)) with 3 in He.
      by destruct e as [|[|[|?]]]; [..|lia].
Defined.

(** ** The failures of the computation *)

Lemma adjacencies_inv tris U0 adj :
  compute_triangle_adjacencies tris U0 = Some adj →
  uIEdges adj = sort_unique (all_faces tris).
Proof.
  unfold compute_triangle_adjacencies, sort_unique_with_perm. intros H.
  destruct (adjacency_loop _ _ _ _) as [st|]; [|done]. by injection H as <-.
Qed.

Lemma insert_unique_nonempty x l : insert_unique x l ≠ [].
Proof.
  destruct l as [|y l]; simpl; [done|].
  destruct (id2_ltb x y); [done|]. by destruct (id2_eqb x y).
Qed.

Lemma length_insert_unique x l : length (insert_unique x l) ≤ S (length l).
Proof.
  induction l as [|y l IH]; simpl; [lia|].
  destruct (id2_ltb x y); simpl; [lia|]. destruct (id2_eqb x y); simpl; lia.
Qed.

Lemma length_sort_unique l : length (sort_unique l) ≤ length l.
Proof.
  induction l as [|x l IH]; simpl; [lia|].
  pose proof (length_insert_unique x (sort_unique l)). lia.
Qed.

Lemma length_all_faces tris : length (all_faces tris) = 3 * length tris.
Proof.
  unfold all_faces. induction tris as [|t tris IH]; [done|].
  cbn [mbind list_bind]. rewrite length_app, IH. simpl. lia.
Qed.

Lemma sort_unique_nil_inv tris : sort_unique (all_faces tris) = [] → tris = [].
Proof.
  destruct tris as [|t tris]; [done|]. unfold all_faces.
  cbn [mbind list_bind]. simpl. intros H. by apply insert_unique_nonempty in H.
Qed.

Lemma neighbor_edge_err M uE o2 v1 v2 e_x e_y t le s k w err :
  neighbor_edge M uE o2 v1 v2 e_x e_y t le s k w = Err err →
  err ≠ occurrence_count.
Proof.
  unfold neighbor_edge. destruct (Rlt_dec _ _); [by intros [= <-]|].
  repeat case_decide; cbn [mbind result_bind]; by intros [= <-].
Qed.

Lemma triangle_side_err M uE o2 U e v1 v2 e_x s st err :
  triangle_side M uE o2 U e v1 v2 e_x s st = Err err →
  err ≠ occurrence_count.
Proof.
  unfold triangle_side. destruct (Rlt_dec _ _); [by intros [= <-]|].
  destruct (neighbor_edge _ _ _ _ _ _ _ _ _ _ 0 _) as [w|err0] eqn:H0;
    cbn [mbind result_bind].
  - destruct (neighbor_edge _ _ _ _ _ _ _ _ _ _ 1 _) as [w'|err1] eqn:H1;
      cbn [mbind result_bind]; [done|].
    intros [= <-]. by eapply neighbor_edge_err.
  - intros [= <-]. by eapply neighbor_edge_err.
Qed.

Lemma stiffness_coefficient_occurrence M e uE o2 U :
  stiffness_coefficient M e uE o2 U = Err occurrence_count →
  length (U !!! N.to_nat e) ≠ 2.
Proof.
  unfold stiffness_coefficient, stiffness_weights.
  case_decide as Hocc; [done|]. destruct (Rlt_dec _ _); [done|].
  destruct (triangle_side _ _ _ _ _ _ _ _ 0 _) as [st|err0] eqn:H0;
    cbn [mbind result_bind].
  - destruct (triangle_side _ _ _ _ _ _ _ _ 1 _) as [st'|err1] eqn:H1;
      cbn [mbind result_bind]; [done|].
    intros [= ->]. by apply triangle_side_err in H1.
  - intros [= ->]. by apply triangle_side_err in H0.
Qed.

Lemma assemble_err M adj d err :
  assemble M adj d = Err err →
  ∃ e serr, err = failed_stiffness e serr ∧ e < length (uIEdges adj) ∧
            d !!! e = false ∧
            stiffness_coefficient M (to_id (N.of_nat e)) (uIEdges adj)
              (old2IEdge adj) (uIEdgeToOld adj) = Err serr.
Proof.
  unfold assemble. intros H.
  apply for_each_err in H as (a0 & e & He & Hstep).
  apply elem_of_seq in He. unfold assemble_edge in Hstep.
  destruct (d !!! e) eqn:Hd; cbn [negb] in Hstep; [done|].
  destruct (stiffness_coefficient _ _ _ _ _) as [[iv ijv]|serr] eqn:Hs;
    [done|].
  injection Hstep as <-. exists e, serr. split_and!; [done|lia|done..].
Qed.

Lemma setup_err M err :
  setup M = Err err →
  err = failed_adjacencies ∨
  (err = no_internal_edges ∧ triangles M = []) ∨
  ∃ adj,
    compute_triangle_adjacencies (triangles M) [] = Some adj ∧
    uIEdges adj ≠ [] ∧
    assemble M adj
      (mark_lines M (uIEdges adj)
         (mark_occurrences (uIEdgeToOld adj) (length (uIEdges adj))))
      = Err err.
Proof.
  unfold setup. intros H.
  destruct (compute_triangle_adjacencies _ _) as [adj0|] eqn:Hadj;
    [|injection H as <-; by left].
  case_decide as Hn.
  - injection H as <-. right; left. split; [done|].
    apply sort_unique_nil_inv. rewrite <-(adjacencies_inv _ _ _ Hadj).
    by apply length_zero_iff_nil.
  - destruct (assemble M adj0 _) as [a|err0] eqn:Ha;
      cbn [mbind result_bind] in H; [done|].
    injection H as <-. right; right. exists adj0. split_and!; [done| |done].
    intros Hnil. by rewrite Hnil in Hn.
Qed.

Lemma compute_err solver M nbIter edge_to_angle err :
  (compute_cross_field_with_heat solver M nbIter edge_to_angle).2 = Err err →
  setup M = Err err ∨ (err = failed_solve ∧ ∃ sys, setup M = Ok sys).
Proof.
  unfold compute_cross_field_with_heat. intros H.
  destruct (setup M) as [sys|err0]; [|left; by injection H as <-].
  right. cbv zeta in H. unfold diffusion in H.
  destruct (heat_loop _ _ _ _ _ _ _ _ _ _ _).2 as [x|err1] eqn:Hrun; [done|].
  injection H as <-. split; [by eapply heat_loop_err|eauto].
Qed.

(** C9: every unique edge whose number of occurrences is not 2 is marked as a
    Dirichlet edge before the assembly, and the computation never fails with
    the occurrence-count error of [stiffness_coefficient]. *)
Theorem occurrence_error_unreachable
    (solver : list (list nat) → list (list R) → list R → option (list R))
    (M : TMesh) (nbIter : Z) (edge_to_angle : option (gmap (N * N) R)) :
  (N.of_nat (3 * length (triangles M)) ≤ id_modulus)%N →
  (∀ adj e,
     compute_triangle_adjacencies (triangles M) [] = Some adj →
     e < length (uIEdges adj) →
     length (uIEdgeToOld adj !!! e) ≠ 2 →
     mark_lines M (uIEdges adj)
       (mark_occurrences (uIEdgeToOld adj) (length (uIEdges adj))) !! e
     = Some true) ∧
  (∀ e, (compute_cross_field_with_heat solver M nbIter edge_to_angle).2
        ≠ Err (failed_stiffness e occurrence_count)).
Proof.
  intros Hb.
  assert (∀ adj e,
            e < length (uIEdges adj) →
            length (uIEdgeToOld adj !!! e) ≠ 2 →
            mark_lines M (uIEdges adj)
              (mark_occurrences (uIEdgeToOld adj) (length (uIEdges adj))) !! e
            = Some true) as Hmark.
  { intros adj e He Hocc. apply mark_lines_spec.
    destruct (mark_occurrences_spec (uIEdgeToOld adj) (length (uIEdges adj)))
      as [_ ->]; [|done]. by rewrite bool_decide_eq_true_2. }
  split; [intros adj e _; apply Hmark|].
  intros e Hrun. apply compute_err in Hrun as [Hs|[? _]]; [|done].
  apply setup_err in Hs as [?|[[? _]|(adj & Hadj & _ & Ha)]]; [done..|].
  apply assemble_err in Ha as (e' & serr & [= <- <-] & He & Hd & Hs).
  apply stiffness_coefficient_occurrence in Hs.
  assert (length (uIEdges adj) ≤ 3 * length (triangles M)) as Hlen.
  { rewrite (adjacencies_inv _ _ _ Hadj), <-length_all_faces.
    apply length_sort_unique. }
  rewrite to_id_small, Nat2N.id in Hs by lia.
  rewrite (list_lookup_total_correct _ _ _ (Hmark adj e He Hs)) in Hd. done.
Qed.

Lemma occurrence_error_unreachable_witness :
  (∀ adj e,
     compute_triangle_adjacencies (triangles one_triangle) [] = Some adj →
     e < length (uIEdges adj) →
     length (uIEdgeToOld adj !!! e) ≠ 2 →
     mark_lines one_triangle (uIEdges adj)
       (mark_occurrences (uIEdgeToOld adj) (length (uIEdges adj))) !! e
     = Some true) ∧
  (∀ e, (compute_cross_field_with_heat solve_unit_diagonal one_triangle 10
           None).2
        ≠ Err (failed_stiffness e occurrence_count)).
Proof.
  apply (occurrence_error_unreachable solve_unit_diagonal one_triangle 10 None).
  by vm_compute.
Defined.

(** C5, as amended: the computation fails with "no internal edges" exactly
    when the mesh has no triangle, that is when there is no unique edge at
    all. *)
Theorem no_internal_edges_iff
    (solver : list (list nat) → list (list R) → list R → option (list R))
    (M : TMesh) (nbIter : Z) (edge_to_angle : option (gmap (N * N) R)) :
  (compute_cross_field_with_heat solver M nbIter edge_to_angle).2
    = Err no_internal_edges
  ↔ triangles M = [].
Proof.
  split.
  - intros H. apply compute_err in H as [Hs|[? _]]; [|done].
    apply setup_err in Hs as [?|[[_ ?]|(adj & _ & _ & Ha)]]; [done..|].
    by apply assemble_err in Ha as (? & ? & ? & _).
  - intros H. unfold compute_cross_field_with_heat, setup. by rewrite H.
Qed.

(** C5, as stated, fails: the mesh of one triangle has three unique edges,
    each with one occurrence, so no edge is shared by two triangles; the
    computation succeeds and returns the field (1,0) on every edge. *)
Lemma boundary_only_mesh_accepted :
  compute_triangle_adjacencies (triangles one_triangle) []
    = Some one_triangle_adj ∧
  (∀ e occ, uIEdgeToOld one_triangle_adj !! e = Some occ → length occ = 1) ∧
  exact_solver solve_unit_diagonal ∧
  (compute_cross_field_with_heat solve_unit_diagonal one_triangle 10 None).2
    = Ok ([1; 0; 1; 0; 1; 0]%R, None).
Proof.
  split_and!.
  - apply one_triangle_adjacencies.
  - intros [|[|[|e]]] occ H; simpl in H; by simplify_eq.
  - apply solve_unit_diagonal_exact.
  - by rewrite one_triangle_run.
Qed.

(** ** The unique edges are distinct *)

Lemma id2_ltb_spec (a b : N * N) :
  id2_ltb a b = true ↔ (a.1 < b.1 ∨ (a.1 = b.1 ∧ a.2 < b.2))%N.
Proof.
  unfold id2_ltb. rewrite orb_true_iff, andb_true_iff.
  rewrite !N.ltb_lt, N.eqb_eq. done.
Qed.

Lemma id2_eqb_spec (a b : N * N) : id2_eqb a b = true ↔ a = b.
Proof.
  unfold id2_eqb. rewrite andb_true_iff, !N.eqb_eq.
  destruct a, b; simpl. split; [by intros [-> ->]|by intros [= -> ->]].
Qed.

Lemma insert_unique_sorted x l :
  StronglySorted (λ a b, id2_ltb a b = true) l →
  StronglySorted (λ a b, id2_ltb a b = true) (insert_unique x l) ∧
  ∀ z, z ∈ insert_unique x l → z = x ∨ z ∈ l.
Proof.
  induction l as [|y l IH]; intros Hs; simpl.
  - split; [repeat constructor|]. intros z Hz.
    apply list_elem_of_singleton in Hz. by left.
  - apply StronglySorted_inv in Hs as [Hs Hy].
    destruct (id2_ltb x y) eqn:Hxy.
    + split; [|intros z Hz; apply elem_of_cons in Hz as [->|Hz]; auto].
      constructor; [by constructor|]. constructor; [done|].
      rewrite Forall_forall in Hy |- *. intros z Hz. specialize (Hy z Hz).
      apply id2_ltb_spec in Hxy, Hy. apply id2_ltb_spec. lia.
    + destruct (id2_eqb x y) eqn:Hxy'.
      * split; [by constructor|]. intros z Hz. by right.
      * destruct (IH Hs) as [IH1 IH2]. split.
        -- constructor; [done|]. rewrite Forall_forall in Hy |- *.
           intros z Hz. apply IH2 in Hz as [->|Hz]; [|by apply Hy].
           apply id2_ltb_spec.
           assert (¬ id2_ltb x y = true) as H1 by (by rewrite Hxy).
           assert (x ≠ y) as H2
             by (intros Heq; apply id2_eqb_spec in Heq; congruence).
           rewrite id2_ltb_spec in H1. destruct x as [x1 x2], y as [y1 y2].
           simpl in *. destruct (decide (x1 = y1)) as [->|?]; [|lia].
           assert (x2 ≠ y2) by congruence. lia.
        -- intros z Hz. apply elem_of_cons in Hz as [->|Hz].
           ++ right. by left.
           ++ apply IH2 in Hz as [->|Hz]; [by left|]. right. by right.
Qed.

Lemma sort_unique_sorted l :
  StronglySorted (λ a b, id2_ltb a b = true) (sort_unique l).
Proof.
  induction l as [|x l IH]; simpl; [constructor|].
  by apply insert_unique_sorted.
Qed.

Lemma NoDup_sort_unique l : NoDup (sort_unique l).
Proof.
  induction (sort_unique_sorted l) as [|x l' Hs IH Hx]; [constructor|].
  constructor; [|done]. intros Hin. rewrite Forall_forall in Hx.
  specialize (Hx x Hin). apply id2_ltb_spec in Hx. lia.
Qed.

(** ** The field extractor *)

Lemma atan2_bound y x : (- PI < atan2 y x <= PI)%R.
Proof.
  pose proof PI_RGT_0 as Hpi. unfold atan2.
  destruct (Rlt_dec 0 x) as [Hx|Hx].
  - pose proof (atan_bound (y / x)). lra.
  - destruct (Rlt_dec x 0) as [Hx'|Hx'].
    + pose proof (atan_bound (y / x)) as Hb.
      pose proof (Rinv_lt_0_compat x Hx') as Hinv.
      destruct (Rle_dec 0 y) as [Hy|Hy].
      * assert (y / x <= 0)%R as Hq by (unfold Rdiv; nra).
        assert (atan (y / x) <= 0)%R.
        { destruct Hq as [Hq|Hq].
          - left. rewrite <-atan_0. by apply atan_increasing.
          - rewrite Hq, atan_0. lra. }
        lra.
      * assert (0 < y / x)%R as Hq by (unfold Rdiv; nra).
        assert (0 < atan (y / x))%R
          by (rewrite <-atan_0; by apply atan_increasing).
        lra.
    + destruct (Rlt_dec 0 y); [lra|]. destruct (Rlt_dec y 0); lra.
Qed.

Lemma edge_angle_bound x e : (- PI / 4 < edge_angle x e <= PI / 4)%R.
Proof.
  pose proof PI_RGT_0. unfold edge_angle. destruct (Rgt_dec _ _); [|lra].
  match goal with |- context [atan2 ?a ?b] =>
    pose proof (atan2_bound a b) end.
  lra.
Qed.

Lemma fill_edge_to_angle_prefix (uE : list (N * N)) (x : list R)
    (m : gmap (N * N) R) k :
  NoDup uE → k ≤ length uE →
  dom (foldl (λ m e, let edge : N * N := uE !!! e in
                     <[(edge.1, edge.2) := edge_angle x e]> m)
             m (seq 0 k))
    = dom m ∪ list_to_set (take k uE) ∧
  ∀ e edge, e < k → uE !! e = Some edge →
    foldl (λ m e, let edge : N * N := uE !!! e in
                  <[(edge.1, edge.2) := edge_angle x e]> m)
          m (seq 0 k) !! edge
    = Some (edge_angle x e).
Proof.
  intros Hnd. cbv zeta. induction k as [|k IH]; intros Hk.
  - simpl. split; [by rewrite union_empty_r_L|lia].
  - destruct IH as [IH1 IH2]; [lia|].
    destruct (lookup_lt_is_Some_2 uE k ltac:(lia)) as [[v1 v2] Hek].
    rewrite seq_S, foldl_app. cbn [foldl].
    rewrite (list_lookup_total_correct _ _ _ Hek). cbn [fst snd]. split.
    + rewrite dom_insert_L, IH1, (take_S_r _ _ _ Hek), list_to_set_snoc_L.
      rewrite (comm_L (∪) {[ (v1, v2) ]}). by rewrite (assoc_L (∪)).
    + intros e edge He Hedge. destruct (decide (e = k)) as [->|Hne].
      * rewrite Hek in Hedge. injection Hedge as <-.
        apply lookup_insert_eq.
      * rewrite lookup_insert_ne; [apply IH2; [lia|done]|].
        intros <-. by apply Hne, (NoDup_lookup uE e k (v1, v2)).
Qed.

Lemma fill_edge_to_angle_spec (uE : list (N * N)) (x : list R)
    (m : gmap (N * N) R) :
  NoDup uE →
  dom (fill_edge_to_angle uE x m) = dom m ∪ list_to_set uE ∧
  ∀ e edge, uE !! e = Some edge →
            fill_edge_to_angle uE x m !! edge = Some (edge_angle x e).
Proof.
  intros Hnd.
  destruct (fill_edge_to_angle_prefix uE x m (length uE) Hnd (le_n _))
    as [H1 H2].
  unfold fill_edge_to_angle. cbv zeta in *. split.
  - by rewrite H1, firstn_all.
  - intros e edge He. apply H2; [|done]. by apply lookup_lt_Some in He.
Qed.

Lemma pair_norm_example : pair_norm [0; -1]%R 0 = 1%R.
Proof.
  unfold pair_norm. simpl.
  replace (0 * 0 + -1 * -1)%R with (1 * 1)%R by lra. apply sqrt_square. lra.
Qed.

Lemma edge_angle_example : edge_angle [0; -1]%R 0 = (- (PI / 8))%R.
Proof.
  unfold edge_angle. rewrite pair_norm_example.
  destruct (Rgt_dec 1 EPS) as [_|Hn]; [|unfold EPS in Hn; lra].
  simpl. unfold atan2. repeat destruct (Rlt_dec _ _); lra.
Qed.

(** C6, as amended: the angle stored for an edge is a quarter of the [atan2]
    of its normalized pair when the norm of the pair is above [EPS], and 0
    otherwise; it lies in [-PI/4, PI/4].  The lower end is included: the C
    library gives -PI for [atan2(-0.0, x)] with [x < 0]. *)
Theorem edge_angle_range (tris : list id3) (uIEdgeToOld0 : list (list id))
    (adj : adjacencies) (x : list R) (m : gmap (N * N) R) (e : nat)
    (edge : N * N) :
  compute_triangle_adjacencies tris uIEdgeToOld0 = Some adj →
  uIEdges adj !! e = Some edge →
  ∃ theta : R,
    fill_edge_to_angle (uIEdges adj) x m !! edge = Some theta ∧
    ((pair_norm x e > EPS)%R →
     theta = (1 / 4 * atan2 (x !!! (2 * e + 1)%nat / pair_norm x e)
                            (x !!! (2 * e)%nat / pair_norm x e))%R) ∧
    (¬ (pair_norm x e > EPS)%R → theta = 0%R) ∧
    (- PI / 4 <= theta <= PI / 4)%R.
Proof.
  intros Hadj He. exists (edge_angle x e).
  assert (NoDup (uIEdges adj)) as Hnd
    by (rewrite (adjacencies_inv _ _ _ Hadj); apply NoDup_sort_unique).
  destruct (fill_edge_to_angle_spec (uIEdges adj) x m Hnd) as [_ Hl].
  split_and!.
  - by apply Hl.
  - intros Hgt. unfold edge_angle. by destruct (Rgt_dec _ _).
  - intros Hle. unfold edge_angle. by destruct (Rgt_dec _ _).
  - left. apply edge_angle_bound.
  - apply edge_angle_bound.
Qed.

Lemma edge_angle_range_witness :
  ∃ theta : R,
    fill_edge_to_angle (uIEdges one_triangle_adj) [0; -1; 1; 0; 1; 0]%R ∅
      !! (0, 1)%N = Some theta ∧
    ((pair_norm [0; -1; 1; 0; 1; 0]%R 0 > EPS)%R →
     theta = (1 / 4 * atan2 ([0; -1; 1; 0; 1; 0]%R !!! (2 * 0 + 1)%nat
                             / pair_norm [0; -1; 1; 0; 1; 0]%R 0)
                            ([0; -1; 1; 0; 1; 0]%R !!! (2 * 0)%nat
                             / pair_norm [0; -1; 1; 0; 1; 0]%R 0))%R) ∧
    (¬ (pair_norm [0; -1; 1; 0; 1; 0]%R 0 > EPS)%R → theta = 0%R) ∧
    (- PI / 4 <= theta <= PI / 4)%R.
Proof.
  apply (edge_angle_range (triangles one_triangle) [] one_triangle_adj).
  - reflexivity.
  - reflexivity.
Defined.

(** C6, as stated, fails: for the pair (0, -1) the extractor stores the
    angle -PI/8, which is not in [0, 2 PI). *)
Lemma edge_angle_negative :
  fill_edge_to_angle [(0, 1)%N] [0; -1]%R ∅ !! (0, 1)%N
    = Some (- (PI / 8))%R ∧
  ¬ (0 <= - (PI / 8) < 2 * PI)%R.
Proof.
  split.
  - rewrite <-edge_angle_example.
    apply (fill_edge_to_angle_spec [(0, 1)%N] [0; -1]%R ∅); [|done].
    apply NoDup_singleton.
  - pose proof PI_RGT_0. lra.
Qed.

(** C10: when the caller supplies a map, every unique edge whose final pair
    has a norm at or below [EPS] is stored with the angle 0, and the map
    receives one entry for each unique edge: its keys are the keys it had and
    the unique edges. *)
Theorem degenerate_edges_stored_with_zero
    (solver : list (list nat) → list (list R) → list R → option (list R))
    (M : TMesh) (nbIter : Z) (m : gmap (N * N) R) (x : list R)
    (om : option (gmap (N * N) R)) :
  (compute_cross_field_with_heat solver M nbIter (Some m)).2 = Ok (x, om) →
  ∃ sys m',
    setup M = Ok sys ∧ om = Some m' ∧
    (∀ e edge, uIEdges (adj sys) !! e = Some edge →
               (pair_norm x e <= EPS)%R → m' !! edge = Some 0%R) ∧
    dom m' = dom m ∪ list_to_set (uIEdges (adj sys)) ∧
    (m = ∅ → size m' = length (uIEdges (adj sys))).
Proof.
  intros H. unfold compute_cross_field_with_heat in H.
  destruct (setup M) as [sys|err] eqn:Hs; [|done]. cbv zeta in H.
  destruct (diffusion _ _ _ _ _).2 as [x'|err]; [|done].
  cbn [snd] in H. injection H as -> <-.
  exists sys, (fill_edge_to_angle (uIEdges (adj sys)) x m).
  assert (NoDup (uIEdges (adj sys))) as Hnd.
  { destruct (setup_inv M sys Hs) as (Hadj & _).
    rewrite (adjacencies_inv _ _ _ Hadj). apply NoDup_sort_unique. }
  destruct (fill_edge_to_angle_spec (uIEdges (adj sys)) x m Hnd) as [Hd Hl].
  split_and!; [done..| | |].
  - intros e edge He Hle. rewrite (Hl e edge He). f_equal.
    unfold edge_angle. destruct (Rgt_dec _ _); [lra|done].
  - done.
  - intros ->. rewrite <-size_dom, Hd, dom_empty_L, union_empty_l_L.
    by apply size_list_to_set.
Qed.

Lemma degenerate_edges_stored_with_zero_witness :
  ∃ sys m',
    setup one_triangle = Ok sys ∧
    Some (fill_edge_to_angle [(0, 1); (0, 2); (1, 2)]%N [1; 0; 1; 0; 1; 0]%R ∅)
      = Some m' ∧
    (∀ e edge, uIEdges (adj sys) !! e = Some edge →
               (pair_norm [1; 0; 1; 0; 1; 0]%R e <= EPS)%R →
               m' !! edge = Some 0%R) ∧
    dom m' = dom (∅ : gmap (N * N) R) ∪ list_to_set (uIEdges (adj sys)) ∧
    ((∅ : gmap (N * N) R) = ∅ → size m' = length (uIEdges (adj sys))).
Proof.
  apply (degenerate_edges_stored_with_zero solve_unit_diagonal one_triangle 10).
  by rewrite one_triangle_run.
Defined.

(** A pair of norm 0 is stored with the angle 0. *)
Example degenerate_edge_example :
  fill_edge_to_angle [(0, 1)%N] [0; 0]%R ∅ !! (0, 1)%N = Some 0%R.
Proof.
  destruct (fill_edge_to_angle_spec [(0, 1)%N] [0; 0]%R ∅
              (NoDup_singleton _)) as [_ H].
  rewrite (H 0 (0, 1)%N eq_refl). f_equal. unfold edge_angle, pair_norm. simpl.
  replace (0 * 0 + 0 * 0)%R with 0%R by lra. rewrite sqrt_0.
  destruct (Rgt_dec 0 EPS) as [Hgt|]; [unfold EPS in Hgt; lra|done].
Qed.

(** ** The mesh of two triangles *)

Lemma kite_adjacencies :
  compute_triangle_adjacencies (triangles kite) [] = Some kite_adj.
Proof. reflexivity. Qed.

Lemma sqrt2_bounds : (1 < sqrt 2 < 2)%R.
Proof.
  pose proof (sqrt_pos 2). pose proof (sqrt_sqrt 2 ltac:(lra)). nra.
Qed.

Lemma weight_45 (u v : vec3) :
  dot u v = (1 / sqrt 2)%R → (-2 / tan (angle_nvectors u v))%R = (-2)%R.
Proof.
  intros H. unfold angle_nvectors. rewrite H.
  pose proof sqrt2_bounds as Hs.
  assert (0 < 1 / sqrt 2 < 1)%R as Hb.
  { split.
    - apply Rdiv_lt_0_compat; lra.
    - apply (Rmult_lt_reg_r (sqrt 2)); [lra|]. field_simplify; lra. }
  assert (clamp (1 / sqrt 2) (-1) 1 = 1 / sqrt 2)%R as ->.
  { unfold clamp, Rmin, Rmax. repeat destruct (Rle_dec _ _); lra. }
  rewrite <-cos_PI4. pose proof PI_RGT_0.
  rewrite acos_cos by lra. rewrite tan_PI4. lra.
Qed.

Lemma EPS_small : (0 < EPS < 1)%R.
Proof. unfold EPS. lra. Qed.

Lemma neighbor_edge_45 M uE o2 v1 v2 e_x e_y t le s k w (aedge : N * N)
    (edg : vec3) :
  uE !!! N.to_nat (o2 !!! N.to_nat (to_id (3 * t + (le + 1 + N.of_nat k) mod 3)))
    = aedge →
  vsub (point M aedge.2) (point M aedge.1) = edg →
  length3 edg = sqrt 2 →
  (aedge.1 = v1 ∧ dot (vscale (1 / sqrt 2) edg) e_x = (1 / sqrt 2)%R) ∨
  (aedge.1 ≠ v1 ∧ aedge.2 ≠ v1 ∧ aedge.1 = v2 ∧
   dot (vscale (-1) (vscale (1 / sqrt 2) edg)) e_x = (1 / sqrt 2)%R) →
  ∃ bv al,
    neighbor_edge M uE o2 v1 v2 e_x e_y t le s k w =
    Ok {| bvars := bv; alpha := al;
          CR_weight := <[2 * s + k := (-2)%R]> (CR_weight w) |}.
Proof.
  intros Ha He Hl Hcase. unfold neighbor_edge. cbv zeta.
  rewrite Ha, He, Hl.
  pose proof sqrt2_bounds. pose proof EPS_small.
  destruct (Rlt_dec (sqrt 2) EPS); [lra|].
  destruct Hcase as [[H1 Hd]|(H1 & H2 & H3 & Hd)].
  - rewrite decide_True by done. cbn [mbind result_bind].
    rewrite (weight_45 _ _ Hd). eauto.
  - rewrite decide_False by done. rewrite decide_False by done.
    rewrite decide_True by done. cbn [mbind result_bind].
    rewrite (weight_45 _ _ Hd). eauto.
Qed.

Lemma kite_normals :
  triangle_normal kite 0 = (0, 0, -1)%R ∧ triangle_normal kite 1 = (0, 0, 1)%R.
Proof.
  assert (triangle_cross kite 0 = (0, 0, -2)%R) as H0.
  { unfold triangle_cross, cross, vsub, point. simpl.
    repeat f_equal; lra. }
  assert (triangle_cross kite 1 = (0, 0, 2)%R) as H1.
  { unfold triangle_cross, cross, vsub, point. simpl.
    repeat f_equal; lra. }
  assert (length3 (0, 0, -2)%R = 2%R) as L0.
  { unfold length3, dot. simpl.
    replace (_ + _)%R with (2 * 2)%R by lra. apply sqrt_square. lra. }
  assert (length3 (0, 0, 2)%R = 2%R) as L1.
  { unfold length3, dot. simpl.
    replace (_ + _)%R with (2 * 2)%R by lra. apply sqrt_square. lra. }
  pose proof EPS_small.
  unfold triangle_normal. rewrite H0, H1. cbv zeta. rewrite L0, L1.
  destruct (Rlt_dec 2 EPS); [lra|].
  unfold normalize, vscale. rewrite L0, L1. simpl.
  split; repeat f_equal; lra.
Qed.

Lemma length3_unit_y (c : R) :
  (c = 1 ∨ c = -1)%R → length3 (0, c, 0)%R = 1%R.
Proof.
  intros Hc. unfold length3, dot. simpl.
  replace (_ + _)%R with (1 * 1)%R by (destruct Hc; subst; lra).
  apply sqrt_square. lra.
Qed.

Lemma kite_side (s : nat) (st : vec3 * weights) :
  s = 0 ∨ s = 1 →
  ∃ N' bv al,
    triangle_side kite (uIEdges kite_adj) (old2IEdge kite_adj)
      (uIEdgeToOld kite_adj) 0 0 1 (1, 0, 0)%R s st =
    Ok (N', {| bvars := bv; alpha := al;
               CR_weight := <[2 * s + 1 := (-2)%R]>
                              (<[2 * s + 0 := (-2)%R]> (CR_weight st.2)) |}).
Proof.
  intros Hs. destruct kite_normals as [N0 N1]. pose proof EPS_small.
  unfold triangle_side. cbv zeta.
  destruct Hs as [-> | ->].
  - change ((uIEdgeToOld kite_adj !!! N.to_nat 0) !!! 0) with 0%N.
    change (0 / 3)%N with 0%N. change (0 mod 3)%N with 0%N.
    rewrite N0. rewrite decide_False by done.
    assert (cross (0, 0, -1)%R (1, 0, 0)%R = (0, -1, 0)%R) as ->
      by (unfold cross; simpl; repeat f_equal; lra).
    rewrite length3_unit_y by auto.
    destruct (Rlt_dec 1 EPS); [lra|].
    edestruct (neighbor_edge_45 kite (uIEdges kite_adj) (old2IEdge kite_adj)
                 0 1 (1, 0, 0)%R (normalize (0, -1, 0)%R) 0 0 0 0 st.2
                 (1, 2)%N (-1, 1, 0)%R) as (bv & al & ->).
    { reflexivity. }
    { unfold vsub, point; simpl; repeat f_equal; lra. }
    { unfold length3, dot; simpl; f_equal; lra. }
    { right; split_and!; [done|done|reflexivity|].
      unfold dot, vscale; simpl; lra. }
    cbn [mbind result_bind].
    edestruct (neighbor_edge_45 kite (uIEdges kite_adj) (old2IEdge kite_adj)
                 0 1 (1, 0, 0)%R (normalize (0, -1, 0)%R) 0 0 0 1
                 {| bvars := bv; alpha := al;
                    CR_weight := <[2 * 0 + 0 := (-2)%R]> (CR_weight st.2) |}
                 (0, 2)%N (1, 1, 0)%R) as (bv' & al' & ->).
    { reflexivity. }
    { unfold vsub, point; simpl; repeat f_equal; lra. }
    { unfold length3, dot; simpl; f_equal; lra. }
    { left; split; [reflexivity|]. unfold dot, vscale; simpl; lra. }
    cbn [mbind result_bind CR_weight]. eauto.
  - change ((uIEdgeToOld kite_adj !!! N.to_nat 0) !!! 1) with 3%N.
    change (3 / 3)%N with 1%N. change (3 mod 3)%N with 0%N.
    rewrite N1. rewrite decide_True by done.
    set (N' := if Rlt_dec (dot _ _) 0 then _ else _).
    assert (∃ c, (c = 1 ∨ c = -1)%R ∧ cross N' (1, 0, 0)%R = (0, c, 0)%R)
      as (c & Hc & ->).
    { subst N'. destruct (Rlt_dec _ _); [exists (-1)%R|exists 1%R];
        (split; [auto|unfold cross, vscale; simpl; repeat f_equal; lra]). }
    rewrite length3_unit_y by done.
    destruct (Rlt_dec 1 EPS); [lra|].
    edestruct (neighbor_edge_45 kite (uIEdges kite_adj) (old2IEdge kite_adj)
                 0 1 (1, 0, 0)%R (normalize (0, c, 0)%R) 1 0 1 0 st.2
                 (1, 3)%N (-1, -1, 0)%R) as (bv & al & ->).
    { reflexivity. }
    { unfold vsub, point; simpl; repeat f_equal; lra. }
    { unfold length3, dot; simpl; f_equal; lra. }
    { right; split_and!; [done|done|reflexivity|].
      unfold dot, vscale; simpl; lra. }
    cbn [mbind result_bind].
    edestruct (neighbor_edge_45 kite (uIEdges kite_adj) (old2IEdge kite_adj)
                 0 1 (1, 0, 0)%R (normalize (0, c, 0)%R) 1 0 1 1
                 {| bvars := bv; alpha := al;
                    CR_weight := <[2 * 1 + 0 := (-2)%R]> (CR_weight st.2) |}
                 (0, 3)%N (1, -1, 0)%R) as (bv' & al' & ->).
    { reflexivity. }
    { unfold vsub, point; simpl; repeat f_equal; lra. }
    { unfold length3, dot; simpl; f_equal; lra. }
    { left; split; [reflexivity|]. unfold dot, vscale; simpl; lra. }
    cbn [mbind result_bind CR_weight]. eauto.
Qed.

Lemma kite_weights :
  ∃ w, stiffness_weights kite 0 (uIEdges kite_adj) (old2IEdge kite_adj)
         (uIEdgeToOld kite_adj) = Ok w ∧
       CR_weight w = [-2; -2; -2; -2]%R.
Proof.
  pose proof EPS_small. unfold stiffness_weights.
  rewrite decide_False by (intros Hn; by apply Hn).
  cbv zeta.
  change ((uIEdges kite_adj !!! N.to_nat 0).1) with 0%N.
  change ((uIEdges kite_adj !!! N.to_nat 0).2) with 1%N.
  assert (vsub (point kite 1) (point kite 0) = (2, 0, 0)%R) as ->
    by (unfold vsub, point; simpl; repeat f_equal; lra).
  assert (length3 (2, 0, 0)%R = 2%R) as ->.
  { unfold length3, dot. simpl.
    replace (_ + _)%R with (2 * 2)%R by lra. apply sqrt_square. lra. }
  destruct (Rlt_dec 2 EPS); [lra|].
  assert (vscale (1 / 2) (2, 0, 0)%R = (1, 0, 0)%R) as ->
    by (unfold vscale; simpl; repeat f_equal; lra).
  edestruct (kite_side 0) as (N0 & bv0 & al0 & ->); [by left|].
  cbn [mbind result_bind].
  edestruct (kite_side 1) as (N1 & bv1 & al1 & ->); [by right|].
  cbn [mbind result_bind snd CR_weight]. eexists. split; [reflexivity|].
  reflexivity.
Qed.

(** ** The normalization of the weights *)







(** * Further properties *)

(** ** What one step of the adjacency loop writes *)

Lemma adjacency_step_writes E U st k st' :
  adjacency_step E U st k = Some st' →
  length st'.1 = length st.1 ∧
  (∃ ext, st'.2 = st.2 ++ ext ∧ length ext ≤ length (U !!! k)) ∧
  ∀ q, q ∉ U !!! k → slot st'.1 q = slot st.1 q.
Proof.
  unfold adjacency_step. destruct st as [tn nm]. intros Hstep.
  assert (∀ j, j < length (U !!! k) → (U !!! k) !!! j ∈ U !!! k) as Hin.
  { intros j Hj. apply list_elem_of_lookup_total. exists j. split; [lia|done]. }
  repeat case_decide; simplify_eq; simpl.
  - split; [done|]. split; [exists []; split; [by rewrite app_nil_r|simpl; lia]|done].
  - split; [apply length_set_neighbor|].
    split; [exists []; split; [by rewrite app_nil_r|simpl; lia]|].
    intros q Hq. apply slot_set_ne. intros <-. apply Hq, Hin. lia.
  - split; [by rewrite !length_set_neighbor|].
    split; [exists []; split; [by rewrite app_nil_r|simpl; lia]|].
    intros q Hq. rewrite !slot_set_ne; [done|..];
      intros <-; apply Hq, Hin; lia.
  - destruct (nm_fold_spec (U !!! k) (U !!! k) (tn, nm)) as (F1 & F2 & F3).
    destruct (foldl (nm_step (U !!! k)) (tn, nm) (U !!! k)) as [tn' nm'].
    simpl in *. subst nm'. split; [done|]. split; [|done].
    eexists. split; [done|]. by rewrite length_fmap.
  - split; [done|]. split; [exists []; split; [by rewrite app_nil_r|simpl; lia]|done].
Qed.

Lemma adjacency_loop_inv E U (Inv : nat → list sid3 * list (list id) → Prop) m :
  ∀ k st st',
    adjacency_loop E U (seq k m) st = Some st' →
    Inv k st →
    (∀ j s s', k ≤ j < k + m → Inv j s → adjacency_step E U s j = Some s' →
               Inv (S j) s') →
    Inv (k + m) st'.
Proof.
  induction m as [|m IH]; intros k st st' Hrun Hinv Hstep; simpl in Hrun.
  - injection Hrun as <-. by rewrite Nat.add_0_r.
  - destruct (adjacency_step E U st k) as [s1|] eqn:Hs; [|done].
    replace (k + S m) with (S k + m) by lia.
    apply (IH (S k) s1 st' Hrun).
    + apply (Hstep k st s1); [lia|done..].
    + intros j s s' Hj. apply Hstep. lia.
Qed.

Lemma length_concat_take {A} (v : list (list A)) k :
  length (concat (take (S k) v)) =
  length (concat (take k v)) + length (v !!! k).
Proof.
  destruct (v !! k) as [l|] eqn:Hk.
  - rewrite (take_S_r _ _ _ Hk), (list_lookup_total_correct _ _ _ Hk).
    rewrite concat_app, length_app. simpl. by rewrite app_nil_r.
  - rewrite list_lookup_total_alt, Hk. apply lookup_ge_None in Hk.
    rewrite !take_ge by lia. simpl. lia.
Qed.

Lemma length_concat_take_le {A} (v : list (list A)) k :
  length (concat (take k v)) ≤ length (concat v).
Proof.
  rewrite <-(take_drop k v) at 2. rewrite concat_app, length_app. lia.
Qed.

(** The sizes kept by the loop: the adjacency table keeps its size and the
    non manifold neighbor list has at most one entry for each occurrence of
    the faces already seen. *)
Lemma adjacency_loop_sizes E U T n st' :
  adjacency_loop E U (seq 0 n) (replicate T
     (sid_of_id NO_ID, sid_of_id NO_ID, sid_of_id NO_ID), []) = Some st' →
  length st'.1 = T ∧ length st'.2 ≤ length (concat U).
Proof.
  intros Hrun.
  destruct (adjacency_loop_inv E U
              (λ j st, length st.1 = T ∧
                       length st.2 ≤ length (concat (take j U))) n 0 _ _ Hrun)
    as [H1 H2].
  - simpl. split; [apply length_replicate|lia].
  - intros j s s' _ [H1 H2] Hs.
    destruct (adjacency_step_writes _ _ _ _ _ Hs) as (L1 & (ext & L2 & L3) & _).
    split; [congruence|]. rewrite L2, length_app, length_concat_take. lia.
  - split; [done|].
    etrans; [exact H2|apply length_concat_take_le].
Qed.

(** ** The adjacency of one unique face *)

Lemma adjacencies_unfold tris adj :
  (N.of_nat (3 * length tris) ≤ id_modulus)%N →
  compute_triangle_adjacencies tris [] = Some adj →
  adjacency_loop (uIEdges adj) (uIEdgeToOld adj)
    (seq 0 (length (uIEdges adj)))
    (replicate (length tris)
       (sid_of_id NO_ID, sid_of_id NO_ID, sid_of_id NO_ID), [])
    = Some (triangle_neighbors adj, nm_triangle_neighbors adj) ∧
  occ_inv (old2IEdge adj) (N.of_nat (3 * length tris)) (uIEdgeToOld adj) ∧
  length (uIEdgeToOld adj) = length (uIEdges adj) ∧
  length (concat (uIEdgeToOld adj)) ≤ 3 * length tris.
Proof.
  intros Hb Hadj.
  unfold compute_triangle_adjacencies, sort_unique_with_perm in Hadj.
  set (E := sort_unique (all_faces tris)) in *.
  set (old := (λ x, to_id (N.of_nat (index_of x E))) <$> all_faces tris) in *.
  set (U := build_uIEdgeToOld old (length tris) (resize_vv (length E) []))
    in *.
  destruct (adjacency_loop E U (seq 0 (length E)) _) as [[tn nm]|] eqn:Hloop;
    [|done].
  injection Hadj as <-. simpl.
  destruct (build_uIEdgeToOld_spec old (length tris) (length E) Hb)
    as (Hinv & HlenU & Hcat).
  done.
Qed.

Lemma occ_inv_disjoint old bound U i occ k q :
  occ_inv old bound U → U !! i = Some occ → k ≠ i → q ∈ occ → q ∉ U !!! k.
Proof.
  intros Hinv Hi Hk Hq Hq'.
  assert (U !! k = Some (U !!! k)) as Hk'.
  { apply lookup_total_nonempty. destruct (U !!! k); [|simpl; lia].
    by apply elem_of_nil in Hq'. }
  destruct (Hinv i occ Hi) as [_ H1]. destruct (Hinv k _ Hk') as [_ H2].
  destruct (H1 q Hq) as [_ E1]. destruct (H2 q Hq') as [_ E2]. lia.
Qed.

Section target.
Variables (E : list id2) (U : list (list id)) (T n i : nat) (occ : list id).
Variables (Q0 Q : list sid3 * list (list id) → Prop).
Hypothesis HU : U !! i = Some occ.
Hypothesis Hdisj : ∀ k q, k ≠ i → q ∈ occ → q ∉ U !!! k.
Hypothesis Hcat : (N.of_nat (length (concat U)) ≤ id_modulus)%N.
Hypothesis Hstable0 :
  ∀ tn tn' nm ext,
    (∀ q, q ∈ occ → slot tn' q = slot tn q) → Q0 (tn, nm) → Q0 (tn', nm ++ ext).
Hypothesis Hstable :
  ∀ tn tn' nm ext,
    (∀ q, q ∈ occ → slot tn' q = slot tn q) → Q (tn, nm) → Q (tn', nm ++ ext).
Hypothesis Hestablish :
  ∀ st st',
    adjacency_step E U st i = Some st' → length st.1 = T →
    (N.of_nat (length st.2 + length occ) ≤ id_modulus)%N →
    Q0 st → Q st'.

Lemma adjacency_loop_target tn0 st' :
  adjacency_loop E U (seq 0 n) (tn0, []) = Some st' →
  length tn0 = T → Q0 (tn0, []) → i < n → Q st'.
Proof.
  intros Hrun HT HQ0 Hi.
  destruct (adjacency_loop_inv E U
              (λ j st, length st.1 = T ∧
                       length st.2 ≤ length (concat (take j U)) ∧
                       (j ≤ i → Q0 st) ∧ (i < j → Q st)) n 0 _ _ Hrun)
    as (_ & _ & _ & HQ); [| |by apply HQ].
  - simpl. split_and!; [done|lia|done|lia].
  - intros j [tn nm] s' _ (H1 & H2 & H3 & H4) Hs. simpl in *.
    destruct (adjacency_step_writes _ _ _ _ _ Hs) as (L1 & (ext & L2 & L3) & L4).
    simpl in *.
    assert (length s'.2 ≤ length (concat (take (S j) U))) as Hlen
      by (rewrite L2, length_app, length_concat_take; lia).
    split_and!; [congruence|done| |].
    + intros Hj. destruct s' as [tn' nm']. simpl in *. subst nm'.
      apply (Hstable0 tn); [|apply H3; lia].
      intros q Hq. apply L4. apply Hdisj; [lia|done].
    + intros Hj. destruct (decide (j = i)) as [->|Hne].
      * apply (Hestablish (tn, nm)); [done..| |apply H3; lia].
        simpl. pose proof (length_concat_take_le U (S i)) as Hle.
        rewrite length_concat_take, (list_lookup_total_correct _ _ _ HU) in Hle.
        lia.
      * destruct s' as [tn' nm']. simpl in *. subst nm'.
        apply (Hstable tn); [|apply H4; lia].
        intros q Hq. apply L4. apply Hdisj; [lia|done].
Qed.

End target.

Lemma slot_replicate T v p :
  (p < 3 * N.of_nat T)%N → slot (replicate T (v, v, v)) p = Some v.
Proof.
  intros Hp. unfold slot, get_neighbor.
  rewrite lookup_replicate_2.
  - simpl. f_equal. unfold at3. by destruct (N.to_nat (p mod 3)) as [|[|?]].
  - assert (p / 3 < N.of_nat T)%N; [|lia].
    apply N.Div0.div_lt_upper_bound; lia.
Qed.

(** X1: a unique face with exactly two occurrences links them to each other:
    the adjacency slot of each occurrence holds the face position of the
    other one. *)
Theorem regular_face_linked (tris : list id3) (adj : adjacencies) (i : nat)
    (o1 o2 : id) :
  (N.of_nat (3 * length tris) ≤ id_modulus)%N →
  compute_triangle_adjacencies tris [] = Some adj →
  uIEdgeToOld adj !! i = Some [o1; o2] →
  uIEdges adj !!! i ≠ NO_FACE →
  get_neighbor (triangle_neighbors adj) (o1 / 3) (o1 mod 3)
    = Some (sid_of_id o2) ∧
  get_neighbor (triangle_neighbors adj) (o2 / 3) (o2 mod 3)
    = Some (sid_of_id o1).
Proof.
  intros Hb Hadj HU HE.
  destruct (adjacencies_unfold tris adj Hb Hadj) as (Hloop & Hinv & HlenU & Hcat).
  destruct (Hinv i _ HU) as [Hnd Hel].
  assert (o1 ≠ o2) as Hne.
  { apply NoDup_cons in Hnd as [Hnd _]. intros ->. apply Hnd. by left. }
  apply (adjacency_loop_target (uIEdges adj) (uIEdgeToOld adj) (length tris)
           (length (uIEdges adj)) i [o1; o2] (λ _, True)
           (λ st, slot st.1 o1 = Some (sid_of_id o2) ∧
                  slot st.1 o2 = Some (sid_of_id o1)) HU)
    in Hloop; [exact Hloop|..].
  - intros k q Hk Hq. by eapply occ_inv_disjoint.
  - unfold id_modulus in *. lia.
  - done.
  - intros tn tn' nm ext Hs [H1 H2]. simpl in *.
    rewrite !Hs; [done|repeat constructor..].
  - intros [tn nm] st' Hstep HT _ _. simpl in *. unfold adjacency_step in Hstep.
    rewrite (list_lookup_total_correct _ _ _ HU) in Hstep.
    repeat case_decide; simplify_eq; simpl in *; try lia.
    assert (∀ o, (3 * (o / 3) + o mod 3)%N = o) as Hdm
      by (intros o; symmetry; apply N.div_mod; lia).
    rewrite !Hdm. split.
    + rewrite slot_set_ne by done. apply slot_set_eq.
      destruct (Hel o1) as [? _]; [by left|]. lia.
    + apply slot_set_eq. rewrite length_set_neighbor.
      destruct (Hel o2) as [? _]; [repeat constructor|]. lia.
  - apply length_replicate.
  - done.
  - rewrite <-HlenU. by apply lookup_lt_Some in HU.
Qed.

Lemma regular_face_linked_witness :
  get_neighbor (triangle_neighbors kite_adj) (0 / 3) (0 mod 3)
    = Some (sid_of_id 3) ∧
  get_neighbor (triangle_neighbors kite_adj) (3 / 3) (3 mod 3)
    = Some (sid_of_id 0).
Proof.
  apply (regular_face_linked (triangles kite) kite_adj 0 0%N 3%N).
  - by vm_compute.
  - reflexivity.
  - reflexivity.
  - by vm_compute.
Defined.

(** X2: a unique face with exactly one occurrence is a boundary: the
    adjacency slot of its occurrence holds the sentinel. *)
Theorem boundary_face_has_no_neighbor (tris : list id3) (adj : adjacencies)
    (i : nat) (o : id) :
  (N.of_nat (3 * length tris) ≤ id_modulus)%N →
  compute_triangle_adjacencies tris [] = Some adj →
  uIEdgeToOld adj !! i = Some [o] →
  get_neighbor (triangle_neighbors adj) (o / 3) (o mod 3)
    = Some (sid_of_id NO_ID).
Proof.
  intros Hb Hadj HU.
  destruct (adjacencies_unfold tris adj Hb Hadj) as (Hloop & Hinv & HlenU & Hcat).
  destruct (Hinv i _ HU) as [Hnd Hel].
  assert (o < 3 * N.of_nat (length tris))%N as Ho
    by (destruct (Hel o) as [? _]; [by left|lia]).
  apply (adjacency_loop_target (uIEdges adj) (uIEdgeToOld adj) (length tris)
           (length (uIEdges adj)) i [o]
           (λ st, slot st.1 o = Some (sid_of_id NO_ID))
           (λ st, slot st.1 o = Some (sid_of_id NO_ID)) HU)
    in Hloop; [exact Hloop|..].
  - intros k q Hk Hq. by eapply occ_inv_disjoint.
  - unfold id_modulus in *. lia.
  - intros tn tn' nm ext Hs H1. simpl in *. rewrite Hs; [done|by left].
  - intros tn tn' nm ext Hs H1. simpl in *. rewrite Hs; [done|by left].
  - intros [tn nm] st' Hstep HT _ H0. simpl in *. unfold adjacency_step in Hstep.
    rewrite (list_lookup_total_correct _ _ _ HU) in Hstep.
    repeat case_decide; simplify_eq; simpl in *; try lia; try done.
    apply slot_set_eq. lia.
  - apply length_replicate.
  - simpl. by apply slot_replicate.
  - rewrite <-HlenU. by apply lookup_lt_Some in HU.
Qed.

Lemma boundary_face_has_no_neighbor_witness :
  get_neighbor (triangle_neighbors kite_adj) (2 / 3) (2 mod 3)
    = Some (sid_of_id NO_ID).
Proof.
  apply (boundary_face_has_no_neighbor (triangles kite) kite_adj 1 2%N).
  - by vm_compute.
  - reflexivity.
  - reflexivity.
Defined.

(** ** Non manifold faces *)

Lemma length_filter_ne (occ : list id) o :
  NoDup occ → o ∈ occ → length (filter (λ ok, ok ≠ o) occ) = length occ - 1.
Proof.
  induction occ as [|x occ IH]; intros Hnd Ho; [by apply elem_of_nil in Ho|].
  apply NoDup_cons in Hnd as [Hx Hnd]. rewrite filter_cons.
  apply elem_of_cons in Ho as [->|Ho].
  - rewrite decide_False by (intros H; by apply H). simpl.
    rewrite Nat.sub_0_r. clear IH. induction occ as [|y occ IH]; [done|].
    apply not_elem_of_cons in Hx as [Hxy Hx].
    apply NoDup_cons in Hnd as [_ Hnd].
    rewrite filter_cons_True by done. simpl. by rewrite IH.
  - rewrite decide_True by (intros ->; done). simpl. rewrite IH by done.
    destruct occ; [by apply elem_of_nil in Ho|simpl; lia].
Qed.

Lemma nm_fold_slots occ os :
  ∀ st,
    NoDup os →
    (∀ o, o ∈ os → (o < 3 * N.of_nat (length st.1))%N) →
    (N.of_nat (length st.2 + length os) ≤ id_modulus)%N →
    ∀ j o, os !! j = Some o →
      (foldl (nm_step occ) st os).2 !! (length st.2 + j)
        = Some (filter (λ ok, ok ≠ o) occ) ∧
      slot (foldl (nm_step occ) st os).1 o
        = Some (- (Z.of_nat (length st.2 + j) + 1))%Z.
Proof.
  induction os as [|o0 os IH]; intros [tn nm] Hnd Hlt Hb j o Hj; [done|].
  apply NoDup_cons in Hnd as [Ho0 Hnd]. simpl in *.
  set (st1 := nm_step occ (tn, nm) o0).
  destruct (nm_fold_spec occ os st1) as (F1 & F2 & F3).
  assert (length st1.1 = length tn) as L1 by apply length_set_neighbor.
  assert (length st1.2 = S (length nm)) as L2
    by (simpl; rewrite length_app; simpl; lia).
  destruct j as [|j].
  - injection Hj as <-. split.
    + rewrite F2. simpl. rewrite Nat.add_0_r.
      rewrite <-app_assoc. by rewrite lookup_app_r, Nat.sub_diag.
    + rewrite F3 by done. simpl. rewrite slot_set_eq by (apply Hlt; by left).
      rewrite to_id_small by lia. f_equal. unfold sid_of_id. lia.
  - destruct (IH st1 Hnd) with (j := j) (o := o) as [H1 H2]; [| |done|].
    + intros o' Ho'. rewrite L1. apply Hlt. by right.
    + rewrite L2. lia.
    + rewrite L2 in H1, H2.
      replace (length nm + S j) with (S (length nm) + j) by lia. done.
Qed.

(** X3: a unique face with more than two occurrences gets one entry of the
    non manifold neighbor list for each of its occurrences, at consecutive
    positions; the entry of an occurrence holds all the other occurrences, so
    it is one shorter than the list of occurrences, and the adjacency slot of
    the occurrence holds the negative encoding of the position of its
    entry. *)
Theorem nonmanifold_face_entries (tris : list id3) (adj : adjacencies)
    (i : nat) (occ : list id) :
  (N.of_nat (3 * length tris) ≤ id_modulus)%N →
  compute_triangle_adjacencies tris [] = Some adj →
  uIEdgeToOld adj !! i = Some occ →
  2 < length occ →
  uIEdges adj !!! i ≠ NO_FACE →
  ∃ pos : nat,
    ∀ j o, occ !! j = Some o →
      nm_triangle_neighbors adj !! (pos + j)
        = Some (filter (λ ok, ok ≠ o) occ) ∧
      length (filter (λ ok, ok ≠ o) occ) = length occ - 1 ∧
      get_neighbor (triangle_neighbors adj) (o / 3) (o mod 3)
        = Some (- (Z.of_nat (pos + j) + 1))%Z.
Proof.
  intros Hb Hadj HU Hlen HE.
  destruct (adjacencies_unfold tris adj Hb Hadj) as (Hloop & Hinv & HlenU & Hcat).
  destruct (Hinv i _ HU) as [Hnd Hel].
  apply (adjacency_loop_target (uIEdges adj) (uIEdgeToOld adj) (length tris)
           (length (uIEdges adj)) i occ (λ _, True)
           (λ st, ∃ pos : nat, ∀ j o, occ !! j = Some o →
              st.2 !! (pos + j) = Some (filter (λ ok, ok ≠ o) occ) ∧
              slot st.1 o = Some (- (Z.of_nat (pos + j) + 1))%Z) HU)
    in Hloop.
  - destruct Hloop as [pos Hpos]. exists pos. intros j o Hj.
    destruct (Hpos j o Hj) as [H1 H2]. split_and!; [done| |done].
    apply length_filter_ne; [done|]. by eapply list_elem_of_lookup_2.
  - intros k q Hk Hq. by eapply occ_inv_disjoint.
  - unfold id_modulus in *. lia.
  - done.
  - intros tn tn' nm ext Hs [pos Hpos]. exists pos. intros j o Hj.
    destruct (Hpos j o Hj) as [H1 H2]. simpl in *.
    rewrite Hs by (by eapply list_elem_of_lookup_2).
    split; [by apply lookup_app_l_Some|done].
  - intros [tn nm] st' Hstep HT Hbd _. simpl in *. unfold adjacency_step in Hstep.
    rewrite (list_lookup_total_correct _ _ _ HU) in Hstep.
    repeat case_decide; simplify_eq; simpl in *; try lia.
    exists (length nm). intros j o Hj.
    apply (nm_fold_slots occ occ (tn, nm)); simpl; try done.
    intros o' Ho'. destruct (Hel o' Ho') as [? _]. lia.
  - apply length_replicate.
  - done.
  - rewrite <-HlenU. by apply lookup_lt_Some in HU.
Qed.

Lemma nonmanifold_face_entries_witness :
  ∃ pos : nat,
    ∀ j o, [0; 3; 6]%N !! j = Some o →
      nm_triangle_neighbors fan_adj !! (pos + j)
        = Some (filter (λ ok, ok ≠ o) [0; 3; 6]%N) ∧
      length (filter (λ ok, ok ≠ o) [0; 3; 6]%N) = length [0; 3; 6]%N - 1 ∧
      get_neighbor (triangle_neighbors fan_adj) (o / 3) (o mod 3)
        = Some (- (Z.of_nat (pos + j) + 1))%Z.
Proof.
  apply (nonmanifold_face_entries fan fan_adj 0 [0; 3; 6]%N).
  - by vm_compute.
  - reflexivity.
  - reflexivity.
  - simpl. lia.
  - by vm_compute.
Defined.

(** ** The values of the adjacency slots *)

Lemma slot_ok_mono T l l' v : l ≤ l' → slot_ok T l v → slot_ok T l' v.
Proof. intros Hl [?|[?|[? ?]]]; unfold slot_ok; [auto..|]. right; right. lia. Qed.

Lemma adjacency_step_slot_ok E U T st k st' :
  adjacency_step E U st k = Some st' →
  length st.1 = T →
  (∀ o, o ∈ U !!! k → (o < 3 * N.of_nat T)%N) →
  NoDup (U !!! k) →
  (N.of_nat (length st.2 + length (U !!! k)) ≤ id_modulus)%N →
  (∀ p, (p < 3 * N.of_nat T)%N →
        ∃ v, slot st.1 p = Some v ∧ slot_ok T (length st.2) v) →
  ∀ p, (p < 3 * N.of_nat T)%N →
       ∃ v, slot st'.1 p = Some v ∧ slot_ok T (length st'.2) v.
Proof.
  intros Hstep HT Hlt Hnd Hb Hok p Hp.
  destruct (adjacency_step_writes _ _ _ _ _ Hstep) as (L1 & (ext & L2 & L3) & L4).
  destruct (decide (p ∈ U !!! k)) as [Hin|Hin].
  2:{ destruct (Hok p Hp) as (v & Hv & Hvok). exists v. rewrite L4 by done.
      split; [done|]. eapply slot_ok_mono; [|done].
      rewrite L2, length_app. lia. }
  assert (∀ o, (3 * (o / 3) + o mod 3)%N = o) as Hdm
    by (intros o; symmetry; apply N.div_mod; lia).
  unfold adjacency_step in Hstep. destruct st as [tn nm]. simpl in *.
  case_decide.
  { injection Hstep as <-. apply Hok, Hp. }
  do 2 (case_decide; [done|]).
  destruct (U !!! k) as [|a [|b [|c l]]] eqn:HUk; simpl in Hstep.
  - by apply elem_of_nil in Hin.
  - injection Hstep as <-. apply list_elem_of_singleton in Hin as ->. simpl.
    exists (sid_of_id NO_ID). split; [apply slot_set_eq; lia|by left].
  - injection Hstep as <-. simpl. rewrite !Hdm.
    apply NoDup_cons in Hnd as [Hab _].
    assert (a ≠ b) as Hne by (intros ->; apply Hab; by left).
    apply elem_of_cons in Hin as [->|Hin];
      [|apply list_elem_of_singleton in Hin as ->].
    + exists (sid_of_id b). split.
      * rewrite slot_set_ne by done. apply slot_set_eq. lia.
      * right; left. unfold sid_of_id.
        specialize (Hlt b ltac:(repeat constructor)). lia.
    + exists (sid_of_id a). split.
      * apply slot_set_eq. rewrite length_set_neighbor. lia.
      * right; left. unfold sid_of_id.
        specialize (Hlt a ltac:(repeat constructor)). lia.
  - injection Hstep as <-.
    apply list_elem_of_lookup in Hin as [j Hj].
    destruct (nm_fold_slots (a :: b :: c :: l) (a :: b :: c :: l) (tn, nm)
                Hnd) with (j := j) (o := p) as [G1 G2]; simpl; try done.
    + intros o Ho. rewrite HT. by apply Hlt.
    + eexists. split; [exact G2|]. right; right.
      apply lookup_lt_Some in G1, Hj. simpl in *. lia.
Qed.

(** X4: when [compute_triangle_adjacencies] returns true, the adjacency
    table has one row for each triangle, and each of its slots holds the
    sentinel, a face position, or the negative encoding [-(pos+1)] of a
    position [pos] of the non manifold neighbor list. *)
Theorem adjacency_slots_well_formed (tris : list id3) (adj : adjacencies) :
  (N.of_nat (3 * length tris) ≤ id_modulus)%N →
  compute_triangle_adjacencies tris [] = Some adj →
  length (triangle_neighbors adj) = length tris ∧
  ∀ t lf : id, (t < N.of_nat (length tris))%N → (lf < 3)%N →
    ∃ v, get_neighbor (triangle_neighbors adj) t lf = Some v ∧
         slot_ok (length tris) (length (nm_triangle_neighbors adj)) v.
Proof.
  intros Hb Hadj.
  destruct (adjacencies_unfold tris adj Hb Hadj) as (Hloop & Hinv & HlenU & Hcat).
  destruct (adjacency_loop_inv (uIEdges adj) (uIEdgeToOld adj)
              (λ j st, length st.1 = length tris ∧
                       length st.2 ≤ length (concat (take j (uIEdgeToOld adj))) ∧
                       ∀ p, (p < 3 * N.of_nat (length tris))%N →
                            ∃ v, slot st.1 p = Some v ∧
                                 slot_ok (length tris) (length st.2) v)
              _ 0 _ _ Hloop) as (H1 & H2 & H3).
  - simpl. split_and!; [apply length_replicate|lia|].
    intros p Hp. exists (sid_of_id NO_ID).
    split; [by apply slot_replicate|by left].
  - intros j s s' Hj (I1 & I2 & I3) Hs.
    destruct (adjacency_step_writes _ _ _ _ _ Hs) as (L1 & (ext & L2 & L3) & _).
    assert (length s'.2 ≤ length (concat (take (S j) (uIEdgeToOld adj))))
      as Hlen by (rewrite L2, length_app, length_concat_take; lia).
    split_and!; [congruence|done|].
    assert (uIEdgeToOld adj !! j = Some (uIEdgeToOld adj !!! j)) as HUj.
    { apply list_lookup_lookup_total_lt. lia. }
    destruct (Hinv j _ HUj) as [Hnd Hel].
    apply (adjacency_step_slot_ok _ _ _ _ _ _ Hs I1); [|done| |done].
    + intros o Ho. destruct (Hel o Ho) as [? _]. lia.
    + pose proof (length_concat_take_le (uIEdgeToOld adj) (S j)) as Hle.
      rewrite length_concat_take in Hle. unfold id_modulus in *. lia.
  - simpl in *. split; [done|]. intros t lf Ht Hlf.
    destruct (H3 (3 * t + lf)%N) as (v & Hv & Hvok); [lia|].
    exists v. split; [|done]. unfold slot in Hv.
    replace ((3 * t + lf) / 3)%N with t in Hv
      by (apply (N.div_unique _ _ _ lf); lia).
    replace ((3 * t + lf) mod 3)%N with lf in Hv
      by (apply (N.mod_unique _ _ t); lia).
    done.
Qed.

Lemma adjacency_slots_well_formed_witness :
  length (triangle_neighbors fan_adj) = length fan ∧
  ∀ t lf : id, (t < N.of_nat (length fan))%N → (lf < 3)%N →
    ∃ v, get_neighbor (triangle_neighbors fan_adj) t lf = Some v ∧
         slot_ok (length fan) (length (nm_triangle_neighbors fan_adj)) v.
Proof.
  apply (adjacency_slots_well_formed fan fan_adj).
  - by vm_compute.
  - reflexivity.
Defined.

(** ** When the adjacency builder fails *)

Lemma adjacency_step_none (E : list id2) U st i :
  adjacency_step E U st i = None →
  E !!! i ≠ NO_FACE ∧ ((E !!! i).1 = NO_ID ∨ (E !!! i).2 = NO_ID).
Proof.
  unfold adjacency_step. intros H. repeat case_decide; try done; auto.
Qed.

Lemma adjacency_loop_none (E : list id2) U idx :
  ∀ st, adjacency_loop E U idx st = None →
  ∃ i, i ∈ idx ∧ E !!! i ≠ NO_FACE ∧
       ((E !!! i).1 = NO_ID ∨ (E !!! i).2 = NO_ID).
Proof.
  induction idx as [|k idx IH]; intros st H; [done|]. simpl in H.
  destruct (adjacency_step E U st k) as [st'|] eqn:Hs.
  - destruct (IH _ H) as (i & Hi & Hne). exists i. split; [by right|done].
  - exists k. split; [by left|]. by eapply adjacency_step_none.
Qed.

Lemma elem_of_insert_unique x l z :
  z ∈ insert_unique x l ↔ z = x ∨ z ∈ l.
Proof.
  induction l as [|y l IH]; simpl.
  - rewrite list_elem_of_singleton, elem_of_nil. tauto.
  - destruct (id2_ltb x y); [by rewrite elem_of_cons|].
    destruct (id2_eqb x y) eqn:Hxy.
    + apply id2_eqb_spec in Hxy as ->. rewrite elem_of_cons. tauto.
    + rewrite !elem_of_cons, IH. tauto.
Qed.

Lemma elem_of_sort_unique z l : z ∈ sort_unique l ↔ z ∈ l.
Proof.
  induction l as [|x l IH]; simpl; [done|].
  by rewrite elem_of_insert_unique, elem_of_cons, IH.
Qed.

Lemma elem_of_all_faces f tris :
  f ∈ all_faces tris ↔
  ∃ t lf, t ∈ tris ∧ lf < 3 ∧
          f = sort_face (at3 t lf, at3 t ((lf + 1) mod 3)).
Proof.
  unfold all_faces, triangle_faces, NBF. rewrite list_elem_of_bind. split.
  - intros (t & Hf & Ht). apply list_elem_of_fmap in Hf as (lf & -> & Hlf).
    apply elem_of_seq in Hlf. exists t, lf. split_and!; [done|lia|done].
  - intros (t & lf & Ht & Hlf & ->). exists t. split; [|done].
    apply list_elem_of_fmap. exists lf. split; [done|]. apply elem_of_seq. lia.
Qed.

(** X5: [compute_triangle_adjacencies] returns false exactly when a side of
    some triangle has the sentinel [NO_ID] at one of its two ends only,
    whatever the output vector [uIEdgeToOld] holds on entry. *)
Theorem adjacencies_fail_iff (tris : list id3) (uIEdgeToOld0 : list (list id)) :
  compute_triangle_adjacencies tris uIEdgeToOld0 = None ↔
  ∃ t lf, t ∈ tris ∧ lf < 3 ∧
    ((at3 t lf = NO_ID ∧ at3 t ((lf + 1) mod 3) ≠ NO_ID) ∨
     (at3 t lf ≠ NO_ID ∧ at3 t ((lf + 1) mod 3) = NO_ID)).
Proof.
  assert (∀ a b : id,
            (sort_face (a, b) ≠ NO_FACE ∧
             ((sort_face (a, b)).1 = NO_ID ∨ (sort_face (a, b)).2 = NO_ID)) ↔
            ((a = NO_ID ∧ b ≠ NO_ID) ∨ (a ≠ NO_ID ∧ b = NO_ID))) as Hface.
  { intros a b. unfold sort_face, NO_FACE. simpl.
    destruct (b <? a)%N; simpl; split.
    - intros [Hne [->| ->]]; [right|left]; split; try done; congruence.
    - intros [[-> Hb]|[Ha ->]]; (split; [congruence|auto]).
    - intros [Hne [->| ->]]; [left|right]; split; try done; congruence.
    - intros [[-> Hb]|[Ha ->]]; (split; [congruence|auto]). }
  split.
  - intros H. unfold compute_triangle_adjacencies, sort_unique_with_perm in H.
    destruct (adjacency_loop _ _ _ _) as [st|] eqn:Hloop; [done|].
    apply adjacency_loop_none in Hloop as (i & Hi & Hne & Hs).
    apply elem_of_seq in Hi.
    assert (sort_unique (all_faces tris) !!! i ∈ all_faces tris) as Hin.
    { apply elem_of_sort_unique. apply list_elem_of_lookup_total_2. lia. }
    apply elem_of_all_faces in Hin as (t & lf & Ht & Hlf & Heq).
    exists t, lf. split_and!; [done..|]. apply Hface. by rewrite <-Heq.
  - intros (t & lf & Ht & Hlf & Hs).
    assert (sort_face (at3 t lf, at3 t ((lf + 1) mod 3))
              ∈ sort_unique (all_faces tris)) as Hin.
    { apply elem_of_sort_unique, elem_of_all_faces. by exists t, lf. }
    apply list_elem_of_lookup in Hin as [i Hi].
    apply Hface in Hs as [Hne Hs].
    unfold compute_triangle_adjacencies, sort_unique_with_perm.
    assert (i ∈ seq 0 (length (sort_unique (all_faces tris)))) as Hseq.
    { apply elem_of_seq. apply lookup_lt_Some in Hi. lia. }
    by rewrite (adjacency_loop_sentinel _ _ _ i _ Hseq Hi Hne Hs).
Qed.

(** ** The output vector [uIEdgeToOld] is not cleared *)

Lemma push_at_lookup {A} (i k : nat) (x : A) (v : list (list A)) (l : list A) :
  v !! i = Some l →
  push_at k x v !! i = Some (if decide (k = i) then l ++ [x] else l).
Proof.
  intros Hi. unfold push_at. destruct (decide (k = i)) as [->|Hne].
  - by rewrite list_lookup_alter_eq, Hi.
  - by rewrite list_lookup_alter_ne.
Qed.

Lemma build_uIEdgeToOld_lookup (old : list id) nbTriangles U i l :
  U !! i = Some l →
  build_uIEdgeToOld old nbTriangles U !! i
    = Some (l ++ filter (λ p, N.to_nat (old !!! N.to_nat p) = i)
                   (face_positions nbTriangles)).
Proof.
  unfold build_uIEdgeToOld. generalize (face_positions nbTriangles).
  intros ps. revert U l. induction ps as [|p ps IH]; intros U l HU.
  - simpl. by rewrite app_nil_r.
  - cbn [foldl]. rewrite (IH _ _ (push_at_lookup i _ p U l HU)).
    rewrite filter_cons. destruct (decide (_ = i)); [|done].
    by rewrite <-app_assoc.
Qed.

(** X6: the output vector [uIEdgeToOld] is resized, not cleared: the list of
    a unique face is what the vector held at this index on entry, followed by
    the occurrences of the face, that is the face positions that [old2IEdge]
    maps to it, in the order of the loop. *)
Theorem stale_occurrences_kept (tris : list id3) (uIEdgeToOld0 : list (list id))
    (adj : adjacencies) (i : nat) (occ0 : list id) :
  compute_triangle_adjacencies tris uIEdgeToOld0 = Some adj →
  i < length (uIEdges adj) →
  uIEdgeToOld0 !! i = Some occ0 →
  uIEdgeToOld adj !! i
    = Some (occ0 ++ filter (λ p, N.to_nat (old2IEdge adj !!! N.to_nat p) = i)
                      (face_positions (length tris))).
Proof.
  intros Hadj Hi H0.
  unfold compute_triangle_adjacencies, sort_unique_with_perm in Hadj.
  destruct (adjacency_loop _ _ _ _) as [st|]; [|done].
  injection Hadj as <-. cbn [uIEdges old2IEdge uIEdgeToOld] in *.
  apply build_uIEdgeToOld_lookup.
  unfold resize_vv. apply lookup_lt_Some in H0 as Hlt.
  rewrite lookup_app_l by (rewrite length_take; lia).
  by rewrite lookup_take_lt.
Qed.

Lemma stale_occurrences_kept_witness :
  uIEdgeToOld
    {| triangle_neighbors := [(1, 4294967295, 4294967295)%Z];
       nm_triangle_neighbors := [];
       uIEdges := [(0, 1); (0, 2); (1, 2)]%N;
       old2IEdge := [0; 2; 1]%N;
       uIEdgeToOld := [[1; 0]; [2]; [1]]%N |} !! 0
  = Some ([1%N] ++ [0%N]).
Proof.
  apply (stale_occurrences_kept [(0, 1, 2)%N] [[1%N]]
           {| triangle_neighbors := [(1, 4294967295, 4294967295)%Z];
              nm_triangle_neighbors := [];
              uIEdges := [(0, 1); (0, 2); (1, 2)]%N;
              old2IEdge := [0; 2; 1]%N;
              uIEdgeToOld := [[1; 0]; [2]; [1]]%N |} 0 [1%N]).
  - reflexivity.
  - simpl. lia.
  - reflexivity.
Defined.

(** ** The occurrence lists and the map [old2IEdge] *)

Lemma index_of_lookup x l : x ∈ l → l !! index_of x l = Some x.
Proof.
  induction l as [|y l IH]; intros Hx; [by apply elem_of_nil in Hx|].
  simpl. destruct (id2_eqb x y) eqn:Hxy.
  - apply id2_eqb_spec in Hxy as ->. done.
  - apply elem_of_cons in Hx as [->|Hx]; [|by apply IH].
    assert (id2_eqb y y = true) by by apply id2_eqb_spec. congruence.
Qed.

Lemma push_at_elem_of {A} (i k : nat) (x q : A) (v : list (list A)) :
  q ∈ v !!! i → q ∈ push_at k x v !!! i.
Proof.
  unfold push_at. intros Hq.
  destruct (decide (k = i)) as [->|Hne].
  - destruct (v !! i) as [l|] eqn:Hi.
    + rewrite (list_lookup_total_correct _ _ _ Hi) in Hq.
      erewrite list_lookup_total_correct;
        [|by rewrite list_lookup_alter_eq, Hi].
      apply elem_of_app. by left.
    + rewrite list_lookup_total_alt, Hi in Hq. by apply elem_of_nil in Hq.
  - by rewrite list_lookup_total_alter_ne.
Qed.

Lemma push_at_here {A} (k : nat) (x : A) (v : list (list A)) :
  k < length v → x ∈ push_at k x v !!! k.
Proof.
  intros Hk. apply lookup_lt_is_Some in Hk as [l Hl]. unfold push_at.
  erewrite list_lookup_total_correct; [|by rewrite list_lookup_alter_eq, Hl].
  apply elem_of_app. right. by left.
Qed.

Lemma build_prefix_complete (old : list id) (U0 : list (list id)) m :
  (N.of_nat m ≤ id_modulus)%N →
  (∀ k, k < m → N.to_nat (old !!! k) < length U0) →
  let U := foldl (λ acc facePos,
                    push_at (N.to_nat (old !!! N.to_nat facePos)) facePos acc)
                 U0 ((λ k, to_id (N.of_nat k)) <$> seq 0 m) in
  length U = length U0 ∧
  ∀ k, k < m → N.of_nat k ∈ U !!! N.to_nat (old !!! k).
Proof.
  intros Hm Hold. induction m as [|m IH]; [simpl; split; [done|lia]|].
  destruct IH as [IH1 IH2]; [lia|intros k Hk; apply Hold; lia|].
  cbv zeta in *. rewrite seq_S, fmap_app, foldl_app. simpl.
  rewrite to_id_small by lia. rewrite Nat2N.id. split.
  - by rewrite length_push_at.
  - intros k Hk. destruct (decide (k = m)) as [->|Hne].
    + apply push_at_here. rewrite IH1. by apply Hold.
    + apply push_at_elem_of. apply IH2. lia.
Qed.

Lemma old2IEdge_small (tris : list id3) k :
  (N.of_nat (3 * length tris) ≤ id_modulus)%N →
  k < 3 * length tris →
  let E := sort_unique (all_faces tris) in
  let old := (λ x, to_id (N.of_nat (index_of x E))) <$> all_faces tris in
  old !!! k = N.of_nat (index_of (all_faces tris !!! k) E) ∧
  E !! index_of (all_faces tris !!! k) E = Some (all_faces tris !!! k).
Proof.
  intros Hb Hk E old.
  assert (all_faces tris !! k = Some (all_faces tris !!! k)) as Hf.
  { apply list_lookup_lookup_total_lt. by rewrite length_all_faces. }
  assert (E !! index_of (all_faces tris !!! k) E = Some (all_faces tris !!! k))
    as HE.
  { apply index_of_lookup, elem_of_sort_unique.
    by eapply list_elem_of_lookup_2. }
  split; [|done].
  unfold old. erewrite list_lookup_total_correct;
    [|by rewrite list_lookup_fmap, Hf].
  apply to_id_small. apply lookup_lt_Some in HE.
  pose proof (length_sort_unique (all_faces tris)) as Hle.
  rewrite length_all_faces in Hle. fold E in Hle. unfold id_modulus in *. lia.
Qed.

Lemma occurrences_complete (tris : list id3) (adj : adjacencies) (k : nat) :
  (N.of_nat (3 * length tris) ≤ id_modulus)%N →
  compute_triangle_adjacencies tris [] = Some adj →
  k < 3 * length tris →
  N.to_nat (old2IEdge adj !!! k) < length (uIEdges adj) ∧
  uIEdges adj !! N.to_nat (old2IEdge adj !!! k) = Some (all_faces tris !!! k) ∧
  N.of_nat k ∈ uIEdgeToOld adj !!! N.to_nat (old2IEdge adj !!! k).
Proof.
  intros Hb Hadj Hk.
  unfold compute_triangle_adjacencies, sort_unique_with_perm in Hadj.
  set (E := sort_unique (all_faces tris)) in *.
  set (old := (λ x, to_id (N.of_nat (index_of x E))) <$> all_faces tris) in *.
  destruct (adjacency_loop _ _ _ _) as [st|]; [|done].
  injection Hadj as <-. simpl.
  assert (∀ j, j < 3 * length tris → N.to_nat (old !!! j) < length E) as Hold.
  { intros j Hj. destruct (old2IEdge_small tris j Hb Hj) as [H1 H2].
    fold E old in H1, H2. rewrite H1, Nat2N.id. by apply lookup_lt_Some in H2. }
  destruct (old2IEdge_small tris k Hb Hk) as [H1 H2]. fold E old in H1, H2.
  split_and!; [by apply Hold|by rewrite H1, Nat2N.id|].
  unfold build_uIEdgeToOld, face_positions, resize_vv, NBF.
  rewrite take_nil, app_nil_l.
  change (length E - length (@nil (list N))) with (length E - 0).
  rewrite Nat.sub_0_r.
  destruct (build_prefix_complete old (replicate (length E) [])
              (3 * length tris) Hb) as [_ Hc].
  - intros j Hj. rewrite length_replicate. by apply Hold.
  - by apply Hc.
Qed.

(** X7: the occurrence lists invert the map [old2IEdge]: the list of the
    unique face [i] holds exactly the face positions that [old2IEdge] maps
    to [i]. *)
Theorem occurrences_invert_old2IEdge (tris : list id3) (adj : adjacencies)
    (i : nat) (p : id) :
  (N.of_nat (3 * length tris) ≤ id_modulus)%N →
  compute_triangle_adjacencies tris [] = Some adj →
  i < length (uIEdges adj) →
  p ∈ uIEdgeToOld adj !!! i ↔
  (p < N.of_nat (3 * length tris))%N ∧
  N.to_nat (old2IEdge adj !!! N.to_nat p) = i.
Proof.
  intros Hb Hadj Hi.
  destruct (adjacencies_unfold tris adj Hb Hadj) as (_ & Hinv & HlenU & _).
  split.
  - intros Hp.
    assert (uIEdgeToOld adj !! i = Some (uIEdgeToOld adj !!! i)) as HU.
    { apply list_lookup_lookup_total_lt. lia. }
    destruct (Hinv i _ HU) as [_ Hel]. by apply Hel.
  - intros [Hp <-].
    destruct (occurrences_complete tris adj (N.to_nat p) Hb Hadj)
      as (_ & _ & H); [lia|]. by rewrite N2Nat.id in H.
Qed.

Lemma occurrences_invert_old2IEdge_witness :
  3%N ∈ uIEdgeToOld kite_adj !!! 0 ↔
  (3 < N.of_nat (3 * length (triangles kite)))%N ∧
  N.to_nat (old2IEdge kite_adj !!! N.to_nat 3) = 0.
Proof.
  apply (occurrences_invert_old2IEdge (triangles kite) kite_adj 0 3%N).
  - by vm_compute.
  - reflexivity.
  - simpl. lia.
Defined.

(** ** The adjacency is symmetric *)

(** X8: a slot of the adjacency table that holds a face position (not the
    sentinel and not a negative entry) holds the position of a face whose
    own slot points back. *)
Theorem adjacency_symmetric (tris : list id3) (adj : adjacencies)
    (t lf : id) (v : sid) :
  (N.of_nat (3 * length tris) ≤ id_modulus)%N →
  compute_triangle_adjacencies tris [] = Some adj →
  (t < N.of_nat (length tris))%N → (lf < 3)%N →
  get_neighbor (triangle_neighbors adj) t lf = Some v →
  (0 ≤ v)%Z → v ≠ sid_of_id NO_ID →
  get_neighbor (triangle_neighbors adj) (Z.to_N v / 3) (Z.to_N v mod 3)
    = Some (sid_of_id (3 * t + lf)).
Proof.
  intros Hb Hadj Ht Hlf Hv Hv0 HvN.
  set (p := (3 * t + lf)%N).
  assert (p / 3 = t)%N as Hpt
    by (symmetry; apply (N.div_unique _ _ _ lf); unfold p; lia).
  assert (p mod 3 = lf)%N as Hpl
    by (symmetry; apply (N.mod_unique _ _ t); unfold p; lia).
  assert (slot (triangle_neighbors adj) p = Some v) as Hslot
    by (unfold slot; by rewrite Hpt, Hpl).
  destruct (occurrences_complete tris adj (N.to_nat p) Hb Hadj)
    as (Hi & _ & Hp); [unfold p; lia|].
  rewrite N2Nat.id in Hp.
  set (i := N.to_nat (old2IEdge adj !!! N.to_nat p)) in *.
  destruct (adjacencies_unfold tris adj Hb Hadj) as (Hloop & Hinv & HlenU & Hcat).
  assert (uIEdgeToOld adj !! i = Some (uIEdgeToOld adj !!! i)) as HU.
  { apply list_lookup_lookup_total_lt. lia. }
  set (occ := uIEdgeToOld adj !!! i) in *.
  destruct (Hinv i _ HU) as [Hnd Hel].
  set (Q := λ st : list sid3 * list (list id),
              ∀ q w, q ∈ occ → slot st.1 q = Some w →
                     (0 ≤ w)%Z → w ≠ sid_of_id NO_ID →
                     Z.to_N w ∈ occ ∧
                     slot st.1 (Z.to_N w) = Some (sid_of_id q)).
  cut (Q (triangle_neighbors adj, nm_triangle_neighbors adj)).
  { intros HQ. by destruct (HQ p v Hp Hslot Hv0 HvN) as [_ H]. }
  apply (adjacency_loop_target (uIEdges adj) (uIEdgeToOld adj) (length tris)
           (length (uIEdges adj)) i occ
           (λ st, ∀ q, q ∈ occ → slot st.1 q = Some (sid_of_id NO_ID))
           Q HU)
    with (tn0 := replicate (length tris)
                   (sid_of_id NO_ID, sid_of_id NO_ID, sid_of_id NO_ID));
    unfold Q; clear Q.
  - intros k q Hk Hq. by eapply occ_inv_disjoint.
  - unfold id_modulus in *. lia.
  - intros tn tn' nm ext Hs H q Hq. simpl in *. rewrite Hs by done. by apply H.
  - intros tn tn' nm ext Hs H q w Hq Hw Hw0 HwN. simpl in *.
    rewrite Hs in Hw by done.
    destruct (H q w Hq Hw Hw0 HwN) as [H1 H2]. split; [done|].
    by rewrite Hs.
  - intros [tn nm] st' Hstep HT Hsz H0 q w Hq Hw Hw0 HwN. simpl in *.
    assert (∀ o, (3 * (o / 3) + o mod 3)%N = o) as Hdm
      by (intros o; symmetry; apply N.div_mod; lia).
    unfold adjacency_step in Hstep. fold occ in Hstep.
    case_decide.
    { injection Hstep as <-. simpl in Hw. rewrite (H0 q Hq) in Hw. congruence. }
    do 2 (case_decide; [done|]).
    destruct occ as [|a [|b [|c l]]] eqn:Hocc; simpl in Hstep.
    + by apply elem_of_nil in Hq.
    + injection Hstep as <-. apply list_elem_of_singleton in Hq as ->.
      simpl in Hw. rewrite slot_set_eq in Hw; [congruence|].
      destruct (Hel a) as [? _]; [by left|]. lia.
    + injection Hstep as <-. simpl in *. rewrite !Hdm in *.
      apply NoDup_cons in Hnd as [Hab _].
      assert (a ≠ b) as Hne by (intros ->; apply Hab; by left).
      assert (a < 3 * N.of_nat (length tn))%N as Ha
        by (destruct (Hel a) as [? _]; [by left|lia]).
      assert (b < 3 * N.of_nat (length tn))%N as Hb'
        by (destruct (Hel b) as [? _]; [repeat constructor|lia]).
      apply elem_of_cons in Hq as [->|Hq];
        [|apply list_elem_of_singleton in Hq as ->].
      * rewrite slot_set_ne, slot_set_eq in Hw by done.
        injection Hw as <-. unfold sid_of_id. rewrite N2Z.id. split.
        -- repeat constructor.
        -- apply slot_set_eq. by rewrite length_set_neighbor.
      * rewrite slot_set_eq in Hw by (by rewrite length_set_neighbor).
        injection Hw as <-. unfold sid_of_id. rewrite N2Z.id. split.
        -- by left.
        -- rewrite slot_set_ne by done. by apply slot_set_eq.
    + injection Hstep as <-.
      apply list_elem_of_lookup in Hq as [j Hj].
      destruct (nm_fold_slots (a :: b :: c :: l) (a :: b :: c :: l) (tn, nm)
                  Hnd) with (j := j) (o := q) as [_ G2]; simpl; try done.
      * intros o Ho. destruct (Hel o Ho) as [? _]. lia.
      * simpl in G2. rewrite G2 in Hw. injection Hw as <-. lia.
  - exact Hloop.
  - apply length_replicate.
  - intros q Hq. simpl. apply slot_replicate.
    destruct (Hel q Hq) as [? _]. lia.
  - done.
Qed.

Lemma adjacency_symmetric_witness :
  get_neighbor (triangle_neighbors kite_adj) (Z.to_N 3 / 3) (Z.to_N 3 mod 3)
    = Some (sid_of_id (3 * 0 + 0)).
Proof.
  apply (adjacency_symmetric (triangles kite) kite_adj 0%N 0%N 3%Z).
  - by vm_compute.
  - reflexivity.
  - by vm_compute.
  - by vm_compute.
  - reflexivity.
  - lia.
  - by vm_compute.
Defined.

(** ** The hash of a pair of ids *)

Lemma id2Hash_decode (p : id2) :
  (p.1 < id_modulus)%N → (p.2 < id_modulus)%N →
  N.shiftr (id2Hash p) 32 = p.1 ∧ N.land (id2Hash p) (N.ones 32) = p.2.
Proof.
  destruct p as [a b]. unfold id2Hash, id_modulus. simpl. intros Ha Hb.
  rewrite N.shiftl_mul_pow2.
  rewrite (N.mod_small (a * 2 ^ 32) (2 ^ 64)) by
    (change (2 ^ 64)%N with (2 ^ 32 * 2 ^ 32)%N; nia).
  split.
  - rewrite N.shiftr_lor, !N.shiftr_div_pow2.
    rewrite N.div_mul by done. rewrite (N.div_small b) by done.
    apply N.lor_0_r.
  - rewrite N.land_lor_distr_l, !N.land_ones.
    rewrite N.Div0.mod_mul. rewrite (N.mod_small b) by done.
    apply N.lor_0_l.
Qed.

(** X9: the hash of a pair of 32-bit ids has no collision: two pairs with the
    same hash are equal. *)
Theorem id2Hash_injective (p q : id2) :
  (p.1 < id_modulus)%N → (p.2 < id_modulus)%N →
  (q.1 < id_modulus)%N → (q.2 < id_modulus)%N →
  id2Hash p = id2Hash q → p = q.
Proof.
  intros Hp1 Hp2 Hq1 Hq2 Heq.
  destruct (id2Hash_decode p Hp1 Hp2) as [P1 P2].
  destruct (id2Hash_decode q Hq1 Hq2) as [Q1 Q2].
  rewrite Heq in P1, P2. destruct p, q. simpl in *. congruence.
Qed.

Lemma id2Hash_injective_witness : (1%N, 2%N) = (1%N, 2%N).
Proof.
  apply (id2Hash_injective (1, 2)%N (1, 2)%N); by vm_compute.
Defined.

(** ** The Dirichlet edges, exactly *)

Lemma sorted_sort_face v1 v2 : sorted v1 v2 = sort_face (v1, v2).
Proof.
  unfold sorted, sort_face. simpl.
  destruct (v1 <? v2)%N eqn:H1, (v2 <? v1)%N eqn:H2; try done.
  - apply N.ltb_lt in H1, H2. lia.
  - apply N.ltb_ge in H1, H2. f_equal; lia.
Qed.

(** X10: [sorted] does not depend on the orientation of the pair, returns its
    two ends in increasing order, and agrees with the sort that
    [compute_triangle_adjacencies] applies to the sides of the triangles. *)
Theorem sorted_orientation (v1 v2 : id) :
  sorted v1 v2 = sorted v2 v1 ∧
  ((sorted v1 v2).1 ≤ (sorted v1 v2).2)%N ∧
  sorted v1 v2 = sort_face (v1, v2).
Proof.
  split_and!; [| |apply sorted_sort_face]; unfold sorted.
  - destruct (v1 <? v2)%N eqn:H1, (v2 <? v1)%N eqn:H2; try done.
    + apply N.ltb_lt in H1, H2. lia.
    + apply N.ltb_ge in H1, H2. f_equal; lia.
  - destruct (v1 <? v2)%N eqn:H1; simpl.
    + apply N.ltb_lt in H1. lia.
    + by apply N.ltb_ge in H1.
Qed.

Lemma find_edge_Some edge l k :
  find_edge edge l = Some k → l !! k = Some edge.
Proof.
  revert k. induction l as [|y l IH]; intros k; simpl; [done|].
  case_decide as Hy; [by intros [= <-]; subst|].
  destruct (find_edge edge l) as [k'|]; [|done].
  intros [= <-]. by apply IH.
Qed.

Lemma find_edge_NoDup edge l k :
  NoDup l → l !! k = Some edge → find_edge edge l = Some k.
Proof.
  revert k. induction l as [|y l IH]; intros k Hnd Hk; [done|].
  apply NoDup_cons in Hnd as [Hy Hnd]. simpl.
  destruct k as [|k]; simpl in Hk.
  - injection Hk as ->. by rewrite decide_True.
  - rewrite decide_False.
    + by rewrite (IH k Hnd Hk).
    + intros ->. apply Hy. by eapply list_elem_of_lookup_2.
Qed.

Lemma mark_lines_iff M (uE : list id2) (d : list bool) e :
  NoDup uE → (N.of_nat (length uE) ≤ id_modulus)%N → length d = length uE →
  mark_lines M uE d !! e = Some true ↔
  d !! e = Some true ∨
  ∃ line, line ∈ lines M ∧ uE !! e = Some (sorted line.1 line.2).
Proof.
  intros Hnd Hb. unfold mark_lines. revert d.
  induction (lines M) as [|line ls IH]; intros d Hd; simpl.
  - split; [auto|]. intros [?|(line & Hl & _)]; [done|].
    by apply elem_of_nil in Hl.
  - destruct (find_edge _ uE) as [k|] eqn:Hk.
    + apply find_edge_Some in Hk as Hk'.
      assert (k < length uE) as Hlt by by apply lookup_lt_Some in Hk'.
      rewrite to_id_small by lia. rewrite Nat2N.id.
      rewrite IH by by rewrite length_insert. split.
      * intros [Hi|(l' & Hl' & He)].
        -- destruct (decide (k = e)) as [->|Hne].
           ++ right. exists line. split; [by left|done].
           ++ left. by rewrite list_lookup_insert_ne in Hi.
        -- right. exists l'. split; [by right|done].
      * intros [Hi|(l' & Hl' & He)].
        -- left. destruct (decide (k = e)) as [->|Hne].
           ++ apply list_lookup_insert_eq. by apply lookup_lt_Some in Hi.
           ++ by rewrite list_lookup_insert_ne.
        -- apply elem_of_cons in Hl' as [->|Hl'].
           ++ left. apply (find_edge_NoDup _ _ _ Hnd) in He.
              assert (k = e) as -> by congruence.
              apply list_lookup_insert_eq. lia.
           ++ right. by exists l'.
    + rewrite IH by done. split.
      * intros [Hi|(l' & Hl' & He)]; [by left|].
        right. exists l'. split; [by right|done].
      * intros [Hi|(l' & Hl' & He)]; [by left|].
        apply elem_of_cons in Hl' as [->|Hl'].
        -- apply (find_edge_NoDup _ _ _ Hnd) in He. congruence.
        -- right. by exists l'.
Qed.

(** X11: the Dirichlet edges are exactly the unique edges that do not have
    two occurrences and the unique edges that are a line element of the
    mesh, in one orientation or the other. *)
Theorem dirichlet_edges_exactly (M : TMesh) (sys : heat_system) (e : nat) :
  setup M = Ok sys →
  (N.of_nat (length (uIEdges (adj sys))) ≤ id_modulus)%N →
  e < length (uIEdges (adj sys)) →
  dirichletEdge sys !! e = Some true ↔
  length (uIEdgeToOld (adj sys) !!! e) ≠ 2 ∨
  ∃ line, line ∈ lines M ∧
          uIEdges (adj sys) !! e = Some (sorted line.1 line.2).
Proof.
  intros Hsys Hb He.
  destruct (setup_inv M sys Hsys) as (Hadj & _ & -> & _). cbv zeta in *.
  destruct (mark_occurrences_spec (uIEdgeToOld (adj sys))
              (length (uIEdges (adj sys)))) as [Hlen Hocc].
  rewrite mark_lines_iff; [|
    rewrite (adjacencies_inv _ _ _ Hadj); apply NoDup_sort_unique|done..].
  rewrite Hocc by done.
  split; (intros [H|H]; [left|by right]).
  - injection H as H. by apply bool_decide_eq_true_1 in H.
  - f_equal. by apply bool_decide_eq_true_2.
Qed.

Lemma lined_kite_setup :
  ∃ sys,
    setup lined_kite = Ok sys ∧ adj sys = kite_adj ∧
    dirichletEdge sys = [true; true; true; true; true].
Proof.
  unfold setup.
  change (triangles lined_kite) with (triangles kite).
  rewrite kite_adjacencies.
  change (length (uIEdges kite_adj)) with 5.
  rewrite decide_False by lia.
  change (mark_lines lined_kite (uIEdges kite_adj)
            (mark_occurrences (uIEdgeToOld kite_adj) 5))
    with [true; true; true; true; true].
  change (assemble lined_kite kite_adj [true; true; true; true; true])
    with (Ok (E := cf_error)
            {| K_diag := (λ r, mkIV (N.of_nat r) 1) <$> seq 0 10;
               K_coefs := [];
               rhs := [1; 0; 1; 0; 1; 0; 1; 0; 1; 0]%R;
               Mass := replicate 10 1%R |}).
  cbn [mbind result_bind]. eexists. split; [reflexivity|]. done.
Qed.

Lemma dirichlet_edges_exactly_witness :
  [true; true; true; true; true] !! 0 = Some true ↔
  length (uIEdgeToOld kite_adj !!! 0) ≠ 2 ∨
  ∃ line, line ∈ lines lined_kite ∧
          uIEdges kite_adj !! 0 = Some (sorted line.1 line.2).
Proof.
  destruct lined_kite_setup as (sys & Hs & Hadj & Hd).
  rewrite <-Hd, <-Hadj.
  apply (dirichlet_edges_exactly lined_kite sys 0 Hs).
  - rewrite Hadj. by vm_compute.
  - rewrite Hadj. simpl. lia.
Defined.

(** ** Reading the mesh *)

Lemma import_block_points G idx :
  ∀ M, points (foldl (import_block G) M idx) = points M.
Proof.
  induction idx as [|i idx IH]; intros M; [done|]. simpl. rewrite IH.
  unfold import_block. by repeat case_decide.
Qed.

Lemma import_node_spec G pts i :
  (nodeTags G !!! i < NO_ID)%N →
  let v := N.to_nat (nodeTags G !!! i) in
  length (import_node G pts i) = length pts `max` S v ∧
  import_node G pts i !! v
    = Some (coord G !!! (3 * i + 0), coord G !!! (3 * i + 1),
            coord G !!! (3 * i + 2)) ∧
  ∀ p, p ≠ v → p < length pts → import_node G pts i !! p = pts !! p.
Proof.
  intros Ht v. unfold import_node.
  assert ((nodeTags G !!! i < id_modulus)%N ∧
          (nodeTags G !!! i + 1 < id_modulus)%N) as [H1 H2]
    by (unfold NO_ID, id_modulus in *; lia).
  rewrite (to_id_small (nodeTags G !!! i)) by done.
  rewrite (to_id_small (nodeTags G !!! i + 1)) by done.
  replace (N.to_nat (nodeTags G !!! i + 1)) with (S v) by (unfold v; lia).
  fold v. case_decide as Hsz.
  - split_and!.
    + rewrite length_insert, length_resize. lia.
    + apply list_lookup_insert_eq. rewrite length_resize. lia.
    + intros p Hp Hlt. rewrite list_lookup_insert_ne by done.
      apply lookup_resize; lia.
  - split_and!.
    + rewrite length_insert. lia.
    + apply list_lookup_insert_eq. lia.
    + intros p Hp Hlt. by rewrite list_lookup_insert_ne.
Qed.

Lemma max_list_app l1 l2 :
  max_list (l1 ++ l2) = max_list l1 `max` max_list l2.
Proof. induction l1 as [|y l IH]; simpl; [lia|]. rewrite IH. lia. Qed.

Lemma import_nodes_prefix G pts0 k :
  (∀ t, t ∈ nodeTags G → (t < NO_ID)%N) →
  k ≤ length (nodeTags G) →
  let pts := foldl (import_node G) pts0 (seq 0 k) in
  length pts
    = length pts0 `max` max_list ((λ t, S (N.to_nat t)) <$> take k (nodeTags G)) ∧
  ∀ i t, NoDup (nodeTags G) → i < k → nodeTags G !! i = Some t →
    pts !! N.to_nat t
      = Some (coord G !!! (3 * i + 0), coord G !!! (3 * i + 1),
              coord G !!! (3 * i + 2)).
Proof.
  intros Hlt. induction k as [|k IH]; intros Hk; cbv zeta.
  - simpl. split; [lia|]. intros i t _ Hi. lia.
  - destruct IH as [IH1 IH2]; [lia|].
    rewrite seq_S, foldl_app. simpl.
    destruct (lookup_lt_is_Some_2 (nodeTags G) k ltac:(lia)) as [tk Htk].
    assert (nodeTags G !!! k = tk) as Htk'
      by by apply list_lookup_total_correct.
    destruct (import_node_spec G (foldl (import_node G) pts0 (seq 0 k)) k)
      as (S1 & S2 & S3).
    { rewrite Htk'. apply Hlt. by eapply list_elem_of_lookup_2. }
    cbv zeta in S1, S2, S3. rewrite Htk' in S1, S2, S3. split.
    + rewrite S1, IH1. rewrite (take_S_r _ _ _ Htk), fmap_app, max_list_app.
      simpl. lia.
    + intros i t Hnd Hi Ht. destruct (decide (i = k)) as [->|Hne].
      * assert (t = tk) as -> by congruence. done.
      * specialize (IH2 i t Hnd ltac:(lia) Ht). rewrite S3; [done| |].
        -- intros Heq. apply Hne. apply (NoDup_lookup _ _ _ t Hnd Ht).
           assert (t = tk) as -> by lia. done.
        -- by apply lookup_lt_Some in IH2.
Qed.

(** X12: when the node tags are distinct and below the sentinel, every node
    is stored at the index given by its tag, with its three coordinates. *)
Theorem imported_node_at_its_tag (G : gmsh_mesh) (M : TMesh) (i : nat) (t : N) :
  NoDup (nodeTags G) →
  (∀ t', t' ∈ nodeTags G → (t' < NO_ID)%N) →
  nodeTags G !! i = Some t →
  points (import_TMesh_from_gmsh G M) !! N.to_nat t
    = Some (coord G !!! (3 * i + 0), coord G !!! (3 * i + 1),
            coord G !!! (3 * i + 2)).
Proof.
  intros Hnd Hlt Hi. unfold import_TMesh_from_gmsh.
  rewrite import_block_points. simpl.
  destruct (import_nodes_prefix G
              (resize (length (nodeTags G)) (0, 0, 0)%R (points M))
              (length (nodeTags G)) Hlt (le_n _)) as [_ H].
  apply (H i t); [done|by apply lookup_lt_Some in Hi|done].
Qed.

(** X13: when the node tags are below the sentinel, the vector of points has
    as many entries as there are nodes, or the largest tag plus one if this
    is more. *)
Theorem imported_points_size (G : gmsh_mesh) (M : TMesh) :
  (∀ t, t ∈ nodeTags G → (t < NO_ID)%N) →
  length (points (import_TMesh_from_gmsh G M))
    = length (nodeTags G)
        `max` max_list ((λ t, S (N.to_nat t)) <$> nodeTags G).
Proof.
  intros Hlt. unfold import_TMesh_from_gmsh.
  rewrite import_block_points. simpl.
  destruct (import_nodes_prefix G
              (resize (length (nodeTags G)) (0, 0, 0)%R (points M))
              (length (nodeTags G)) Hlt (le_n _)) as [H _].
  cbv zeta in H. by rewrite H, length_resize, firstn_all.
Qed.

Lemma flat_triangles_lookup (tris : list id3) j t :
  tris !! j = Some t →
  flat_triangles tris !!! (3 * j + 0) = t.1.1 ∧
  flat_triangles tris !!! (3 * j + 1) = t.1.2 ∧
  flat_triangles tris !!! (3 * j + 2) = t.2.
Proof.
  revert j. induction tris as [|t0 tris IH]; intros j Hj; [done|].
  destruct j as [|j].
  - injection Hj as ->. done.
  - replace (3 * S j + 0) with (S (S (S (3 * j + 0)))) by lia.
    replace (3 * S j + 1) with (S (S (S (3 * j + 1)))) by lia.
    replace (3 * S j + 2) with (S (S (S (3 * j + 2)))) by lia.
    apply (IH j Hj).
Qed.

Lemma import_blocks_skipped G idx :
  (∀ i, i ∈ idx → elementTypes G !!! i ≠ 1%Z ∧ elementTypes G !!! i ≠ 2%Z) →
  ∀ M, foldl (import_block G) M idx = M.
Proof.
  induction idx as [|i idx IH]; intros Hty M; [done|]. simpl.
  rewrite IH by (intros j Hj; apply Hty; by right).
  unfold import_block. destruct (Hty i) as [H1 H2]; [by left|].
  by rewrite !decide_False.
Qed.

(** X14: a block of triangles whose node tags fit in 32 bits is read back as
    it was written: the triangles of the block are pushed behind the
    triangles of the mesh, in their order; the blocks that hold neither lines
    nor triangles are ignored. *)
Theorem imported_triangles_round_trip (G : gmsh_mesh) (M : TMesh) (k : nat)
    (tris : list id3) :
  elementTypes G !! k = Some 2%Z →
  (∀ i, i < length (elementTypes G) → i ≠ k →
        elementTypes G !!! i ≠ 1%Z ∧ elementTypes G !!! i ≠ 2%Z) →
  length (elementTags G !!! k) = length tris →
  elementNodeTags G !! k = Some (flat_triangles tris) →
  (∀ t, t ∈ tris →
        (t.1.1 < id_modulus ∧ t.1.2 < id_modulus ∧ t.2 < id_modulus)%N) →
  triangles (import_TMesh_from_gmsh G M) = triangles M ++ tris ∧
  lines (import_TMesh_from_gmsh G M) = lines M.
Proof.
  intros Hk Hother Hlen Hnodes Hsmall. unfold import_TMesh_from_gmsh.
  set (M0 := {| points := _; lines := lines M; triangles := triangles M |}).
  assert (k < length (elementTypes G)) as Hklt by by apply lookup_lt_Some in Hk.
  replace (length (elementTypes G))
    with (k + (1 + (length (elementTypes G) - S k))) by lia.
  rewrite !seq_app, !foldl_app. simpl.
  rewrite (import_blocks_skipped G (seq 0 k)).
  2:{ intros i Hi. apply elem_of_seq in Hi. apply Hother; lia. }
  rewrite import_blocks_skipped.
  2:{ intros i Hi. apply elem_of_seq in Hi. apply Hother; lia. }
  unfold import_block.
  rewrite (list_lookup_total_correct _ _ _ Hk).
  rewrite (list_lookup_total_correct _ _ _ Hnodes), Hlen. simpl.
  split; [|done]. f_equal.
  apply list_eq. intros j. rewrite list_lookup_fmap.
  destruct (tris !! j) as [t|] eqn:Hj.
  - rewrite lookup_seq_lt by by apply lookup_lt_Some in Hj.
    cbn [fmap option_fmap option_map]. change (0 + j) with j.
    change (j + (j + (j + 0))) with (3 * j).
    destruct (flat_triangles_lookup tris j t Hj) as (-> & -> & ->).
    destruct (Hsmall t) as (H1 & H2 & H3); [by eapply list_elem_of_lookup_2|].
    rewrite !to_id_small by done. by destruct t as [[? ?] ?].
  - rewrite lookup_seq_ge by by apply lookup_ge_None in Hj. done.
Qed.

Lemma small_answer_tags :
  NoDup (nodeTags small_answer) ∧
  ∀ t, t ∈ nodeTags small_answer → (t < NO_ID)%N.
Proof.
  split.
  - apply (bool_decide_unpack (NoDup (nodeTags small_answer))).
    by vm_compute.
  - intros t Ht.
    repeat (apply elem_of_cons in Ht as [->|Ht]; [by vm_compute|]).
    by apply elem_of_nil in Ht.
Qed.

Lemma imported_node_at_its_tag_witness :
  points (import_TMesh_from_gmsh small_answer empty_mesh) !! N.to_nat 5
    = Some (coord small_answer !!! (3 * 2 + 0),
            coord small_answer !!! (3 * 2 + 1),
            coord small_answer !!! (3 * 2 + 2)).
Proof.
  apply (imported_node_at_its_tag small_answer empty_mesh 2 5%N).
  - apply small_answer_tags.
  - apply small_answer_tags.
  - reflexivity.
Defined.

Lemma imported_points_size_witness :
  length (points (import_TMesh_from_gmsh small_answer empty_mesh))
    = length (nodeTags small_answer)
        `max` max_list ((λ t, S (N.to_nat t)) <$> nodeTags small_answer).
Proof.
  apply (imported_points_size small_answer empty_mesh).
  apply small_answer_tags.
Defined.

Lemma imported_triangles_round_trip_witness :
  triangles (import_TMesh_from_gmsh small_answer empty_mesh)
    = triangles empty_mesh ++ [(1, 2, 5); (2, 5, 1)]%N ∧
  lines (import_TMesh_from_gmsh small_answer empty_mesh) = lines empty_mesh.
Proof.
  apply (imported_triangles_round_trip small_answer empty_mesh 1
           [(1, 2, 5); (2, 5, 1)]%N).
  - reflexivity.
  - intros i Hi Hne. simpl in Hi.
    assert (i = 0) as -> by lia. by vm_compute.
  - reflexivity.
  - reflexivity.
  - intros t Ht.
    repeat (apply elem_of_cons in Ht as [->|Ht]; [by vm_compute|]).
    by apply elem_of_nil in Ht.
Defined.

(** ** What the compactor stores *)

Lemma klt_irrefl a : ¬ klt a a.
Proof. unfold klt. lia. Qed.

Lemma kle_klt_trans a b c : kle a b → klt b c → klt a c.
Proof. unfold kle, klt. intros [->|?] ?; [done|lia]. Qed.

Lemma kle_total a b : ¬ klt a b → kle b a.
Proof.
  unfold kle, klt. destruct a as [a1 a2], b as [b1 b2]. simpl. intros H.
  destruct (decide (b1 = a1 ∧ b2 = a2)) as [[-> ->]|?]; [by left|right; lia].
Qed.

Lemma kle_trans a b c : kle a b → kle b c → kle a c.
Proof. unfold kle, klt. intros [->|?] [->|?]; auto. right. lia. Qed.

Lemma IJV_ltb_klt c d : IJV_ltb c d = true ↔ klt (key c) (key d).
Proof. unfold IJV_ltb, klt, key. rewrite id2_ltb_spec. simpl. lia. Qed.

Lemma insert_IJV_sorted c l :
  StronglySorted (λ a b, kle (key a) (key b)) l →
  StronglySorted (λ a b, kle (key a) (key b)) (insert_IJV c l).
Proof.
  induction l as [|d l IH]; intros Hs; simpl; [repeat constructor|].
  apply StronglySorted_inv in Hs as [Hs Hd].
  destruct (IJV_ltb c d) eqn:Hcd.
  - apply IJV_ltb_klt in Hcd. constructor; [by constructor|].
    constructor; [by right|]. rewrite Forall_forall in Hd |- *.
    intros x Hx. eapply kle_trans; [by right|by apply Hd].
  - constructor; [by apply IH|]. rewrite Forall_forall in Hd |- *.
    intros x Hx. rewrite insert_IJV_perm in Hx.
    apply elem_of_cons in Hx as [->|Hx]; [|by apply Hd].
    apply kle_total. rewrite <-IJV_ltb_klt. by rewrite Hcd.
Qed.

Lemma sort_IJV_sorted l :
  StronglySorted (λ a b, kle (key a) (key b)) (sort_IJV l).
Proof.
  induction l as [|c l IH]; simpl; [constructor|]. by apply insert_IJV_sorted.
Qed.

Lemma entry_sum_app r c l1 l2 :
  entry_sum r c (l1 ++ l2) = (entry_sum r c l1 + entry_sum r c l2)%R.
Proof.
  unfold entry_sum. rewrite filter_app, fmap_app.
  induction (ijv_val <$> filter _ l1) as [|v vs IH]; simpl; lra.
Qed.

Lemma entry_sum_none r c l :
  (∀ x, x ∈ l → key x ≠ (r, c)) → entry_sum r c l = 0%R.
Proof.
  intros H. unfold entry_sum. induction l as [|x l IH]; [done|].
  rewrite filter_cons_False by (apply H; by left).
  apply IH. intros x' Hx'. apply H. by right.
Qed.

Lemma entry_sum_one r c y : key y = (r, c) → entry_sum r c [y] = ijv_val y.
Proof.
  intros H. unfold entry_sum. rewrite filter_cons_True by done.
  rewrite filter_nil. simpl. lra.
Qed.

Lemma entry_sum_perm r c l l' : l ≡ₚ l' → entry_sum r c l = entry_sum r c l'.
Proof.
  intros H. unfold entry_sum.
  assert (ijv_val <$> filter (λ x, key x = (r, c)) l
            ≡ₚ ijv_val <$> filter (λ x, key x = (r, c)) l') as Hp
    by by rewrite H.
  induction Hp; simpl; lra.
Qed.

Lemma described_snoc P y (fl fl' : nat * nat → Prop) r c v :
  (fl (r, c) → (r, c) ≠ key y) →
  (fl' (r, c) → (r, c) ≠ key y) →
  ((∃ x, x ∈ P ∧ key x = (r, c)) → (fl (r, c) ↔ fl' (r, c))) →
  described P fl r c v ↔ described (P ++ [y]) fl' r c v.
Proof.
  intros H1 H2 H3. unfold described. split.
  - intros (Hfl & He & Hv & Hb). specialize (H1 Hfl). split_and!.
    + by apply H3.
    + destruct He as (x & Hx & Hk). exists x. split; [|done].
      apply elem_of_app. by left.
    + rewrite entry_sum_app, (entry_sum_none r c [y]); [lra|].
      intros x Hx. apply list_elem_of_singleton in Hx as ->. congruence.
    + done.
  - intros (Hfl & He & Hv & Hb). specialize (H2 Hfl).
    assert (∃ x, x ∈ P ∧ key x = (r, c)) as He'.
    { destruct He as (x & Hx & Hk). exists x. split; [|done].
      apply elem_of_app in Hx as [Hx|Hx]; [done|].
      apply list_elem_of_singleton in Hx as ->. congruence. }
    split_and!; [by apply H3|done| |done].
    rewrite entry_sum_app, (entry_sum_none r c [y]) in Hv; [lra|].
    intros x Hx. apply list_elem_of_singleton in Hx as ->. congruence.
Qed.

Lemma rows_ok_ext m P P' (fl fl' : nat * nat → Prop) cols vals :
  rows_ok m P fl cols vals →
  (∀ r c v, described P fl r c v ↔ described P' fl' r c v) →
  rows_ok m P' fl' cols vals.
Proof.
  intros (H1 & H2 & H3) Hd. split_and!; [done..|]. intros r Hr.
  destruct (H3 r Hr) as (R1 & R2 & R3). split_and!; [done..|].
  intros c v. by rewrite R3.
Qed.

Lemma push_at_total_eq {A} (i : nat) (x : A) (v : list (list A)) :
  i < length v → push_at i x v !!! i = v !!! i ++ [x].
Proof.
  intros Hi. apply lookup_lt_is_Some in Hi as [l Hl]. unfold push_at.
  rewrite (list_lookup_total_correct _ _ _ Hl).
  apply list_lookup_total_correct. by rewrite list_lookup_alter_eq, Hl.
Qed.

Lemma push_at_total_ne {A} (i r : nat) (x : A) (v : list (list A)) :
  i ≠ r → push_at i x v !!! r = v !!! r.
Proof. intros Hi. unfold push_at. by rewrite list_lookup_total_alter_ne. Qed.

Lemma elem_of_zip_exists {A B} (l : list A) (k : list B) x :
  x ∈ l → length l = length k → ∃ y, (x, y) ∈ zip l k.
Proof.
  intros Hx Hlen. apply list_elem_of_lookup in Hx as [i Hi].
  destruct (lookup_lt_is_Some_2 k i) as [y Hy].
  { rewrite <-Hlen. by apply lookup_lt_Some in Hi. }
  exists y. by eapply (elem_of_lookup_zip_with_2 pair).
Qed.

Lemma StronglySorted_snoc {A} (R : A → A → Prop) l x :
  StronglySorted R l → (∀ y, y ∈ l → R y x) → StronglySorted R (l ++ [x]).
Proof.
  induction 1 as [|a l Hs IH Ha]; intros Hx; simpl; [repeat constructor|].
  constructor.
  - apply IH. intros y Hy. apply Hx. by right.
  - apply Forall_app. split; [done|]. constructor; [|done]. apply Hx. by left.
Qed.

Lemma StronglySorted_middle {A} (R : A → A → Prop) l1 x l2 :
  StronglySorted R (l1 ++ x :: l2) → ∀ y, y ∈ l1 → R y x.
Proof.
  induction l1 as [|a l1 IH]; simpl; intros Hs y Hy;
    [by apply elem_of_nil in Hy|].
  apply StronglySorted_inv in Hs as [Hs Ha].
  apply elem_of_cons in Hy as [->|Hy]; [|by apply IH].
  rewrite Forall_forall in Ha. apply Ha. apply elem_of_app. right. by left.
Qed.

Lemma flush_ok m P st :
  merge_inv m P st →
  rows_ok m P (λ k, kle k (cur_i st, cur_j st)) (flush st).1 (flush st).2.
Proof.
  intros (Hex & Hle & Hacc & Hlc & Hlv & Hrows). unfold flush.
  destruct (Rgt_dec (Rabs (acc_val st)) EPS) as [Hbig|Hsmall]; simpl.
  - split_and!; [by rewrite length_push_at..|]. intros r Hr.
    destruct (Hrows r Hr) as (R1 & R2 & R3).
    destruct (decide (cur_i st = r)) as [Heq|Hne].
    + subst r. rewrite !push_at_total_eq by lia. split_and!.
      * rewrite !length_app. simpl. lia.
      * apply StronglySorted_snoc; [done|]. intros c1 Hc1.
        destruct (elem_of_zip_exists _ _ _ Hc1 R1) as [v Hv].
        apply R3 in Hv as (Hfl & _). unfold klt in Hfl. simpl in Hfl. lia.
      * intros c v. rewrite zip_with_app by done.
        rewrite elem_of_app, R3. simpl. rewrite list_elem_of_singleton.
        unfold described. split.
        -- intros [(Hfl & He & Hv & Hb)|Heq].
           ++ split_and!; [by right|done..].
           ++ injection Heq as -> ->. split_and!; [by left|done..].
        -- intros (Hfl & He & Hv & Hb). destruct Hfl as [Heq|Hlt].
           ++ right. injection Heq as ->. by rewrite Hv, Hacc.
           ++ by left.
    + rewrite !push_at_total_ne by done. split_and!; [done..|].
      intros c v. rewrite R3. unfold described.
      split; intros (Hfl & Hrest); (split; [|done]).
      * by right.
      * destruct Hfl as [Heq|Hlt]; [|done]. injection Heq as ? ?. done.
  - split_and!; [done..|]. intros r Hr.
    destruct (Hrows r Hr) as (R1 & R2 & R3). split_and!; [done..|].
    intros c v. rewrite R3. unfold described. split.
    + intros (Hfl & Hrest). split; [by right|done].
    + intros (Hfl & He & Hv & Hb). destruct Hfl as [Heq|Hlt]; [|done].
      injection Heq as -> ->. rewrite Hv, <-Hacc in Hb. done.
Qed.

Lemma step_ok m P st y :
  merge_inv m P st → (∀ x, x ∈ P → kle (key x) (key y)) →
  merge_inv m (P ++ [y]) (merge_step st y).
Proof.
  intros Hinv Hsorted. pose proof (flush_ok m P st Hinv) as Hflush.
  destruct Hinv as (Hex & Hle & Hacc & Hrows).
  destruct (decide (key y = (cur_i st, cur_j st))) as [Heq|Hne].
  - assert (merge_step st y =
            {| cur_i := cur_i st; cur_j := cur_j st;
               acc_val := acc_val st + ijv_val y;
               columns := columns st; values := values st |}) as ->.
    { unfold merge_step. unfold key in Heq. injection Heq as H1 H2.
      rewrite decide_False by lia. by rewrite decide_False by lia. }
    unfold merge_inv. simpl. split_and!.
    + destruct Hex as (x & Hx & Hk). exists x. split; [|done].
      apply elem_of_app. by left.
    + intros x Hx. apply elem_of_app in Hx as [Hx|Hx]; [by apply Hle|].
      apply list_elem_of_singleton in Hx as ->. by left.
    + by rewrite entry_sum_app, <-Hacc, entry_sum_one.
    + eapply rows_ok_ext; [exact Hrows|]. intros r c v.
      apply described_snoc; [| |done]; rewrite Heq; intros Hlt Hk;
        rewrite Hk in Hlt; by apply klt_irrefl in Hlt.
  - assert (klt (cur_i st, cur_j st) (key y)) as Hlt.
    { destruct Hex as (x & Hx & Hk). destruct (Hsorted x Hx) as [Hk'|Hk'].
      - congruence.
      - by rewrite <-Hk. }
    assert (merge_step st y =
            {| cur_i := (key y).1; cur_j := (key y).2; acc_val := ijv_val y;
               columns := (flush st).1; values := (flush st).2 |}) as ->.
    { unfold merge_step. case_decide; [done|]. case_decide; [done|].
      destruct Hne. unfold key. f_equal; lia. }
    unfold merge_inv. cbn [cur_i cur_j acc_val columns values].
    change ((key y).1, (key y).2) with (key y).
    split_and!.
    + exists y. split; [|done]. apply elem_of_app. right. by left.
    + intros x Hx. apply elem_of_app in Hx as [Hx|Hx]; [by apply Hsorted|].
      apply list_elem_of_singleton in Hx as ->. by left.
    + rewrite entry_sum_app, entry_sum_one by done.
      rewrite entry_sum_none; [lra|].
      intros x Hx Hk. specialize (Hle x Hx).
      change ((key y).1, (key y).2) with (key y) in Hk.
      rewrite Hk in Hle. apply (klt_irrefl (key y)).
      by eapply kle_klt_trans.
    + eapply rows_ok_ext; [exact Hflush|]. intros r c v.
      apply described_snoc.
      * intros Hk Hy. rewrite <-Hy in Hlt. apply (klt_irrefl (r, c)).
        by eapply kle_klt_trans.
      * intros Hk Hy. rewrite <-Hy in Hk. by apply klt_irrefl in Hk.
      * intros (x & Hx & Hk). specialize (Hle x Hx). rewrite Hk in Hle.
        split; [intros _; by eapply kle_klt_trans|done].
Qed.

Lemma fold_ok m rest :
  ∀ P st,
    merge_inv m P st →
    StronglySorted (λ a b, kle (key a) (key b)) (P ++ rest) →
    merge_inv m (P ++ rest) (foldl merge_step st rest).
Proof.
  induction rest as [|y rest IH]; intros P st Hinv Hs.
  - by rewrite app_nil_r.
  - simpl. pose proof (StronglySorted_middle _ _ _ _ Hs) as Hy.
    replace (P ++ y :: rest) with ((P ++ [y]) ++ rest) in *
      by by rewrite <-app_assoc.
    apply IH; [|done]. by apply step_ok.
Qed.

(** X15: what [prepare_system] stores in a row of the empty matrix it is
    given: as many values as columns; the columns in strictly increasing
    order; and a column [c] with the value [v] exactly when some coefficient
    is at this row and column, [v] is the sum of all the coefficients there
    (the diagonal entries included) and [|v| > EPS]. *)
Theorem compactor_sums_duplicates (Kd : list IV) (Kc : list IJV) (m r : nat) :
  r < m →
  length ((prepare_system Kd Kc (replicate m []) (replicate m [])).1 !!! r)
    = length ((prepare_system Kd Kc (replicate m []) (replicate m [])).2 !!! r) ∧
  StronglySorted lt
    ((prepare_system Kd Kc (replicate m []) (replicate m [])).1 !!! r) ∧
  ∀ c v,
    (c, v) ∈ zip
      ((prepare_system Kd Kc (replicate m []) (replicate m [])).1 !!! r)
      ((prepare_system Kd Kc (replicate m []) (replicate m [])).2 !!! r) ↔
    (∃ x, x ∈ Kc ++ (diag_entry <$> Kd) ∧ key x = (r, c)) ∧
    v = entry_sum r c (Kc ++ (diag_entry <$> Kd)) ∧
    (Rabs v > EPS)%R.
Proof.
  intros Hr. unfold prepare_system.
  pose proof (sort_IJV_perm (Kc ++ (diag_entry <$> Kd))) as Hperm.
  pose proof (sort_IJV_sorted (Kc ++ (diag_entry <$> Kd))) as Hsorted.
  destruct (sort_IJV (Kc ++ (diag_entry <$> Kd))) as [|c0 rest].
  - apply Permutation_nil_l in Hperm. rewrite <-Hperm. simpl.
    rewrite !lookup_total_replicate_2 by done. split_and!; [done|constructor|].
    intros c v. split.
    + intros H. by apply elem_of_nil in H.
    + intros ((x & Hx & _) & _). by apply elem_of_nil in Hx.
  - set (st0 := {| cur_i := _ |}).
    assert (merge_inv m [c0] st0) as H0.
    { unfold merge_inv, st0. simpl. split_and!.
      - exists c0. split; [by left|done].
      - intros x Hx. apply list_elem_of_singleton in Hx as ->. by left.
      - by rewrite entry_sum_one.
      - split_and!; [apply length_replicate..|]. intros r' Hr'.
        rewrite !lookup_total_replicate_2 by done.
        split_and!; [done|constructor|]. intros c v. split.
        + intros H. by apply elem_of_nil in H.
        + intros (Hfl & (x & Hx & Hk) & _).
          apply list_elem_of_singleton in Hx as ->.
          unfold key in Hk. rewrite <-Hk in Hfl. by apply klt_irrefl in Hfl. }
    apply (fold_ok m rest [c0] st0) in H0; [|done].
    change ([c0] ++ rest) with (c0 :: rest) in H0.
    pose proof (flush_ok _ _ _ H0) as (_ & _ & Hrows).
    destruct H0 as (_ & Hle & _).
    destruct (Hrows r Hr) as (R1 & R2 & R3). split_and!; [done..|].
    intros c v. rewrite R3. unfold described.
    rewrite (entry_sum_perm r c _ _ Hperm). split.
    + intros (_ & (x & Hx & Hk) & Hv & Hb). split_and!; [|done..].
      exists x. split; [|done]. by rewrite <-Hperm.
    + intros ((x & Hx & Hk) & Hv & Hb). rewrite <-Hperm in Hx.
      split_and!; [|by exists x|done..]. rewrite <-Hk. by apply Hle.
Qed.

Lemma compactor_sums_duplicates_witness :
  length ((prepare_system dup_diag dup_coefs (replicate 1 [])
             (replicate 1 [])).1 !!! 0)
    = length ((prepare_system dup_diag dup_coefs (replicate 1 [])
                 (replicate 1 [])).2 !!! 0) ∧
  StronglySorted lt
    ((prepare_system dup_diag dup_coefs (replicate 1 []) (replicate 1 [])).1
       !!! 0) ∧
  ∀ c v,
    (c, v) ∈ zip
      ((prepare_system dup_diag dup_coefs (replicate 1 []) (replicate 1 [])).1
         !!! 0)
      ((prepare_system dup_diag dup_coefs (replicate 1 []) (replicate 1 [])).2
         !!! 0) ↔
    (∃ x, x ∈ dup_coefs ++ (diag_entry <$> dup_diag) ∧ key x = (0, c)) ∧
    v = entry_sum 0 c (dup_coefs ++ (diag_entry <$> dup_diag)) ∧
    (Rabs v > EPS)%R.
Proof.
  apply (compactor_sums_duplicates dup_diag dup_coefs 1 0). lia.
Defined.

(** ** The normal and the area of a triangle *)

Lemma length3_vscale (c : R) (a : vec3) :
  length3 (vscale c a) = (Rabs c * length3 a)%R.
Proof.
  unfold length3, dot, vscale. destruct a as [[x y] z]. simpl.
  replace (c * x * (c * x) + c * y * (c * y) + c * z * (c * z))%R
    with (Rsqr c * (x * x + y * y + z * z))%R by (unfold Rsqr; ring).
  rewrite sqrt_mult; [|apply Rle_0_sqr|nra].
  by rewrite sqrt_Rsqr_abs.
Qed.

Lemma dot_cross_l (a b : vec3) : dot (cross a b) a = 0%R.
Proof. unfold dot, cross. destruct a as [[? ?] ?], b as [[? ?] ?]. simpl. ring. Qed.

Lemma dot_cross_r (a b : vec3) : dot (cross a b) b = 0%R.
Proof. unfold dot, cross. destruct a as [[? ?] ?], b as [[? ?] ?]. simpl. ring. Qed.

Lemma dot_vscale_l (c : R) (a b : vec3) : dot (vscale c a) b = (c * dot a b)%R.
Proof. unfold dot, vscale. destruct a as [[? ?] ?], b as [[? ?] ?]. simpl. ring. Qed.

(** X16: [triangle_normal] returns the vector (DBL_MAX, DBL_MAX, DBL_MAX) when
    twice the area of the triangle is below [EPS], and otherwise a vector of
    length 1 that is orthogonal to the two sides of the triangle at its first
    vertex. *)
Theorem triangle_normal_unit (M : TMesh) (t : id) :
  ((2 * triangle_area M t < EPS)%R ∧
   triangle_normal M t = (DBL_MAX, DBL_MAX, DBL_MAX)) ∨
  ((EPS <= 2 * triangle_area M t)%R ∧
   length3 (triangle_normal M t) = 1%R ∧
   dot (triangle_normal M t)
     (vsub (point M (at3 (triangles M !!! N.to_nat t) 2))
           (point M (at3 (triangles M !!! N.to_nat t) 0))) = 0%R ∧
   dot (triangle_normal M t)
     (vsub (point M (at3 (triangles M !!! N.to_nat t) 1))
           (point M (at3 (triangles M !!! N.to_nat t) 0))) = 0%R).
Proof.
  unfold triangle_area, triangle_normal. cbv zeta.
  replace (2 * (length3 (triangle_cross M t) / 2))%R
    with (length3 (triangle_cross M t)) by lra.
  destruct (Rlt_dec _ _) as [Hlt|Hge]; [by left|right].
  pose proof EPS_small as [HE _].
  assert (0 < length3 (triangle_cross M t))%R as Hpos by lra.
  split_and!.
  - lra.
  - unfold normalize. rewrite length3_vscale.
    rewrite Rabs_pos_eq by (apply Rlt_le, Rdiv_lt_0_compat; lra).
    field. lra.
  - unfold normalize. rewrite dot_vscale_l. unfold triangle_cross. cbv zeta.
    rewrite dot_cross_l. ring.
  - unfold normalize. rewrite dot_vscale_l. unfold triangle_cross. cbv zeta.
    rewrite dot_cross_r. ring.
Qed.

(** ** The neighbor edges share a vertex with the edge *)

Lemma all_faces_lookup (tris : list id3) q r :
  q < length tris → r < 3 →
  all_faces tris !! (3 * q + r)
    = Some (sort_face (at3 (tris !!! q) r, at3 (tris !!! q) ((r + 1) mod 3))).
Proof.
  revert q. induction tris as [|t tris IH]; intros q Hq Hr; [simpl in Hq; lia|].
  unfold all_faces. cbn [mbind list_bind].
  destruct q as [|q].
  - rewrite lookup_app_l by (simpl; lia).
    destruct r as [|[|[|?]]]; [done..|lia].
  - rewrite lookup_app_r by (simpl; lia).
    replace (3 * S q + r - length (triangle_faces t)) with (3 * q + r)
      by (simpl; lia).
    apply IH; [simpl in Hq; lia|done].
Qed.

Lemma neighbor_edge_should_not_happen M (uE : list id2) (o2 : list id)
    v1 v2 e_x e_y t le s k w :
  neighbor_edge M uE o2 v1 v2 e_x e_y t le s k w = Err should_not_happen →
  ∃ aedge : id2,
    aedge = uE !!! N.to_nat
              (o2 !!! N.to_nat (to_id (3 * t + (le + 1 + N.of_nat k) mod 3))) ∧
    aedge.1 ≠ v1 ∧ aedge.2 ≠ v1 ∧ aedge.1 ≠ v2 ∧ aedge.2 ≠ v2.
Proof.
  unfold neighbor_edge. destruct (Rlt_dec _ _); [done|].
  repeat case_decide; cbn [mbind result_bind]; try done.
  intros _. eexists. split; [reflexivity|done].
Qed.

Lemma triangle_side_should_not_happen M (uE : list id2) (o2 : list id)
    (U : list (list id)) e v1 v2 e_x s st :
  triangle_side M uE o2 U e v1 v2 e_x s st = Err should_not_happen →
  ∃ (k : nat) (aedge : id2),
    k < 2 ∧
    aedge = uE !!! N.to_nat
              (o2 !!! N.to_nat
                 (to_id (3 * (((U !!! N.to_nat e) !!! s) / 3)
                         + (((U !!! N.to_nat e) !!! s) mod 3 + 1 + N.of_nat k)
                             mod 3))) ∧
    aedge.1 ≠ v1 ∧ aedge.2 ≠ v1 ∧ aedge.1 ≠ v2 ∧ aedge.2 ≠ v2.
Proof.
  unfold triangle_side. destruct (Rlt_dec _ _); [done|].
  destruct (neighbor_edge _ _ _ _ _ _ _ _ _ _ 0 _) as [w|err0] eqn:H0;
    cbn [mbind result_bind].
  - destruct (neighbor_edge _ _ _ _ _ _ _ _ _ _ 1 _) as [w'|err1] eqn:H1;
      cbn [mbind result_bind]; [done|].
    intros [= ->]. apply neighbor_edge_should_not_happen in H1 as (ae & ? & ?).
    exists 1, ae. split; [lia|done].
  - intros [= ->]. apply neighbor_edge_should_not_happen in H0 as (ae & ? & ?).
    exists 0, ae. split; [lia|done].
Qed.

Lemma stiffness_should_not_happen M e (uE : list id2) (o2 : list id)
    (U : list (list id)) :
  stiffness_coefficient M e uE o2 U = Err should_not_happen →
  length (U !!! N.to_nat e) = 2 ∧
  ∃ (s k : nat) (aedge : id2),
    s < 2 ∧ k < 2 ∧
    aedge = uE !!! N.to_nat
              (o2 !!! N.to_nat
                 (to_id (3 * (((U !!! N.to_nat e) !!! s) / 3)
                         + (((U !!! N.to_nat e) !!! s) mod 3 + 1 + N.of_nat k)
                             mod 3))) ∧
    aedge.1 ≠ (uE !!! N.to_nat e).1 ∧ aedge.2 ≠ (uE !!! N.to_nat e).1 ∧
    aedge.1 ≠ (uE !!! N.to_nat e).2 ∧ aedge.2 ≠ (uE !!! N.to_nat e).2.
Proof.
  unfold stiffness_coefficient, stiffness_weights.
  case_decide as Hocc; [done|]. destruct (Rlt_dec _ _); [done|].
  split; [lia|].
  destruct (triangle_side _ _ _ _ _ _ _ _ 0 _) as [st|err0] eqn:H0;
    cbn [mbind result_bind] in *.
  - destruct (triangle_side _ _ _ _ _ _ _ _ 1 _) as [st'|err1] eqn:H1;
      cbn [mbind result_bind] in *; [done|].
    injection H as ->.
    apply triangle_side_should_not_happen in H1 as (k & ae & ? & ?).
    exists 1, k, ae. split; [lia|done].
  - injection H as ->.
    apply triangle_side_should_not_happen in H0 as (k & ae & ? & ?).
    exists 0, k, ae. split; [lia|done].
Qed.

Lemma sides_share_a_vertex (tri : id3) (r r' : nat) :
  r < 3 → r' < 3 →
  let f := sort_face (at3 tri r, at3 tri ((r + 1) mod 3)) in
  let f' := sort_face (at3 tri r', at3 tri ((r' + 1) mod 3)) in
  f'.1 = f.1 ∨ f'.2 = f.1 ∨ f'.1 = f.2 ∨ f'.2 = f.2.
Proof.
  intros Hr Hr'. destruct tri as [[a b] c]. unfold sort_face.
  destruct r as [|[|[|?]]]; [..|lia];
    (destruct r' as [|[|[|?]]]; [..|lia]);
    cbn; repeat (destruct (_ <? _)%N; cbn); auto.
Qed.

(** X17: the computation never fails with the error "should not happen" of
    [stiffness_coefficient]: the edges that it visits around an edge are
    sides of a triangle of this edge, and they share a vertex with it. *)
Theorem should_not_happen_unreachable
    (solver : list (list nat) → list (list R) → list R → option (list R))
    (M : TMesh) (nbIter : Z) (edge_to_angle : option (gmap (N * N) R))
    (e : nat) :
  (N.of_nat (3 * length (triangles M)) ≤ id_modulus)%N →
  (compute_cross_field_with_heat solver M nbIter edge_to_angle).2
    ≠ Err (failed_stiffness e should_not_happen).
Proof.
  intros Hb Hrun. apply compute_err in Hrun as [Hs|[? _]]; [|done].
  apply setup_err in Hs as [?|[[? _]|(adj & Hadj & _ & Ha)]]; [done..|].
  apply assemble_err in Ha as (e' & serr & [= <- <-] & He & Hd & Hs).
  assert (length (uIEdges adj) ≤ 3 * length (triangles M)) as Hlen.
  { rewrite (adjacencies_inv _ _ _ Hadj), <-length_all_faces.
    apply length_sort_unique. }
  rewrite to_id_small in Hs by lia.
  apply stiffness_should_not_happen in Hs
    as (Hocc & s & k & aedge & Hs & Hk & Haedge & Hne).
  rewrite Nat2N.id in *.
  destruct (adjacencies_unfold _ adj Hb Hadj) as (_ & Hinv & HlenU & _).
  assert (uIEdgeToOld adj !! e = Some (uIEdgeToOld adj !!! e)) as HU.
  { apply list_lookup_lookup_total_lt. lia. }
  destruct (Hinv e _ HU) as [_ Hel].
  set (oe := (uIEdgeToOld adj !!! e) !!! s) in *.
  destruct (Hel oe) as [Hoe Hold].
  { apply list_elem_of_lookup_total_2. lia. }
  set (T := length (triangles M)) in *.
  set (t := N.to_nat (oe / 3)).
  set (le := N.to_nat (oe mod 3)).
  assert (N.to_nat oe = 3 * t + le) as Hoe'.
  { unfold t, le. pose proof (N.div_mod oe 3 ltac:(done)). lia. }
  assert (le < 3) as Hle by (unfold le; pose proof (N.mod_lt oe 3 ltac:(done)); lia).
  assert (t < T) as Ht by lia.
  (* the edge [e] is side [le] of triangle [t] *)
  destruct (occurrences_complete _ adj (N.to_nat oe) Hb Hadj)
    as (_ & He1 & _); [lia|].
  rewrite Hold, Hoe', (list_lookup_total_correct _ _ _
                         (all_faces_lookup _ t le Ht Hle)) in He1.
  (* the neighbor edge is side [le'] of triangle [t] *)
  set (le' := (le + 1 + k) mod 3).
  assert (le' < 3) as Hle' by (apply Nat.mod_upper_bound; lia).
  assert (N.to_nat (to_id (3 * (oe / 3) + (oe mod 3 + 1 + N.of_nat k) mod 3))
          = 3 * t + le') as Haoe.
  { rewrite to_id_small.
    - unfold t, le', le. rewrite N2Nat.inj_add, N2Nat.inj_mul.
      rewrite N2Nat.inj_mod, !N2Nat.inj_add, Nat2N.id. done.
    - pose proof (N.mod_lt (oe mod 3 + 1 + N.of_nat k) 3 ltac:(done)).
      assert (oe / 3 < N.of_nat T)%N by (unfold t in Ht; lia).
      unfold id_modulus in *. lia. }
  destruct (occurrences_complete _ adj (3 * t + le') Hb Hadj)
    as (_ & He2 & _); [lia|].
  rewrite (list_lookup_total_correct _ _ _
             (all_faces_lookup _ t le' Ht Hle')) in He2.
  rewrite Haoe in Haedge.
  rewrite (list_lookup_total_correct _ _ _ He2) in Haedge.
  rewrite (list_lookup_total_correct _ _ _ He1) in Hne.
  pose proof (sides_share_a_vertex (triangles M !!! t) le le' Hle Hle') as Hsh.
  cbv zeta in Hsh. rewrite <-Haedge in Hsh.
  destruct Hne as (N1 & N2 & N3 & N4).
  destruct Hsh as [?|[?|[?|?]]]; done.
Qed.

Lemma should_not_happen_unreachable_witness :
  (compute_cross_field_with_heat solve_unit_diagonal kite 10 None).2
    ≠ Err (failed_stiffness 0 should_not_happen).
Proof.
  apply (should_not_happen_unreachable solve_unit_diagonal kite 10 None 0).
  by vm_compute.
Defined.

(** ** The rotation angles of the neighbor edges *)

Lemma neighbor_edge_alpha M uE o2 v1 v2 e_x e_y t le s k w w' :
  neighbor_edge M uE o2 v1 v2 e_x e_y t le s k w = Ok w' →
  ∃ a, (0 <= a < 2 * PI)%R ∧ alpha w' = <[2 * s + k := a]> (alpha w).
Proof.
  unfold neighbor_edge. destruct (Rlt_dec _ _); [done|].
  match goal with |- context [atan2 ?y ?x] =>
    pose proof (atan2_bound y x) as Hb; set (a := atan2 y x) in * end.
  pose proof PI_RGT_0 as Hpi.
  assert (0 <= (if Rlt_dec a 0 then a + 2 * PI else a) < 2 * PI)%R as Ha
    by (destruct (Rlt_dec a 0); lra).
  repeat case_decide; cbn [mbind result_bind]; intros [= <-]; eauto.
Qed.

Lemma triangle_side_alpha M uE o2 U e v1 v2 e_x s st st' :
  triangle_side M uE o2 U e v1 v2 e_x s st = Ok st' →
  ∃ a0 a1,
    (0 <= a0 < 2 * PI)%R ∧ (0 <= a1 < 2 * PI)%R ∧
    alpha st'.2 = <[2 * s + 1 := a1]> (<[2 * s + 0 := a0]> (alpha st.2)).
Proof.
  unfold triangle_side. destruct (Rlt_dec _ _); [done|].
  destruct (neighbor_edge _ _ _ _ _ _ _ _ _ _ 0 _) as [w|] eqn:H0;
    cbn [mbind result_bind]; [|done].
  destruct (neighbor_edge _ _ _ _ _ _ _ _ _ _ 1 _) as [w'|] eqn:H1;
    cbn [mbind result_bind]; [|done].
  intros [= <-]. cbn [snd].
  apply neighbor_edge_alpha in H0 as (a0 & B0 & H0), H1 as (a1 & B1 & H1).
  exists a0, a1. by rewrite H1, H0.
Qed.

(** X18: when [stiffness_coefficient] gets through its checks for an edge,
    the four rotation angles [alpha] of its neighbor edges lie in
    [0, 2 PI). *)
Theorem stiffness_angles_range (M : TMesh) (e : id) (uIEdges : list id2)
    (old2IEdge : list id) (uIEdgeToOld : list (list id)) (w : weights) :
  stiffness_weights M e uIEdges old2IEdge uIEdgeToOld = Ok w →
  length (alpha w) = 4 ∧ ∀ a, a ∈ alpha w → (0 <= a < 2 * PI)%R.
Proof.
  unfold stiffness_weights. case_decide; [done|].
  destruct (Rlt_dec _ _); [done|].
  destruct (triangle_side _ _ _ _ _ _ _ _ 0 _) as [st0|] eqn:H0;
    cbn [mbind result_bind]; [|done].
  destruct (triangle_side _ _ _ _ _ _ _ _ 1 _) as [st1|] eqn:H1;
    cbn [mbind result_bind]; [|done].
  intros [= <-].
  apply triangle_side_alpha in H0 as (a0 & a1 & B0 & B1 & H0).
  apply triangle_side_alpha in H1 as (a2 & a3 & B2 & B3 & H1).
  rewrite H1, H0. cbn. split; [done|]. intros a Ha.
  repeat (apply elem_of_cons in Ha as [->|Ha]; [done|]).
  by apply elem_of_nil in Ha.
Qed.

Lemma stiffness_angles_range_witness :
  ∃ w, stiffness_weights kite 0 (uIEdges kite_adj) (old2IEdge kite_adj)
         (uIEdgeToOld kite_adj) = Ok w ∧
       length (alpha w) = 4 ∧ ∀ a, a ∈ alpha w → (0 <= a < 2 * PI)%R.
Proof.
  destruct kite_weights as (w & Hw & _). exists w. split; [exact Hw|].
  apply (stiffness_angles_range kite 0 (uIEdges kite_adj) (old2IEdge kite_adj)
           (uIEdgeToOld kite_adj) w Hw).
Defined.

(** ** The projection of the crosses *)

Lemma pair_norm_ext (x y : list R) e :
  x !! (2 * e) = y !! (2 * e) → x !! (2 * e + 1) = y !! (2 * e + 1) →
  pair_norm x e = pair_norm y e.
Proof.
  intros H0 H1. unfold pair_norm. by rewrite !list_lookup_total_alt, H0, H1.
Qed.

Lemma pair_norm_unit (a b : R) :
  (sqrt (a * a + b * b) > EPS)%R →
  sqrt (a / sqrt (a * a + b * b) * (a / sqrt (a * a + b * b))
        + b / sqrt (a * a + b * b) * (b / sqrt (a * a + b * b))) = 1%R.
Proof.
  intros Hn. pose proof EPS_small as [HE _].
  set (nm := sqrt (a * a + b * b)) in *.
  assert (nm * nm = a * a + b * b)%R as Hsq by (apply sqrt_sqrt; nra).
  replace (a / nm * (a / nm) + b / nm * (b / nm))%R
    with ((a * a + b * b) / (nm * nm))%R by (field; lra).
  rewrite <-Hsq. replace (nm * nm / (nm * nm))%R with 1%R by (field; lra).
  apply sqrt_1.
Qed.

Lemma renormalize_pair (d : list bool) (n : nat) (x : list R) (e : nat) :
  e < n → d !!! e = false → 2 * e + 1 < length x →
  ((pair_norm x e > EPS)%R → pair_norm (renormalize d n x) e = 1%R) ∧
  ((pair_norm x e <= EPS)%R →
   renormalize d n x !! (2 * e) = x !! (2 * e) ∧
   renormalize d n x !! (2 * e + 1) = x !! (2 * e + 1)).
Proof.
  intros He Hd Hlen. unfold renormalize.
  match goal with |- context [foldl ?F _ _] => set (step := F) end.
  assert (∀ l y, e ∉ l →
            foldl step y l !! (2 * e) = y !! (2 * e) ∧
            foldl step y l !! (2 * e + 1) = y !! (2 * e + 1)) as Hother.
  { induction l as [|e' l IH]; intros y Hl; [done|].
    apply not_elem_of_cons in Hl as [Hne Hl]. cbn [foldl].
    destruct (IH (step y e') Hl) as [-> ->]. unfold step.
    destruct (negb (d !!! e')); [|done]. destruct (Rgt_dec _ _); [|done].
    by rewrite !list_lookup_insert_ne by lia. }
  assert (∀ l y, length (foldl step y l) = length y) as Hlength.
  { induction l as [|e' l IH]; intros y; [done|]. cbn [foldl]. rewrite IH.
    unfold step. destruct (negb (d !!! e')); [|done].
    destruct (Rgt_dec _ _); [|done]. by rewrite !length_insert. }
  replace n with (e + S (n - S e)) by lia.
  rewrite seq_app, foldl_app. cbn [seq foldl]. rewrite Nat.add_0_l.
  set (x1 := foldl step x (seq 0 e)).
  destruct (Hother (seq 0 e) x) as [A0 A1].
  { rewrite elem_of_seq. lia. }
  fold x1 in A0, A1.
  assert (pair_norm x1 e = pair_norm x e) as Hnorm by by apply pair_norm_ext.
  assert (length x1 = length x) as Hlen1 by apply Hlength.
  destruct (Hother (seq (S e) (n - S e)) (step x1 e)) as [B0 B1].
  { rewrite elem_of_seq. lia. }
  split.
  - intros Hbig.
    assert (step x1 e
            = <[2 * e + 1 := (x1 !!! (2 * e + 1)%nat / pair_norm x1 e)%R]>
                (<[2 * e + 0 := (x1 !!! (2 * e + 0)%nat / pair_norm x1 e)%R]>
                   x1))
      as Hstep.
    { unfold step. rewrite Hd. cbn [negb].
      destruct (Rgt_dec (pair_norm x1 e) EPS); [done|]. rewrite Hnorm in *.
      done. }
    assert (step x1 e !! (2 * e)
            = Some (x1 !!! (2 * e)%nat / pair_norm x1 e)%R) as C0.
    { rewrite Hstep, list_lookup_insert_ne, Nat.add_0_r by lia.
      apply list_lookup_insert_eq. lia. }
    assert (step x1 e !! (2 * e + 1)
            = Some (x1 !!! (2 * e + 1)%nat / pair_norm x1 e)%R) as C1.
    { rewrite Hstep. apply list_lookup_insert_eq. rewrite length_insert. lia. }
    unfold pair_norm at 1.
    rewrite !list_lookup_total_alt, B0, B1, C0, C1. cbn [default from_option].
    unfold pair_norm.
    apply pair_norm_unit. fold (pair_norm x1 e). by rewrite Hnorm.
  - intros Hsmall.
    assert (step x1 e = x1) as Hstep.
    { unfold step. rewrite Hd. cbn [negb].
      destruct (Rgt_dec (pair_norm x1 e) EPS) as [Hgt|]; [|done].
      rewrite Hnorm in Hgt. lra. }
    by rewrite B0, B1, Hstep.
Qed.

(** X19: the projection step gives the pair of an edge that is not a
    Dirichlet edge the norm 1 when its norm is above [EPS], and leaves the
    pair as it is otherwise. *)
Theorem renormalize_unit (d : list bool) (n : nat) (x : list R) (e : nat) :
  e < n → d !!! e = false → 2 * e + 1 < length x →
  ((pair_norm x e > EPS)%R → pair_norm (renormalize d n x) e = 1%R) ∧
  ((pair_norm x e <= EPS)%R →
   renormalize d n x !! (2 * e) = x !! (2 * e) ∧
   renormalize d n x !! (2 * e + 1) = x !! (2 * e + 1)).
Proof. apply renormalize_pair. Qed.

Lemma renormalize_unit_witness :
  ((pair_norm [3; 4]%R 0 > EPS)%R →
   pair_norm (renormalize [false] 1 [3; 4]%R) 0 = 1%R) ∧
  ((pair_norm [3; 4]%R 0 <= EPS)%R →
   renormalize [false] 1 [3; 4]%R !! (2 * 0) = [3; 4]%R !! (2 * 0) ∧
   renormalize [false] 1 [3; 4]%R !! (2 * 0 + 1) = [3; 4]%R !! (2 * 0 + 1)).
Proof.
  apply (renormalize_unit [false] 1 [3; 4]%R 0).
  - lia.
  - reflexivity.
  - simpl. lia.
Defined.

(** ** The time steps *)

Lemma edge_sizes_fold M (uE : list id2) l :
  ∀ acc : R * R * R,
    (0 <= acc.1.2)%R → (l ≠ [] ∨ acc.1.2 <= acc.2)%R →
    let r := foldl (λ (acc : R * R * R) (e : nat),
                      let edge : id2 := uE !!! e in
                      let len :=
                        length3 (vsub (point M edge.2) (point M edge.1)) in
                      (acc.1.1 + len, Rmin len acc.1.2, Rmax len acc.2)%R)
                   acc l in
    (0 <= r.1.2 <= r.2)%R.
Proof.
  induction l as [|e l IH]; intros acc H0 H1; cbv zeta.
  - simpl. destruct H1 as [?|?]; [done|lra].
  - cbn [foldl]. apply IH; cbn [fst snd].
    + apply Rmin_glb; [apply sqrt_pos|done].
    + right. etrans; [apply Rmin_l|apply Rmax_l].
Qed.

Lemma setup_sizes M sys :
  setup M = Ok sys →
  dtInitial sys
    = ((edge_sizes M (uIEdges (adj sys))).2
       * (edge_sizes M (uIEdges (adj sys))).2)%R ∧
  dtFinal sys
    = ((edge_sizes M (uIEdges (adj sys))).1.2
       * (edge_sizes M (uIEdges (adj sys))).1.2)%R.
Proof.
  unfold setup. intros H.
  destruct (compute_triangle_adjacencies _ _) as [adj0|]; [|done].
  case_decide as Hn; [done|].
  destruct (assemble M adj0 _) as [a|err] eqn:Ha; [|done].
  cbn [mbind result_bind] in H. by injection H as <-.
Qed.

(** X20: the time step does not grow: when the set-up succeeds, the time step
    of the last iteration (the square of the smallest edge length) is
    between 0 and the time step of the iterations before it (the square of
    the largest edge length). *)
Theorem timestep_does_not_grow (M : TMesh) (sys : heat_system) :
  setup M = Ok sys → (0 <= dtFinal sys <= dtInitial sys)%R.
Proof.
  intros Hs. destruct (setup_sizes M sys Hs) as [-> ->].
  destruct (setup_inv M sys Hs) as (_ & Hn & _). cbv zeta in Hn.
  unfold edge_sizes. cbn [fst snd].
  match goal with |- context [foldl ?F ?a ?l] =>
    pose proof (edge_sizes_fold M (uIEdges (adj sys)) l a) as H end.
  cbv zeta in H. cbn [fst snd] in H.
  destruct H as [H0 H1].
  - unfold DBL_MAX. apply IZR_le. done.
  - left. destruct (uIEdges (adj sys)); [done|]. simpl. done.
  - nra.
Qed.

Lemma timestep_does_not_grow_witness : (0 <= 9 <= 25)%R.
Proof.
  destruct one_triangle_setup as (sys & Hs & _ & _ & _ & HI & HF).
  rewrite <-HI, <-HF. apply (timestep_does_not_grow one_triangle sys Hs).
Defined.

(** ** The other keys of the map *)

(** X21: filling the map [edge_to_angle] keeps the entries whose key is not a
    unique edge. *)
Theorem edge_to_angle_other_keys (uIEdges : list id2) (x : list R)
    (edge_to_angle : gmap (N * N) R) (k : N * N) :
  k ∉ uIEdges →
  fill_edge_to_angle uIEdges x edge_to_angle !! k = edge_to_angle !! k.
Proof.
  intros Hk. unfold fill_edge_to_angle.
  assert (∀ l (m : gmap (N * N) R), (∀ e, e ∈ l → e < length uIEdges) →
            foldl (λ m e, let edge : id2 := uIEdges !!! e in
                          <[(edge.1, edge.2) := edge_angle x e]> m) m l !! k
            = m !! k) as H.
  { induction l as [|e l IH]; intros m Hl; [done|]. cbn [foldl].
    rewrite IH by (intros e' He'; apply Hl; by right).
    cbv zeta. apply lookup_insert_ne. intros Heq. apply Hk.
    rewrite <-Heq, <-surjective_pairing.
    apply list_elem_of_lookup_total_2. apply Hl. by left. }
  apply H. intros e He. apply elem_of_seq in He. lia.
Qed.

Lemma edge_to_angle_other_keys_witness :
  fill_edge_to_angle [(0, 1)%N] [1; 0]%R {[ (5, 6)%N := 2%R ]} !! (5, 6)%N
    = ({[ (5, 6)%N := 2%R ]} : gmap (N * N) R) !! (5, 6)%N.
Proof.
  apply (edge_to_angle_other_keys [(0, 1)%N] [1; 0]%R).
  intros H. apply list_elem_of_singleton in H. discriminate.
Defined.

(** ** The matrix of one diffusion step *)

Lemma operator_row_product (i : nat) (k : R) (x : list R) :
  ∀ (cols : list nat) (vals : list R),
    length cols = length vals → NoDup cols →
    row_product cols
      (imap (λ j v,
               if decide (j < length cols) then
                 if decide (cols !!! j = i) then (1 + k * v)%R else (k * v)%R
               else v) vals) x
    = ((if decide (i ∈ cols) then x !!! i else 0)
       + k * row_product cols vals x)%R.
Proof.
  induction cols as [|c cols IH]; intros [|v vals] Hlen Hnd; try done.
  - unfold row_product. simpl. lra.
  - apply NoDup_cons in Hnd as [Hc Hnd]. simpl in Hlen.
    rewrite imap_cons.
    rewrite (imap_ext _
               (λ j v,
                  if decide (j < length cols) then
                    if decide (cols !!! j = i) then (1 + k * v)%R
                    else (k * v)%R
                  else v) vals).
    2:{ intros j w Hj. simpl.
        destruct (decide (S j < S (length cols))),
                 (decide (j < length cols)); try lia; reflexivity. }
    unfold row_product in *. cbn [zip_with foldr].
    rewrite IH by (done || lia).
    destruct (decide (0 < length (c :: cols))) as [_|Hn];
      [|simpl in Hn; lia].
    change ((c :: cols) !!! 0) with c.
    destruct (decide (c = i)) as [->|Hne].
    + destruct (decide (i ∈ i :: cols)) as [_|Hn]; [|destruct Hn; by left].
      destruct (decide (i ∈ cols)) as [?|_]; [done|]. lra.
    + destruct (decide (i ∈ cols)) as [Hi|Hi].
      * destruct (decide (i ∈ c :: cols)) as [_|Hn];
          [|destruct Hn; by right].
        lra.
      * destruct (decide (i ∈ c :: cols)) as [Hi'|_]; [|lra].
        apply elem_of_cons in Hi' as [?|?]; [congruence|done].
Qed.

(** X22: a row of the matrix of a diffusion step that does not belong to a
    Dirichlet edge is the row of I + dt/Mass K: applied to a vector [x], it
    gives [x[i]] (when the row of K stores its diagonal) plus [dt/Mass[i]]
    times the row of K applied to [x].  The columns of a row of K are
    distinct. *)
Theorem operator_row_is_heat_step (d : list bool) (Mass : list R)
    (Kc : list (list nat)) (Kv : list (list R)) (dt : R) (i : nat)
    (cols : list nat) (vals : list R) (x : list R) :
  d !!! (i / 2) = false →
  Kc !! i = Some cols → Kv !! i = Some vals →
  length cols = length vals → NoDup cols →
  row_product cols (operator_matrix d Mass Kc Kv dt !!! i) x
  = ((if decide (i ∈ cols) then x !!! i else 0)
     + dt / Mass !!! i * row_product cols vals x)%R.
Proof.
  intros Hd Hc Hv Hlen Hnd. unfold operator_matrix.
  erewrite list_lookup_total_correct; [|by rewrite list_lookup_imap, Hv].
  unfold operator_row. rewrite Hd. cbn [negb].
  rewrite (list_lookup_total_correct _ _ _ Hc).
  by apply operator_row_product.
Qed.

Lemma operator_row_is_heat_step_witness :
  row_product [0; 1]
    (operator_matrix [false] [2; 2]%R [[0; 1]; [1]] [[1; -1]; [1]]%R 4 !!! 0)
    [1; 0]%R
  = ((if decide (0 ∈ [0; 1])%nat then [1; 0] !!! 0%nat else 0)
     + 4 / [2; 2] !!! 0%nat * row_product [0; 1]%nat [1; -1] [1; 0])%R.
Proof.
  apply (operator_row_is_heat_step [false] [2; 2]%R [[0; 1]; [1]]
           [[1; -1]; [1]]%R 4 0 [0; 1] [1; -1]%R [1; 0]%R).
  - reflexivity.
  - reflexivity.
  - reflexivity.
  - reflexivity.
  - apply (bool_decide_unpack (NoDup [0; 1])). by vm_compute.
Defined.

(** ** What the assembly loop builds *)

Lemma stiffness_coefficient_iv M e uE o2 U iv ijv :
  stiffness_coefficient M e uE o2 U = Ok (iv, ijv) →
  iv = [mkIV (to_id (2 * e)) 1; mkIV (to_id (2 * e + 1)) 1].
Proof.
  unfold stiffness_coefficient. intros H.
  destruct (stiffness_weights M e uE o2 U) as [w|err]; [|done].
  simpl in H. by injection H as <- <-.
Qed.

(** X23: when the assembly succeeds, the diagonal [K_diag] holds one entry of
    value 1 for each unknown, in the order of the unknowns; the right-hand
    side of an edge is (1, 0) for a Dirichlet edge and (0, 0) for the others;
    and the two unknowns of an edge have the same mass, 1 for a Dirichlet
    edge and a third of the area of its two triangles for the others. *)
Theorem assembly_unit_diagonal (M : TMesh) (adj : adjacencies)
    (d : list bool) (a : assembly) :
  (N.of_nat (2 * length (uIEdges adj)) ≤ id_modulus)%N →
  assemble M adj d = Ok a →
  K_diag a = (λ r, mkIV (N.of_nat r) 1) <$> seq 0 (2 * length (uIEdges adj)) ∧
  ∀ e, e < length (uIEdges adj) →
    rhs a !! (2 * e) = Some (if (d !!! e : bool) then 1%R else 0%R) ∧
    rhs a !! (2 * e + 1) = Some 0%R ∧
    Mass a !! (2 * e) = Mass a !! (2 * e + 1) ∧
    Mass a !! (2 * e)
      = Some (if (d !!! e : bool) then 1%R
              else (1 / 3 *
                    (triangle_area M (((uIEdgeToOld adj !!! e) !!! 0%nat) / 3)%N
                     + triangle_area M (((uIEdgeToOld adj !!! e) !!! 1%nat) / 3)%N))%R).
Proof.
  intros Hb Hrun. unfold assemble in Hrun.
  set (n := length (uIEdges adj)) in *.
  set (area := λ e,
         (1 / 3 *
          (triangle_area M (((uIEdgeToOld adj !!! e) !!! 0%nat) / 3)%N
           + triangle_area M (((uIEdgeToOld adj !!! e) !!! 1%nat) / 3)%N))%R).
  pose proof (for_each_seq_inv _
    (λ k a,
       K_diag a = (λ r, mkIV (N.of_nat r) 1) <$> seq 0 (2 * k) ∧
       length (rhs a) = 2 * n ∧ length (Mass a) = 2 * n ∧
       ∀ e, e < n →
         rhs a !! (2 * e)
           = Some (if decide (e < k) then if (d !!! e : bool) then 1%R else 0%R
                   else 0%R) ∧
         rhs a !! (2 * e + 1) = Some 0%R ∧
         Mass a !! (2 * e) = Mass a !! (2 * e + 1) ∧
         Mass a !! (2 * e)
           = Some (if decide (e < k) then if (d !!! e : bool) then 1%R else area e
                   else 1%R))
    n 0 _ _ Hrun) as H.
  cbv beta in H. destruct H as (H1 & _ & _ & H4).
  - cbn [K_diag rhs Mass]. split_and!; [done|apply length_replicate..|].
    intros e He. rewrite !lookup_replicate_2 by lia. done.
  - intros j a0 a1 Hj (I1 & I2 & I3 & I4) Hstep.
    unfold assemble_edge in Hstep.
    replace (seq 0 (2 * S j)) with (seq 0 (2 * j) ++ [2 * j; 2 * j + 1]).
    2:{ replace (2 * S j) with (2 * j + 2) by lia. rewrite seq_app. simpl.
        repeat f_equal; lia. }
    rewrite fmap_app.
    destruct (d !!! j) eqn:Hdj; cbn [negb] in Hstep.
    + injection Hstep as <-. cbn [K_diag rhs Mass].
      rewrite !to_id_small by lia. rewrite I1.
      split_and!; [cbn [fmap list_fmap]; repeat f_equal; lia
                  |by rewrite !length_insert|done|].
      intros e He. destruct (I4 e He) as (R1 & R2 & M1 & M2).
      destruct (decide (e = j)) as [->|Hne].
      * rewrite Hdj, !decide_True by lia. rewrite decide_False in M2 by lia.
        split_and!; [|apply list_lookup_insert_eq; rewrite length_insert; lia
                     |done..].
        rewrite list_lookup_insert_ne by lia. rewrite Nat.add_0_r.
        apply list_lookup_insert_eq. lia.
      * rewrite !list_lookup_insert_ne by lia.
        split_and!; [rewrite R1|done|done|rewrite M2];
          repeat case_decide; try done; lia.
    + destruct (stiffness_coefficient M _ _ _ _) as [[iv ijv]|err] eqn:Hs;
        [|done].
      injection Hstep as <-. cbn [K_diag rhs Mass].
      apply stiffness_coefficient_iv in Hs as ->.
      rewrite (to_id_small (N.of_nat j)) by lia.
      rewrite !to_id_small by lia. rewrite I1.
      split_and!.
      * cbn [fmap list_fmap]. repeat f_equal; lia.
      * done.
      * by rewrite !length_insert.
      * intros e He. destruct (I4 e He) as (R1 & R2 & M1 & M2).
        destruct (decide (e = j)) as [->|Hne].
        -- rewrite Hdj, !decide_True by lia. rewrite decide_False in R1 by lia.
           split_and!; [done..| |].
           ++ rewrite list_lookup_insert_ne by lia. rewrite Nat.add_0_r.
              rewrite list_lookup_insert_eq by lia.
              by rewrite list_lookup_insert_eq by (rewrite length_insert; lia).
           ++ rewrite list_lookup_insert_ne by lia. rewrite Nat.add_0_r.
              by rewrite list_lookup_insert_eq by lia.
        -- rewrite !list_lookup_insert_ne by lia.
           split_and!; [rewrite R1|done|done|rewrite M2];
             repeat case_decide; try done; lia.
  - simpl in H1. split; [done|]. intros e He.
    destruct (H4 e He) as (R1 & R2 & M1 & M2).
    rewrite decide_True in R1, M2 by lia. done.
Qed.

Lemma assembly_unit_diagonal_witness :
  K_diag
    {| K_diag := [mkIV 0 1; mkIV 1 1; mkIV 2 1; mkIV 3 1; mkIV 4 1; mkIV 5 1];
       K_coefs := [];
       rhs := [1; 0; 1; 0; 1; 0]%R;
       Mass := [1; 1; 1; 1; 1; 1]%R |}
    = (λ r, mkIV (N.of_nat r) 1)
        <$> seq 0 (2 * length (uIEdges one_triangle_adj)) ∧
  ∀ e, e < length (uIEdges one_triangle_adj) →
    [1; 0; 1; 0; 1; 0]%R !! (2 * e)
      = Some (if ([true; true; true] !!! e : bool) then 1%R else 0%R) ∧
    [1; 0; 1; 0; 1; 0]%R !! (2 * e + 1) = Some 0%R ∧
    [1; 1; 1; 1; 1; 1]%R !! (2 * e) = [1; 1; 1; 1; 1; 1]%R !! (2 * e + 1) ∧
    [1; 1; 1; 1; 1; 1]%R !! (2 * e)
      = Some (if ([true; true; true] !!! e : bool) then 1%R
              else (1 / 3 *
                    (triangle_area one_triangle
                       (((uIEdgeToOld one_triangle_adj !!! e) !!! 0%nat) / 3)%N
                     + triangle_area one_triangle
                         (((uIEdgeToOld one_triangle_adj !!! e) !!! 1%nat) / 3)%N))%R).
Proof.
  apply (assembly_unit_diagonal one_triangle one_triangle_adj
           [true; true; true]).
  - by vm_compute.
  - apply one_triangle_assembly.
Defined.

(** ** The view with the crosses *)

Lemma cross_of_edge_data M uE U x k :
  length (data_VP (foldl (cross_of_edge M uE U x)
                     {| data_VP := [];
                        vsum := replicate (length (points M)) 0%R;
                        vertAvg := replicate (length (points M)) (0, 0, 0)%R |}
                     (seq 0 k)))
  = 12 * length (drawn_edges x k).
Proof.
  induction k as [|k IH]; [done|].
  unfold drawn_edges in *. rewrite seq_S, foldl_app, omap_app, length_app.
  cbn [foldl omap list_omap]. unfold cross_of_edge at 1. cbv zeta. rewrite Nat.add_0_l.
  destruct (Rgt_dec (pair_norm x k) EPS); cbn [data_VP mbind option_bind].
  - rewrite !length_app, IH. change (length (coords _)) with 3.
    cbn [length]. lia.
  - rewrite IH. cbn [length]. lia.
Qed.

Lemma rep_of_vertex_data M st l :
  ∀ data m, length data = 6 * m →
            ∃ m', length (foldl (rep_of_vertex M st) data l) = 6 * m'.
Proof.
  induction l as [|v l IH]; intros data m Hm; [by exists m|].
  cbn [foldl]. unfold rep_of_vertex at 2.
  destruct (Rgt_dec _ _); [|by apply (IH _ m)].
  apply (IH _ (S m)). rewrite !length_app, Hm. simpl. lia.
Qed.

(** X24: the view with the crosses gets two vectors (a point and a direction,
    6 numbers) for each unique edge whose pair has a norm above [EPS], and
    none for the others; the numbers of elements given with the data of the
    two views are exact. *)
Theorem crosses_view_counts (M : TMesh) (uIEdges : list id2)
    (uIEdgeToOld : list (list id)) (x : list R) :
  (create_view_with_crosses M uIEdges uIEdgeToOld x).1.1
    = 2 * length (drawn_edges x (length uIEdges)) ∧
  length (create_view_with_crosses M uIEdges uIEdgeToOld x).1.2
    = 6 * (create_view_with_crosses M uIEdges uIEdgeToOld x).1.1 ∧
  length (create_view_with_crosses M uIEdges uIEdgeToOld x).2.2
    = 6 * (create_view_with_crosses M uIEdges uIEdgeToOld x).2.1.
Proof.
  unfold create_view_with_crosses. cbn [fst snd].
  rewrite cross_of_edge_data.
  replace (12 * length (drawn_edges x (length uIEdges)))
    with (2 * length (drawn_edges x (length uIEdges)) * 6) by lia.
  rewrite Nat.div_mul by done. split_and!; [done|lia|].
  match goal with |- context [foldl (rep_of_vertex M ?st) [] ?l] =>
    destruct (rep_of_vertex_data M st l [] 0 eq_refl) as [m' ->] end.
  replace (6 * m') with (m' * 6) by lia. rewrite Nat.div_mul by done. lia.
Qed.

(** ** From the gmsh API to the cross field *)



(** ** The field that is returned *)

Lemma assemble_rhs_length M adj d a :
  assemble M adj d = Ok a → length (rhs a) = 2 * length (uIEdges adj).
Proof.
  unfold assemble. intros Hrun.
  apply (for_each_seq_inv _
           (λ _ a, length (rhs a) = 2 * length (uIEdges adj)) _ 0 _ _ Hrun).
  - simpl. apply length_replicate.
  - intros j a0 a1 _ Hlen Hstep. unfold assemble_edge in Hstep.
    destruct (negb (d !!! j)).
    + destruct (stiffness_coefficient M _ _ _ _) as [[iv ijv]|err]; [|done].
      by injection Hstep as <-.
    + injection Hstep as <-. cbn [rhs]. by rewrite !length_insert.
Qed.

Lemma heat_loop_last solver d Mass Kc Kv n dtI dtF nbIter iters :
  (∀ Acol Aval B x, solver Acol Aval B = Some x → length x = length B) →
  iters ≠ [] →
  ∀ x0 x,
    (heat_loop solver d Mass Kc Kv n dtI dtF nbIter iters x0).2 = Ok x →
    ∃ x', length x' = length x0 ∧ x = renormalize d n x'.
Proof.
  intros Hsolver. induction iters as [|iter iters IH]; intros Hne x0 x Hrun;
    [done|].
  cbn [heat_loop] in Hrun.
  destruct (solver Kc _ x0) as [x1|] eqn:Hs; [|done]. cbn [snd] in Hrun.
  apply Hsolver in Hs.
  destruct iters as [|iter' iters'].
  - cbn [heat_loop snd] in Hrun. injection Hrun as <-. by exists x1.
  - destruct (IH ltac:(done) _ _ Hrun) as (x' & Hlen & Hx).
    exists x'. split; [|done]. rewrite Hlen.
    destruct (renormalize_spec d n x1) as [-> _]. done.
Qed.

(** X26: with a solver that returns vectors of the dimension of its
    right-hand side, the field that a successful run returns is normalized:
    the pair of every edge that is not a Dirichlet edge has the norm 1, or a
    norm of at most [EPS]. *)
Theorem returned_field_normalized
    (solver : list (list nat) → list (list R) → list R → option (list R))
    (M : TMesh) (sys : heat_system) (nbIter : Z)
    (edge_to_angle : option (gmap (N * N) R))
    (x : list R) (m : option (gmap (N * N) R)) (e : nat) :
  (∀ Acol Aval B x, solver Acol Aval B = Some x → length x = length B) →
  setup M = Ok sys →
  (compute_cross_field_with_heat solver M nbIter edge_to_angle).2
    = Ok (x, m) →
  e < length (uIEdges (adj sys)) →
  dirichletEdge sys !!! e = false →
  pair_norm x e = 1%R ∨ (pair_norm x e <= EPS)%R.
Proof.
  intros Hsolver Hsetup Hrun He Hd.
  unfold compute_cross_field_with_heat in Hrun. rewrite Hsetup in Hrun.
  cbv zeta in Hrun. change (Z.to_nat (10 mod 2 ^ 64)) with 10 in Hrun.
  unfold diffusion in Hrun.
  destruct (heat_loop _ _ _ _ _ _ _ _ _ _ _).2 as [x1|err] eqn:Hloop; [|done].
  cbn [snd] in Hrun. injection Hrun as <- _.
  apply heat_loop_last in Hloop as (x' & Hlen & ->); [|done..].
  destruct (setup_inv M sys Hsetup) as (_ & _ & _ & Ha & _).
  rewrite (assemble_rhs_length _ _ _ _ Ha) in Hlen.
  destruct (renormalize_pair (dirichletEdge sys) (length (uIEdges (adj sys)))
              x' e He Hd ltac:(lia)) as [Hbig Hsmall].
  destruct (Rgt_dec (pair_norm x' e) EPS) as [Hgt|Hle].
  - left. by apply Hbig.
  - right. destruct Hsmall as [H0 H1]; [lra|].
    rewrite (pair_norm_ext _ x' e H0 H1). lra.
Qed.

Lemma kite_setup :
  ∃ sys, setup kite = Ok sys ∧ adj sys = kite_adj ∧
         dirichletEdge sys = [false; true; true; true; true].
Proof.
  destruct kite_weights as (w & Hw & _).
  unfold setup. rewrite kite_adjacencies.
  change (length (uIEdges kite_adj)) with 5.
  rewrite decide_False by lia.
  change (mark_lines kite (uIEdges kite_adj)
            (mark_occurrences (uIEdgeToOld kite_adj) 5))
    with [false; true; true; true; true].
  assert (∃ a, assemble kite kite_adj [false; true; true; true; true] = Ok a)
    as [a Ha].
  { unfold assemble. change (length (uIEdges kite_adj)) with 5.
    cbn [seq for_each]. unfold assemble_edge at 1.
    change ([false; true; true; true; true] !!! 0) with false.
    cbn [negb]. change (to_id (N.of_nat 0)) with 0%N.
    unfold stiffness_coefficient. rewrite Hw. cbn [mbind result_bind].
    unfold assemble_edge.
    change ([false; true; true; true; true] !!! 1) with true.
    change ([false; true; true; true; true] !!! 2) with true.
    change ([false; true; true; true; true] !!! 3) with true.
    change ([false; true; true; true; true] !!! 4) with true.
    cbn [negb]. eexists. reflexivity. }
  rewrite Ha. cbn [mbind result_bind]. eexists. split; [reflexivity|done].
Qed.

Lemma heat_loop_by_rhs d Mass Kc Kv n dtI dtF nbIter iters :
  ∀ x, ∃ x',
    (heat_loop solve_by_rhs d Mass Kc Kv n dtI dtF nbIter iters x).2 = Ok x'.
Proof.
  induction iters as [|iter iters IH]; intros x; [by exists x|].
  cbn [heat_loop]. unfold solve_by_rhs at 1. cbn [snd]. apply IH.
Qed.

Lemma returned_field_normalized_witness :
  ∃ x,
    (compute_cross_field_with_heat solve_by_rhs kite 10 None).2
      = Ok (x, None) ∧
    (pair_norm x 0 = 1%R ∨ (pair_norm x 0 <= EPS)%R).
Proof.
  destruct kite_setup as (sys & Hs & Hadj & Hd).
  assert (∃ x, (compute_cross_field_with_heat solve_by_rhs kite 10 None).2
               = Ok (x, None)) as [x Hx].
  { unfold compute_cross_field_with_heat. rewrite Hs. cbv zeta.
    unfold diffusion.
    match goal with |- context [heat_loop ?s ?d ?m ?c ?v ?n ?a ?b ?k ?l ?y] =>
      destruct (heat_loop_by_rhs d m c v n a b k l y) as [x ->] end.
    by exists x. }
  exists x. split; [exact Hx|].
  apply (returned_field_normalized solve_by_rhs kite sys 10 None x None 0).
  - by intros Acol Aval B y [= <-].
  - exact Hs.
  - exact Hx.
  - rewrite Hadj. simpl. lia.
  - by rewrite Hd.
Defined.
